(** * Brakes: a circuit breaker with rolling statistics

    Shallow embedding of the TypeScript sources of the breaker
    ([Bucket], [Stats], [Circuit], [Brakes], [GlobalStats]) and the
    properties of its specification.

    Conventions of the embedding.
    - Counters and latency samples (milliseconds) are JavaScript numbers
      that only ever hold integers; they are modelled as [Z].  Thresholds
      and percentile levels are modelled by their values, rationals [Q].
      The product of a percentile level and a length, and the percentage
      of the Hystrix form, are computed as the source computes them, in
      double precision ([Double]): every operation rounds its exact
      result.  A quotient of counters that is only compared or bounded
      (threshold check, share of a bucket, mean) is the exact quotient; a
      division whose result is [NaN] or infinite is written out.
    - An object reference that may be [undefined] is an [option]; reading
      or writing a property through [undefined] throws a [TypeError].
    - The lifetime counters object is shared by reference between a
      [Stats] and its buckets: it lives in a heap indexed by [Ref], and
      the objects hold [option Ref].
    - Methods run in a state monad with exceptions.  The state reached at
      the moment of a [throw] is kept, as in the source, where the
      assignments made before the exception stay made.
    - Timers and promise settlements are transitions of their own: the
      function that the source passes as a callback is a definition
      which the environment may run later. *)

From Stdlib Require Import ZArith QArith Qround Qabs Qpower List String Bool.
From Stdlib Require Import Lia Lqa.
From Stdlib Require SpecFloat.
From Stdlib Require Import Permutation Sorted.
Import ListNotations.
Open Scope Z_scope.

(* ================================================================= *)
(** ** Data model *)

Definition Ref := nat.

(** [defaultCumulativeStats] and the type derived from it (Stats). *)
Module CumulativeStats.

Record t : Type := mk {
  countTotal : Z;
  countSuccess : Z;
  countFailure : Z;
  countTimeout : Z;
  countShortCircuited : Z;
  countTotalDeriv : Z;
  countSuccessDeriv : Z;
  countFailureDeriv : Z;
  countTimeoutDeriv : Z;
  countShortCircuitedDeriv : Z
}.

Inductive field : Type :=
| CountTotal | CountSuccess | CountFailure | CountTimeout
| CountShortCircuited
| CountTotalDeriv | CountSuccessDeriv | CountFailureDeriv
| CountTimeoutDeriv | CountShortCircuitedDeriv.

Definition field_eqb (f g : field) : bool :=
  match f, g with
  | CountTotal, CountTotal | CountSuccess, CountSuccess
  | CountFailure, CountFailure | CountTimeout, CountTimeout
  | CountShortCircuited, CountShortCircuited
  | CountTotalDeriv, CountTotalDeriv
  | CountSuccessDeriv, CountSuccessDeriv
  | CountFailureDeriv, CountFailureDeriv
  | CountTimeoutDeriv, CountTimeoutDeriv
  | CountShortCircuitedDeriv, CountShortCircuitedDeriv => true
  | _, _ => false
  end.

Definition get (f : field) (c : t) : Z :=
  match f with
  | CountTotal => countTotal c
  | CountSuccess => countSuccess c
  | CountFailure => countFailure c
  | CountTimeout => countTimeout c
  | CountShortCircuited => countShortCircuited c
  | CountTotalDeriv => countTotalDeriv c
  | CountSuccessDeriv => countSuccessDeriv c
  | CountFailureDeriv => countFailureDeriv c
  | CountTimeoutDeriv => countTimeoutDeriv c
  | CountShortCircuitedDeriv => countShortCircuitedDeriv c
  end.

(** [c.f = v] *)
Definition set (f : field) (v : Z) (c : t) : t :=
  let pick g := if field_eqb f g then v else get g c in
  mk (pick CountTotal) (pick CountSuccess) (pick CountFailure)
     (pick CountTimeout) (pick CountShortCircuited)
     (pick CountTotalDeriv) (pick CountSuccessDeriv)
     (pick CountFailureDeriv) (pick CountTimeoutDeriv)
     (pick CountShortCircuitedDeriv).

Definition defaultCumulativeStats : t := mk 0 0 0 0 0 0 0 0 0 0.

End CumulativeStats.

(** The heap of lifetime-counter objects.  Every reference is live (the
    host language collects garbage); only [undefined] is not an object. *)
Definition Heap := Ref -> CumulativeStats.t.

Definition heap_update (r : Ref) (f : CumulativeStats.t -> CumulativeStats.t)
  (h : Heap) : Heap :=
  fun r' => if Nat.eqb r' r then f (h r') else h r'.

(** The [Percentiles] object: property keys in insertion order. *)
Definition Percentiles := list (Q * Z).

Fixpoint percentiles_set (p : Q) (v : Z) (o : Percentiles) : Percentiles :=
  match o with
  | [] => [(p, v)]
  | (k, w) :: o' =>
      if Qeq_bool k p then (k, v) :: o' else (k, w) :: percentiles_set p v o'
  end.

Fixpoint percentiles_get (p : Q) (o : Percentiles) : option Z :=
  match o with
  | [] => None
  | (k, w) :: o' => if Qeq_bool k p then Some w else percentiles_get p o'
  end.

(** The object built by [Stats._generateStats]: the accumulator of the
    [reduce], from which [requestTimes] is deleted and onto which the
    properties of the lifetime counters are copied.  A property that the
    object does not have is [None]. *)
Module TotalStats.

Record t : Type := mk {
  failed : Z;
  timedOut : Z;
  total : Z;
  shortCircuited : Z;
  latencyMean : Z;
  successful : Z;
  requestTimes : option (list Z);
  percentiles : Percentiles;
  countTotal : option Z;
  countSuccess : option Z;
  countFailure : option Z;
  countTimeout : option Z;
  countShortCircuited : option Z;
  countTotalDeriv : option Z;
  countSuccessDeriv : option Z;
  countFailureDeriv : option Z;
  countTimeoutDeriv : option Z;
  countShortCircuitedDeriv : option Z
}.

(** The value of the copied property [f], when the object has it. *)
Definition cumulative (f : CumulativeStats.field) (s : t) : option Z :=
  match f with
  | CumulativeStats.CountTotal => countTotal s
  | CumulativeStats.CountSuccess => countSuccess s
  | CumulativeStats.CountFailure => countFailure s
  | CumulativeStats.CountTimeout => countTimeout s
  | CumulativeStats.CountShortCircuited => countShortCircuited s
  | CumulativeStats.CountTotalDeriv => countTotalDeriv s
  | CumulativeStats.CountSuccessDeriv => countSuccessDeriv s
  | CumulativeStats.CountFailureDeriv => countFailureDeriv s
  | CumulativeStats.CountTimeoutDeriv => countTimeoutDeriv s
  | CumulativeStats.CountShortCircuitedDeriv => countShortCircuitedDeriv s
  end.

End TotalStats.

(* ================================================================= *)
(** ** Errors (consts, CircuitBrokenError) *)

Module consts.
Open Scope string_scope.
Definition TIMEOUT := "Request Timed out".
Definition CIRCUIT_OPENED := "Circuit has been opened".
Definition INVALID_BUCKET_PROP :=
  "Attempt to access nonexistent bucket property".
Definition NO_FUNCTION :=
  "This instance of brakes has no master circuit. You must use a slave circuit.".
Definition NO_BRAKES := "Circuit must be passed a Brakes instance".
End consts.

(** A message is kept as the pieces of its template: the two numbers that
    [CircuitBrokenError] formats into its message are floating point
    expressions over the totals and the threshold, kept unevaluated. *)
Inductive MessagePart : Type :=
| Text (s : string)
| FailedPercent (successful total : Z)
    (* Math.floor((1 - successful / total) * 100) *)
| ThresholdPercent (threshold : Q).
    (* threshold * 100 *)

Inductive ErrorClass : Type :=
| ErrorC | TypeErrorC | TimeOutErrorC | CircuitBrokenErrorC.

Record JsError : Type := mkError {
  err_class : ErrorClass;
  err_message : list MessagePart;
  err_name : option string
}.

Definition Error (msg : string) : JsError :=
  mkError ErrorC [Text msg] None.

(** What the engine throws on [undefined.prop]. *)
Definition TypeError (prop : string) : JsError :=
  mkError TypeErrorC
    [Text "Cannot access properties of undefined: "%string; Text prop] None.

Definition TimeOutError (msg : string) : JsError :=
  mkError TimeOutErrorC [Text msg] None.

Definition truthy_string (s : string) : bool :=
  match s with EmptyString => false | _ => true end.

Definition CircuitBrokenError (name : string) (totals : TotalStats.t)
  (threshold : Q) : JsError :=
  let prefix :=
    if truthy_string name
    then ("[Breaker: " ++ name ++ "] ")%string else ""%string in
  mkError CircuitBrokenErrorC
    [Text prefix; Text consts.CIRCUIT_OPENED;
     Text " - The percentage of failed requests ("%string;
     FailedPercent (TotalStats.successful totals) (TotalStats.total totals);
     Text "%) is greater than the threshold specified ("%string;
     ThresholdPercent threshold; Text "%)"%string]
    (Some name).

Definition instanceof_TimeOutError (e : JsError) : bool :=
  match err_class e with TimeOutErrorC => true | _ => false end.

(* ================================================================= *)
(** ** The monad of methods: state and exceptions *)

Inductive Completion (A : Type) : Type :=
| Normal (a : A)
| Throw (e : JsError).
Arguments Normal {A} a.
Arguments Throw {A} e.

Definition M (S A : Type) : Type := S -> S * Completion A.

Definition ret {S A} (a : A) : M S A := fun s => (s, Normal a).

Definition bind {S A B} (m : M S A) (k : A -> M S B) : M S B :=
  fun s =>
    match m s with
    | (s', Normal a) => k a s'
    | (s', Throw e) => (s', Throw e)
    end.

Definition throw {S A} (e : JsError) : M S A := fun s => (s, Throw e).

Definition gets {S A} (f : S -> A) : M S A := fun s => (s, Normal (f s)).

Definition modify {S} (f : S -> S) : M S unit := fun s => (f s, Normal tt).

(** [try { m } catch (e) { h e }] *)
Definition try_catch {S A} (m : M S A) (h : JsError -> M S A) : M S A :=
  fun s =>
    match m s with
    | (s', Normal a) => (s', Normal a)
    | (s', Throw e) => h e s'
    end.

(** Run a method of a component of the state. *)
Definition zoom {S T A} (view : S -> T) (update : T -> S -> S)
  (m : M T A) : M S A :=
  fun s => let (t', r) := m (view s) in (update t' s, r).

Declare Scope js_scope.
Delimit Scope js_scope with js.
Notation "x <- c1 ;; c2" := (bind c1 (fun x => c2))
  (at level 61, c1 at next level, right associativity) : js_scope.
Notation "c1 ;; c2" := (bind c1 (fun _ => c2))
  (at level 61, right associativity) : js_scope.
Open Scope js_scope.

Definition exec_state {S A} (m : M S A) (s : S) : S := fst (m s).
Definition completion {S A} (m : M S A) (s : S) : Completion A := snd (m s).

Definition returns {A} (c : Completion A) : bool :=
  match c with Normal _ => true | Throw _ => false end.

(** [a[i]] on an array: [undefined] out of range. *)
Definition js_index {A} (a : list A) (i : Z) : option A :=
  if i <? 0 then None else nth_error a (Z.to_nat i).

(** [x || 0] on a number that may be [undefined] or [NaN]. *)
Definition or_zero (x : option Z) : Z :=
  match x with Some v => v | None => 0 end.

(* ================================================================= *)
(** ** The numbers of the host language *)

(** A number is an IEEE 754 double: 53 significant bits, exponents up to
    1023, subnormal numbers down to 2^-1074.  A finite number is kept as
    its value, a rational; the sign of a zero is not kept (the modelled
    code never divides by a zero nor prints one).  Every arithmetic
    operation computes the exact result and rounds it to the nearest
    double, a tie going to the even significand, and to an infinity from
    2^1024 on. *)
Module Double.

Inductive t : Type :=
| Finite (q : Q)
| Infinity (negative : bool)
| NaN.

Definition pow2 (e : Z) : Q := Qpower 2 e.

(** The exponent [e] of a number other than zero:
    [2^e <= |x| < 2^(e+1)]. *)
Definition ilog2 (x : Q) : Z :=
  let e := Z.log2 (Z.abs (Qnum x)) - Z.log2 (Zpos (Qden x)) in
  if Qle_bool (pow2 e) (Qabs x) then e else e - 1.

(** The exponent of the last of the 53 bits of [x]; the subnormal
    numbers share that of 2^-1022. *)
Definition ulp_exponent (x : Q) : Z := Z.max (ilog2 x - 52) (-1074).

(** The nearest integer, a tie going to the even one. *)
Definition nearest_even (m : Q) : Z :=
  let f := Qfloor m in
  match (m - inject_Z f ?= 1 # 2)%Q with
  | Lt => f
  | Gt => f + 1
  | Eq => if Z.even f then f else f + 1
  end.

(** The nearest multiple of [2^q]. *)
Definition on_grid (q : Z) (x : Q) : Q :=
  (inject_Z (nearest_even (x / pow2 q)) * pow2 q)%Q.

Definition nearest (x : Q) : Q := on_grid (ulp_exponent x) x.

(** The double that an exact result becomes. *)
Definition round (x : Q) : t :=
  let y := nearest x in
  if Qle_bool (pow2 1024) (Qabs y)
  then Infinity (negb (Qle_bool 0 y))
  else Finite (Qred y).

(** The rationals that are values of doubles. *)
Definition representable (x : Q) : bool :=
  Qeq_bool (nearest x) x && negb (Qle_bool (pow2 1024) (Qabs x)).

(** The value of a decimal literal of the program text, such as [0.9],
    below 2^1024. *)
Definition literal (q : Q) : Q :=
  match round q with Finite y => y | _ => q end.

Definition of_Z (z : Z) : t := Finite (inject_Z z).

(** The number that a float of the standard library denotes. *)
Definition of_spec_float (f : SpecFloat.spec_float) : t :=
  match f with
  | SpecFloat.S754_zero _ => Finite 0
  | SpecFloat.S754_infinity s => Infinity s
  | SpecFloat.S754_nan => NaN
  | SpecFloat.S754_finite s m e =>
      Finite (Qred ((if s then -1 else 1) * inject_Z (Zpos m) * pow2 e))
  end.

(** The float of the standard library for an integer of few bits. *)
Definition binary64_of_Z (z : Z) : SpecFloat.spec_float :=
  match z with
  | Z0 => SpecFloat.S754_zero false
  | Zpos p => SpecFloat.S754_finite false p 0
  | Zneg p => SpecFloat.S754_finite true p 0
  end.

(** The same number. *)
Definition same (x y : t) : bool :=
  match x, y with
  | Finite a, Finite b => Qeq_bool a b
  | Infinity s, Infinity s' => Bool.eqb s s'
  | NaN, NaN => true
  | _, _ => false
  end.

Definition negative (q : Q) : bool := negb (Qle_bool 0 q).

(** [x * y] *)
Definition mul (x y : t) : t :=
  match x, y with
  | Finite a, Finite b => round (a * b)
  | Finite a, Infinity s | Infinity s, Finite a =>
      if Qeq_bool a 0 then NaN else Infinity (xorb s (negative a))
  | Infinity s, Infinity s' => Infinity (xorb s s')
  | NaN, _ | _, NaN => NaN
  end.

(** [x - y] *)
Definition sub (x y : t) : t :=
  match x, y with
  | Finite a, Finite b => round (a - b)
  | Finite _, Infinity s => Infinity (negb s)
  | Infinity s, Finite _ => Infinity s
  | Infinity s, Infinity s' => if Bool.eqb s s' then NaN else Infinity s
  | NaN, _ | _, NaN => NaN
  end.

(** [x / y] *)
Definition div (x y : t) : t :=
  match x, y with
  | Finite a, Finite b =>
      if Qeq_bool b 0
      then if Qeq_bool a 0 then NaN else Infinity (negative a)
      else round (a / b)
  | Finite _, Infinity _ => Finite 0
  | Infinity s, Finite b => Infinity (xorb s (negative b))
  | Infinity _, Infinity _ => NaN
  | NaN, _ | _, NaN => NaN
  end.

(** [Math.ceil(x)]: an integer is a double wherever a double has a
    fraction. *)
Definition Math_ceil (x : t) : t :=
  match x with
  | Finite q => Finite (inject_Z (Qceiling q))
  | _ => x
  end.

(** [Math.round(x)]: the nearest integer, halves upwards. *)
Definition Math_round (x : t) : t :=
  match x with
  | Finite q => Finite (inject_Z (Qfloor (q + (1 # 2))))
  | _ => x
  end.

(** [array[x]]: only an integer from 0 up to the length is the key of
    an element. *)
Definition index {A} (array : list A) (x : t) : option A :=
  match x with
  | Finite q =>
      if Qeq_bool q (inject_Z (Qfloor q)) then js_index array (Qfloor q)
      else None
  | _ => None
  end.

End Double.

(** A number that may be [NaN]: what an arithmetic expression over
    arbitrary property values evaluates to. *)
Inductive JsNumber : Type :=
| Num (q : Q)
| NaN.

(** [Number(a)] on an array of numbers: the number that its string form
    denotes. *)
Definition ToNumber_array (a : list Z) : JsNumber :=
  match a with
  | [] => Num 0
  | [x] => Num (inject_Z x)
  | _ :: _ :: _ => NaN
  end.

(* ================================================================= *)
(** ** Bucket *)

Module Bucket.

Record t : Type := mk {
  failed : Z;
  successful : Z;
  total : Z;
  shortCircuited : Z;
  timedOut : Z;
  requestTimes : list Z;
  cumulativeStats : option Ref
}.

(** [new Bucket(cumulativeStats)] *)
Definition new (cumulativeStats : option Ref) : t :=
  mk 0 0 0 0 0 [] cumulativeStats.

Inductive field : Type :=
| Failed | Successful | Total | ShortCircuited | TimedOut.

Definition get (f : field) (b : t) : Z :=
  match f with
  | Failed => failed b
  | Successful => successful b
  | Total => total b
  | ShortCircuited => shortCircuited b
  | TimedOut => timedOut b
  end.

Definition set (f : field) (v : Z) (b : t) : t :=
  match f with
  | Failed =>
      mk v (successful b) (total b) (shortCircuited b) (timedOut b)
         (requestTimes b) (cumulativeStats b)
  | Successful =>
      mk (failed b) v (total b) (shortCircuited b) (timedOut b)
         (requestTimes b) (cumulativeStats b)
  | Total =>
      mk (failed b) (successful b) v (shortCircuited b) (timedOut b)
         (requestTimes b) (cumulativeStats b)
  | ShortCircuited =>
      mk (failed b) (successful b) (total b) v (timedOut b)
         (requestTimes b) (cumulativeStats b)
  | TimedOut =>
      mk (failed b) (successful b) (total b) (shortCircuited b) v
         (requestTimes b) (cumulativeStats b)
  end.

(** A method of a bucket runs on the heap and the bucket. *)
Definition St : Type := Heap * t.

(** [this.f++] *)
Definition incr (f : field) : M St unit :=
  modify (fun '(h, b) => (h, set f (get f b + 1) b)).

(** [this.cumulativeStats.f++] *)
Definition cumulative_incr (f : CumulativeStats.field) (prop : string)
  : M St unit :=
  fun '(h, b) =>
    match cumulativeStats b with
    | None => ((h, b), Throw (TypeError prop))
    | Some r =>
        ((heap_update r
            (fun c => CumulativeStats.set f (CumulativeStats.get f c + 1) c) h,
          b),
         Normal tt)
    end.

(** [this.requestTimes.push(runTime)] *)
Definition push_requestTime (runTime : Z) : M St unit :=
  modify (fun '(h, b) =>
    (h, mk (failed b) (successful b) (total b) (shortCircuited b)
           (timedOut b) (requestTimes b ++ [runTime]) (cumulativeStats b))).

Definition failure (runTime : Z) : M St unit :=
  incr Total ;;
  cumulative_incr CumulativeStats.CountTotal "countTotal" ;;
  cumulative_incr CumulativeStats.CountTotalDeriv "countTotalDeriv" ;;
  incr Failed ;;
  cumulative_incr CumulativeStats.CountFailure "countFailure" ;;
  cumulative_incr CumulativeStats.CountFailureDeriv "countFailureDeriv" ;;
  push_requestTime runTime.

Definition success (runTime : Z) : M St unit :=
  incr Total ;;
  cumulative_incr CumulativeStats.CountTotal "countTotal" ;;
  cumulative_incr CumulativeStats.CountTotalDeriv "countTotalDeriv" ;;
  incr Successful ;;
  cumulative_incr CumulativeStats.CountSuccess "countSuccess" ;;
  cumulative_incr CumulativeStats.CountSuccessDeriv "countSuccessDeriv" ;;
  push_requestTime runTime.

Definition shortCircuit : M St unit :=
  incr ShortCircuited ;;
  cumulative_incr CumulativeStats.CountShortCircuited "countShortCircuited" ;;
  cumulative_incr CumulativeStats.CountShortCircuitedDeriv
    "countShortCircuitedDeriv".

Definition timeout (runTime : Z) : M St unit :=
  incr Total ;;
  cumulative_incr CumulativeStats.CountTotal "countTotal" ;;
  cumulative_incr CumulativeStats.CountTotalDeriv "countTotalDeriv" ;;
  incr TimedOut ;;
  cumulative_incr CumulativeStats.CountTimeout "countTimeout" ;;
  cumulative_incr CumulativeStats.CountTimeoutDeriv "countTimeoutDeriv" ;;
  push_requestTime runTime.

(** The four recording operations, as data. *)
Inductive op : Type :=
| Success (runTime : Z)
| Failure (runTime : Z)
| Timeout (runTime : Z)
| ShortCircuit.

Definition apply (o : op) : M St unit :=
  match o with
  | Success rt => success rt
  | Failure rt => failure rt
  | Timeout rt => timeout rt
  | ShortCircuit => shortCircuit
  end.

(** A sequence of calls, one statement after the other. *)
Fixpoint apply_all (os : list op) : M St unit :=
  match os with
  | [] => ret tt
  | o :: os' => apply o ;; apply_all os'
  end.

(** The invariants of the specification. *)
Definition invariant (b : t) : Prop :=
  total b = successful b + failed b + timedOut b /\
  Z.of_nat (List.length (requestTimes b)) = successful b + failed b + timedOut b.

(** A bucket whose counters are those of a history of outcomes. *)
Definition counted (b : t) : Prop :=
  invariant b /\
  0 <= successful b /\ 0 <= failed b /\ 0 <= timedOut b /\
  0 <= shortCircuited b.

(** The own properties of a bucket object: the five counters, the array
    of latencies and the reference to the lifetime counters. *)
Inductive property : Type :=
| Counter (f : field)
| TheRequestTimes
| TheCumulativeStats.

(** [Object(this).hasOwnProperty(field)], with the property found. *)
Definition own_property (name : string) : option property :=
  if String.eqb name "failed" then Some (Counter Failed)
  else if String.eqb name "successful" then Some (Counter Successful)
  else if String.eqb name "total" then Some (Counter Total)
  else if String.eqb name "shortCircuited" then Some (Counter ShortCircuited)
  else if String.eqb name "timedOut" then Some (Counter TimedOut)
  else if String.eqb name "requestTimes" then Some TheRequestTimes
  else if String.eqb name "cumulativeStats" then Some TheCumulativeStats
  else None.

(** [percent(field)]: the method reads the bucket and writes nothing.
    The quotient of an array is that of the number it converts to; the
    quotient of an object or of [undefined] is [NaN]. *)
Definition percent (field : string) (b : t) : Completion JsNumber :=
  match own_property field with
  | None => Throw (Error consts.INVALID_BUCKET_PROP)
  | Some p =>
      if total b =? 0 then Normal (Num 0)
      else
        match p with
        | Counter f => Normal (Num (inject_Z (get f b) / inject_Z (total b)))
        | TheRequestTimes =>
            match ToNumber_array (requestTimes b) with
            | Num q => Normal (Num (q / inject_Z (total b)))
            | NaN => Normal NaN
            end
        | TheCumulativeStats => Normal NaN
        end
  end.

End Bucket.

(* ================================================================= *)
(** ** Stats *)

Module Stats.

(** [Opts = typeof defaultOptions]; the constructor takes a
    [Partial<Opts>] and completes it with [Object.assign]. *)
Record Opts : Type := mkOpts {
  bucketSpan : Z;
  bucketNum : Z;
  percentiles : list Q;
  statInterval : Z
}.

Record PartialOpts : Type := mkPartial {
  opt_bucketSpan : option Z;
  opt_bucketNum : option Z;
  opt_percentiles : option (list Q);
  opt_statInterval : option Z
}.

Definition defaultOptions : Opts :=
  mkOpts 1000 60
    [0; 1 # 4; 1 # 2; 3 # 4; Double.literal (9 # 10);
     Double.literal (95 # 100); Double.literal (99 # 100);
     Double.literal (995 # 1000); 1]%Q
    1200.

Definition or_default {A} (o : option A) (d : A) : A :=
  match o with Some a => a | None => d end.

(** [Object.assign({}, defaultOptions, opts)] *)
Definition assign_options (opts : PartialOpts) : Opts :=
  mkOpts (or_default (opt_bucketSpan opts) (bucketSpan defaultOptions))
         (or_default (opt_bucketNum opts) (bucketNum defaultOptions))
         (or_default (opt_percentiles opts) (percentiles defaultOptions))
         (or_default (opt_statInterval opts) (statInterval defaultOptions)).

(** The private field [_activeBucket] is not a field of the record: it
    is assigned [this._buckets[this._activePosition]] after every change
    of [_buckets] (constructor, [reset], rotation), so it always is that
    element of the array, by reference.  The two intervals are [true]
    while scheduled. *)
Record t : Type := mk {
  _opts : Opts;
  _activePosition : Z;
  _cumulative : option Ref;
  _buckets : list Bucket.t;
  _totals : TotalStats.t;
  _spinningInterval : bool;
  _snapshotInterval : bool
}.

Definition set_buckets (bs : list Bucket.t) (s : t) : t :=
  mk (_opts s) (_activePosition s) (_cumulative s) bs (_totals s)
     (_spinningInterval s) (_snapshotInterval s).

Definition set_totals (tt : TotalStats.t) (s : t) : t :=
  mk (_opts s) (_activePosition s) (_cumulative s) (_buckets s) tt
     (_spinningInterval s) (_snapshotInterval s).

Definition set_spinningInterval (v : bool) (s : t) : t :=
  mk (_opts s) (_activePosition s) (_cumulative s) (_buckets s) (_totals s)
     v (_snapshotInterval s).

Definition set_snapshotInterval (v : bool) (s : t) : t :=
  mk (_opts s) (_activePosition s) (_cumulative s) (_buckets s) (_totals s)
     (_spinningInterval s) v.

Definition _activeBucket (s : t) : option Bucket.t :=
  js_index (_buckets s) (_activePosition s).

(** A method of a [Stats] runs on the heap and the object. *)
Definition St : Type := Heap * t.

(** The samples of a window, bucket after bucket. *)
Definition window_samples (buckets : list Bucket.t) : list Z :=
  List.concat (map Bucket.requestTimes buckets).

(** *** Aggregation *)

(** The initial value of the [reduce]. *)
Definition initial_totals : TotalStats.t :=
  TotalStats.mk 0 0 0 0 0 0 (Some []) []
    None None None None None None None None None None.

(** The callback of the [reduce] ([cur] is never a hole here, and
    [n || 0] is [n] on a number). *)
Definition accumulate (includeLatencyStats : bool)
  (prev : TotalStats.t) (cur : Bucket.t) : TotalStats.t :=
  TotalStats.mk
    (TotalStats.failed prev + Bucket.failed cur)
    (TotalStats.timedOut prev + Bucket.timedOut cur)
    (TotalStats.total prev + Bucket.total cur)
    (TotalStats.shortCircuited prev + Bucket.shortCircuited cur)
    (TotalStats.latencyMean prev)
    (TotalStats.successful prev + Bucket.successful cur)
    (if includeLatencyStats
     then option_map (fun rt => rt ++ Bucket.requestTimes cur)
            (TotalStats.requestTimes prev)
     else TotalStats.requestTimes prev)
    (TotalStats.percentiles prev)
    (TotalStats.countTotal prev) (TotalStats.countSuccess prev)
    (TotalStats.countFailure prev) (TotalStats.countTimeout prev)
    (TotalStats.countShortCircuited prev)
    (TotalStats.countTotalDeriv prev) (TotalStats.countSuccessDeriv prev)
    (TotalStats.countFailureDeriv prev) (TotalStats.countTimeoutDeriv prev)
    (TotalStats.countShortCircuitedDeriv prev).

(** [array.sort((a, b) => a - b)]: the ascending arrangement of the
    samples, here by insertion. *)
Fixpoint insert (x : Z) (l : list Z) : list Z :=
  match l with
  | [] => [x]
  | y :: l' => if x <=? y then x :: l else y :: insert x l'
  end.

Definition sort (l : list Z) : list Z := fold_right insert [] l.

(** [Math.round(q)]: the nearest integer, halves upwards. *)
Definition Math_round (q : Q) : Z := Qfloor (q + (1 # 2)).

(** [None] is [undefined].  The level is the value of a double;
    [array.length] is an integer below 2^32, a double as it is. *)
Definition _calculatePercentile (percentile : Q) (array : list Z)
  : option Z :=
  if Qeq_bool percentile 0 then js_index array 0
  else
    let idx :=
      Double.Math_ceil
        (Double.mul (Double.Finite percentile)
           (Double.of_Z (Z.of_nat (List.length array)))) in
    Double.index array (Double.sub idx (Double.of_Z 1)).

(** [None] is [NaN]: [0 / 0] on the empty array. *)
Definition _calculateMean (array : list Z) : option Z :=
  let sum := fold_left Z.add array 0 in
  match array with
  | [] => None
  | _ :: _ =>
      Some (Math_round
              (inject_Z sum / inject_Z (Z.of_nat (List.length array))))
  end.

Definition with_latency (mean : Z) (ps : Percentiles) (s : TotalStats.t)
  : TotalStats.t :=
  TotalStats.mk (TotalStats.failed s) (TotalStats.timedOut s)
    (TotalStats.total s) (TotalStats.shortCircuited s) mean
    (TotalStats.successful s) (TotalStats.requestTimes s) ps
    (TotalStats.countTotal s) (TotalStats.countSuccess s)
    (TotalStats.countFailure s) (TotalStats.countTimeout s)
    (TotalStats.countShortCircuited s)
    (TotalStats.countTotalDeriv s) (TotalStats.countSuccessDeriv s)
    (TotalStats.countFailureDeriv s) (TotalStats.countTimeoutDeriv s)
    (TotalStats.countShortCircuitedDeriv s).

(** [requestTimes.sort(...)] in place. *)
Definition sort_requestTimes (s : TotalStats.t) : TotalStats.t :=
  TotalStats.mk (TotalStats.failed s) (TotalStats.timedOut s)
    (TotalStats.total s) (TotalStats.shortCircuited s)
    (TotalStats.latencyMean s) (TotalStats.successful s)
    (option_map sort (TotalStats.requestTimes s))
    (TotalStats.percentiles s)
    (TotalStats.countTotal s) (TotalStats.countSuccess s)
    (TotalStats.countFailure s) (TotalStats.countTimeout s)
    (TotalStats.countShortCircuited s)
    (TotalStats.countTotalDeriv s) (TotalStats.countSuccessDeriv s)
    (TotalStats.countFailureDeriv s) (TotalStats.countTimeoutDeriv s)
    (TotalStats.countShortCircuitedDeriv s).

(** [delete tempTotals.requestTimes] *)
Definition delete_requestTimes (s : TotalStats.t) : TotalStats.t :=
  TotalStats.mk (TotalStats.failed s) (TotalStats.timedOut s)
    (TotalStats.total s) (TotalStats.shortCircuited s)
    (TotalStats.latencyMean s) (TotalStats.successful s)
    None (TotalStats.percentiles s)
    (TotalStats.countTotal s) (TotalStats.countSuccess s)
    (TotalStats.countFailure s) (TotalStats.countTimeout s)
    (TotalStats.countShortCircuited s)
    (TotalStats.countTotalDeriv s) (TotalStats.countSuccessDeriv s)
    (TotalStats.countFailureDeriv s) (TotalStats.countTimeoutDeriv s)
    (TotalStats.countShortCircuitedDeriv s).

(** [Object.assign(target, source)]: every own property of the source
    object is copied onto the target; a source that is [undefined] is
    skipped. *)
Definition Object_assign (target : TotalStats.t)
  (source : option CumulativeStats.t) : TotalStats.t :=
  match source with
  | None => target
  | Some c =>
      TotalStats.mk (TotalStats.failed target) (TotalStats.timedOut target)
        (TotalStats.total target) (TotalStats.shortCircuited target)
        (TotalStats.latencyMean target) (TotalStats.successful target)
        (TotalStats.requestTimes target) (TotalStats.percentiles target)
        (Some (CumulativeStats.countTotal c))
        (Some (CumulativeStats.countSuccess c))
        (Some (CumulativeStats.countFailure c))
        (Some (CumulativeStats.countTimeout c))
        (Some (CumulativeStats.countShortCircuited c))
        (Some (CumulativeStats.countTotalDeriv c))
        (Some (CumulativeStats.countSuccessDeriv c))
        (Some (CumulativeStats.countFailureDeriv c))
        (Some (CumulativeStats.countTimeoutDeriv c))
        (Some (CumulativeStats.countShortCircuitedDeriv c))
  end.

(** The samples of the accumulator ([[]] once deleted; never read then). *)
Definition samples (s : TotalStats.t) : list Z :=
  match TotalStats.requestTimes s with Some l => l | None => [] end.

(** The [forEach] over the configured percentiles. *)
Definition fill_percentiles (ps : list Q) (array : list Z)
  (o : Percentiles) : Percentiles :=
  fold_left
    (fun o p => percentiles_set p (or_zero (_calculatePercentile p array)) o)
    ps o.

Definition _generateStats (buckets : list Bucket.t)
  (includeLatencyStats : bool) : M St TotalStats.t :=
  fun '(h, s) =>
    let tempTotals :=
      fold_left (accumulate includeLatencyStats) buckets initial_totals in
    let tempTotals :=
      if includeLatencyStats then
        let tempTotals := sort_requestTimes tempTotals in
        with_latency
          (or_zero (_calculateMean (samples tempTotals)))
          (fill_percentiles (percentiles (_opts s)) (samples tempTotals)
             (TotalStats.percentiles tempTotals))
          tempTotals
      else
        with_latency (TotalStats.latencyMean (_totals s))
          (TotalStats.percentiles (_totals s)) tempTotals in
    let tempTotals := delete_requestTimes tempTotals in
    let totals := Object_assign tempTotals (option_map h (_cumulative s)) in
    ((h, set_totals totals s), Normal totals).

(** [this._cumulative.f = 0] *)
Definition cumulative_assign (f : CumulativeStats.field) (prop : string)
  (v : Z) : M St unit :=
  fun '(h, s) =>
    match _cumulative s with
    | None => ((h, s), Throw (TypeError prop))
    | Some r => ((heap_update r (CumulativeStats.set f v) h, s), Normal tt)
    end.

Definition _resetDerivs : M St unit :=
  cumulative_assign CumulativeStats.CountTotalDeriv "countTotalDeriv" 0 ;;
  cumulative_assign CumulativeStats.CountSuccessDeriv "countSuccessDeriv" 0 ;;
  cumulative_assign CumulativeStats.CountFailureDeriv "countFailureDeriv" 0 ;;
  cumulative_assign CumulativeStats.CountTimeoutDeriv "countTimeoutDeriv" 0 ;;
  cumulative_assign CumulativeStats.CountShortCircuitedDeriv
    "countShortCircuitedDeriv" 0.

(** [arr.push(item); arr.shift()] *)
Definition _shiftAndPush {A} (arr : list A) (item : A) : list A :=
  tl (arr ++ [item]).

(** The body of the rotation interval. *)
Definition spin : M St unit :=
  modify (fun '(h, s) =>
    (h, set_buckets
          (_shiftAndPush (_buckets s) (Bucket.new (_cumulative s))) s)).

Fixpoint repeat_spin (n : nat) : M St unit :=
  match n with
  | O => ret tt
  | S n' => spin ;; repeat_spin n'
  end.

Definition _startBucketSpinning : M St unit :=
  modify (fun '(h, s) => (h, set_spinningInterval true s)).

Definition _stopBucketSpinning : M St bool :=
  fun '(h, s) =>
    if _spinningInterval s
    then ((h, set_spinningInterval false s), Normal true)
    else ((h, s), Normal false).

Definition stopSnapshots : M St bool :=
  fun '(h, s) =>
    if _snapshotInterval s
    then ((h, set_snapshotInterval false s), Normal true)
    else ((h, s), Normal false).

(** [this._generateStats(this._buckets, includeLatencyStats)] *)
Definition generate_own (includeLatencyStats : bool) : M St TotalStats.t :=
  fun '(h, s) => _generateStats (_buckets s) includeLatencyStats (h, s).

(** [new Stats(opts)].  No statement of the constructor, and none of the
    class, assigns [_cumulative]: the field is [undefined], and so is the
    argument of every [new Bucket(this._cumulative)].  [_totals] is
    assigned last, by a call that does not read it. *)
Definition new (opts : PartialOpts) (h : Heap) : St :=
  let _opts := assign_options opts in
  let _cumulative : option Ref := None in
  let _buckets :=
    repeat (Bucket.new _cumulative) (Z.to_nat (bucketNum _opts)) in
  let s := mk _opts (bucketNum _opts - 1) _cumulative _buckets
              initial_totals false false in
  exec_state (_startBucketSpinning ;; generate_own true) (h, s).

(** A call on [this._activeBucket], the element of [_buckets] at
    [_activePosition]. *)
Definition on_activeBucket {A} (method : string) (m : M Bucket.St A)
  : M St A :=
  fun '(h, s) =>
    match _activeBucket s with
    | None => ((h, s), Throw (TypeError method))
    | Some b =>
        let '((h', b'), r) := m (h, b) in
        ((h', set_buckets
                (firstn (Z.to_nat (_activePosition s)) (_buckets s)
                 ++ b' :: skipn (S (Z.to_nat (_activePosition s)))
                            (_buckets s)) s),
         r)
    end.

(** *** The methods that emit

    They run in the state [W] of whatever owns the [Stats]; [emit name d]
    is [this.emit(name, d)], which calls the listeners attached to this
    [Stats] one after the other. *)
Section Emitter.

Context {W : Type}.
Variable view : W -> St.
Variable update : St -> W -> W.
Variable emit : string -> TotalStats.t -> M W unit.

Definition _update : M W unit :=
  d <- zoom view update (generate_own false) ;;
  emit "update" d.

Definition reset : M W unit :=
  n <- gets (fun w => Z.to_nat (bucketNum (_opts (snd (view w))))) ;;
  zoom view update (repeat_spin n) ;;
  _update.

Definition _snapshot : M W unit :=
  d <- zoom view update (generate_own true) ;;
  emit "snapshot" d ;;
  zoom view update _resetDerivs.

(** [startSnapshots()] schedules the interval whose body is [_snapshot]. *)
Definition startSnapshots : M W unit :=
  zoom view update (modify (fun '(h, s) => (h, set_snapshotInterval true s))).

Definition failure (runTime : Z) : M W unit :=
  zoom view update (on_activeBucket "failure" (Bucket.failure runTime)) ;;
  _update.

Definition success (runTime : Z) : M W unit :=
  zoom view update (on_activeBucket "success" (Bucket.success runTime)) ;;
  _update.

Definition shortCircuit : M W unit :=
  zoom view update (on_activeBucket "shortCircuit" Bucket.shortCircuit) ;;
  _update.

Definition timeout (runTime : Z) : M W unit :=
  zoom view update (on_activeBucket "timeout" (Bucket.timeout runTime)) ;;
  _update.

End Emitter.

End Stats.

(* ================================================================= *)
(** ** EventEmitter: the listeners of a breaker *)

Module EventEmitter.

(** The functions that the modelled code attaches to a breaker: the
    three arrow functions of [Brakes._attachListeners], and the results of
    [this._globalListener.bind(this)] in [GlobalStats].  Every evaluation
    of [bind] makes a new function object; [fn] is its identity. *)
Inductive Listener : Type :=
| SuccessListener
| TimeoutListener
| FailureListener
| BoundGlobalListener (fn : nat).

(** [a === b] on function objects. *)
Definition same_function (a b : Listener) : bool :=
  match a, b with
  | SuccessListener, SuccessListener => true
  | TimeoutListener, TimeoutListener => true
  | FailureListener, FailureListener => true
  | BoundGlobalListener f, BoundGlobalListener g => Nat.eqb f g
  | _, _ => false
  end.

(** [_events]: the registrations, oldest first. *)
Definition t : Type := list (string * Listener).

Definition on (event : string) (l : Listener) (e : t) : t :=
  e ++ [(event, l)].

Definition listeners (event : string) (e : t) : list Listener :=
  map snd (filter (fun p => String.eqb (fst p) event) e).

Fixpoint remove_first (event : string) (l : Listener) (e : t) : t :=
  match e with
  | [] => []
  | (n, l') :: e' =>
      if String.eqb n event && same_function l' l then e'
      else (n, l') :: remove_first event l e'
  end.

(** Removes the most recently added registration of [l], if any. *)
Definition removeListener (event : string) (l : Listener) (e : t) : t :=
  rev (remove_first event l (rev e)).

Definition removeAllListeners (event : string) (e : t) : t :=
  filter (fun p => negb (String.eqb (fst p) event)) e.

(** [Object.keys(this._events)] *)
Definition eventNames (e : t) : list string :=
  nodup string_dec (map fst e).

End EventEmitter.

(* ================================================================= *)
(** ** The snapshot envelope ([RawStats], utils) *)

Module RawStats.

Record t : Type := mk {
  name : string;
  group : string;
  time : Z;
  open : bool;
  circuitDuration : Z;
  threshold : Q;
  waitThreshold : Z;
  stats : TotalStats.t
}.

End RawStats.

(* ================================================================= *)
(** ** utils: the Hystrix form of a snapshot *)

Module utils.

(** The values of the object that [mapToHystrixJson] builds. *)
#[warnings="-register-all"] Inductive Json : Type :=
| JNumber (x : Double.t)
| JString (s : string)
| JBool (b : bool)
| JNull
| JUndefined
| JObject (props : list (string * Json)).

Definition number (z : Z) : Json := JNumber (Double.of_Z z).

(** A property read on an object that may lack it. *)
Definition read (o : option Z) : Json :=
  match o with Some z => number z | None => JUndefined end.

(** [o[key]] *)
Fixpoint lookup (key : string) (props : list (string * Json)) : Json :=
  match props with
  | [] => JUndefined
  | (k, v) :: props' => if String.eqb k key then v else lookup key props'
  end.

Definition get (key : string) (j : Json) : Json :=
  match j with
  | JObject props => lookup key props
  | _ => JUndefined
  end.

(** The object literal of [latencyExecute] and of [latencyTotal]: the
    percentile found under the key ['0.25'] is the one stored for the
    level 0.25.  The properties are listed as the engine enumerates them,
    the integer keys first. *)
Definition latency (ps : Percentiles) : Json :=
  JObject
    [("0", read (percentiles_get 0 ps));
     ("25", read (percentiles_get (1 # 4) ps));
     ("50", read (percentiles_get (1 # 2) ps));
     ("75", read (percentiles_get (3 # 4) ps));
     ("90", read (percentiles_get (Double.literal (9 # 10)) ps));
     ("95", read (percentiles_get (Double.literal (95 # 100)) ps));
     ("99", read (percentiles_get (Double.literal (99 # 100)) ps));
     ("100", read (percentiles_get 1 ps));
     ("99.5", read (percentiles_get (Double.literal (995 # 1000)) ps))]%string.

(** [stats.total ? Math.round((1 - stats.successful / stats.total) * 100) : 0] *)
Definition errorPercentage (stats : TotalStats.t) : Double.t :=
  if TotalStats.total stats =? 0 then Double.of_Z 0
  else
    Double.Math_round
      (Double.mul
         (Double.sub (Double.of_Z 1)
            (Double.div (Double.of_Z (TotalStats.successful stats))
               (Double.of_Z (TotalStats.total stats))))
         (Double.of_Z 100)).

Definition mapToHystrixJson (rawStats : RawStats.t) : Json :=
  let stats := RawStats.stats rawStats in
  JObject
    [("type", JString "HystrixCommand");
     ("name", JString (RawStats.name rawStats));
     ("group", JString (RawStats.group rawStats));
     ("currentTime", number (RawStats.time rawStats));
     ("isCircuitBreakerOpen", JBool (RawStats.open rawStats));
     ("errorPercentage", JNumber (errorPercentage stats));
     ("errorCount", number (TotalStats.failed stats));
     ("requestCount", number (TotalStats.total stats));
     ("rollingCountBadRequests", number 0);
     ("rollingCountCollapsedRequests", number 0);
     ("rollingCountExceptionsThrown", number 0);
     ("rollingCountFailure", number (TotalStats.failed stats));
     ("rollingCountFallbackFailure", number 0);
     ("rollingCountFallbackRejection", number 0);
     ("rollingCountFallbackSuccess", number 0);
     ("rollingCountResponsesFromCache", number 0);
     ("rollingCountSemaphoreRejected", number 0);
     ("rollingCountShortCircuited", number (TotalStats.shortCircuited stats));
     ("rollingCountSuccess", number (TotalStats.successful stats));
     ("rollingCountThreadPoolRejected", number 0);
     ("rollingCountTimeout", number (TotalStats.timedOut stats));
     ("currentConcurrentExecutionCount", number 0);
     ("latencyExecute_mean", number (TotalStats.latencyMean stats));
     ("latencyExecute", latency (TotalStats.percentiles stats));
     ("latencyTotal_mean", number 15);
     ("latencyTotal", latency (TotalStats.percentiles stats));
     ("propertyValue_circuitBreakerRequestVolumeThreshold",
      number (RawStats.waitThreshold rawStats));
     ("propertyValue_circuitBreakerSleepWindowInMilliseconds",
      number (RawStats.circuitDuration rawStats));
     ("propertyValue_circuitBreakerErrorThresholdPercentage",
      JNumber (Double.Finite (RawStats.threshold rawStats)));
     ("propertyValue_circuitBreakerForceOpen", JBool false);
     ("propertyValue_circuitBreakerForceClosed", JBool false);
     ("propertyValue_circuitBreakerEnabled", JBool true);
     ("propertyValue_executionIsolationStrategy", JString "THREAD");
     ("propertyValue_executionIsolationThreadTimeoutInMilliseconds",
      number 800);
     ("propertyValue_executionIsolationThreadInterruptOnTimeout", JBool true);
     ("propertyValue_executionIsolationThreadPoolKeyOverride", JNull);
     ("propertyValue_executionIsolationSemaphoreMaxConcurrentRequests",
      number 20);
     ("propertyValue_fallbackIsolationSemaphoreMaxConcurrentRequests",
      number 10);
     ("propertyValue_metricsRollingStatisticalWindowInMilliseconds",
      number 10000);
     ("propertyValue_requestCacheEnabled", JBool false);
     ("propertyValue_requestLogEnabled", JBool false);
     ("reportingHosts", number 1);
     ("countTotal", read (TotalStats.countTotal stats));
     ("countSuccess", read (TotalStats.countSuccess stats));
     ("countFailure", read (TotalStats.countFailure stats));
     ("countTimeout", read (TotalStats.countTimeout stats));
     ("countShortCircuited", read (TotalStats.countShortCircuited stats));
     ("countTotalDeriv", read (TotalStats.countTotalDeriv stats));
     ("countSuccessDeriv", read (TotalStats.countSuccessDeriv stats));
     ("countFailureDeriv", read (TotalStats.countFailureDeriv stats));
     ("countTimeoutDeriv", read (TotalStats.countTimeoutDeriv stats));
     ("countShortCircuitedDeriv",
      read (TotalStats.countShortCircuitedDeriv stats))]%string.

End utils.

(* ================================================================= *)
(** ** GlobalStats *)

Module GlobalStats.

(** Breakers are compared by reference: the list holds object
    identities.  The raw stream is the sequence of chunks pushed onto it
    (a chunk is the [JSON.stringify] of an envelope, kept as the envelope)
    and its paused flag.  The constructor pipes the raw stream into the
    Hystrix stream, a [Transform] with [highWaterMark: 0]: every chunk
    that flows fills it, its [write] returns [false], and the pipe pauses
    the raw stream until the [Transform] drains, on a later turn of the
    event loop. *)
Record t : Type := mk {
  _brakesInstances : list nat;
  _rawStream_isPaused : bool;
  _rawStream : list RawStats.t
}.

(** [new GlobalStats()]: the stream is resumed by the constructor. *)
Definition new : t := mk [] false [].

Definition instanceCount (g : t) : Z :=
  Z.of_nat (List.length (_brakesInstances g)).

(** [arr.indexOf(x)] *)
Fixpoint indexOf (x : nat) (arr : list nat) : Z :=
  match arr with
  | [] => -1
  | y :: arr' =>
      if Nat.eqb y x then 0
      else let i := indexOf x arr' in if i <? 0 then -1 else i + 1
  end.

(** [arr.splice(idx, 1)] for [idx > -1] *)
Definition splice1 (idx : Z) (arr : list nat) : list nat :=
  firstn (Z.to_nat idx) arr ++ skipn (S (Z.to_nat idx)) arr.

(** [register] and [deregister] work on the registry, on the function
    objects allocated so far, and on the emitter of [instance]. *)
Definition St : Type := t * nat * EventEmitter.t.

(** [this._globalListener.bind(this)] *)
Definition bind_globalListener : M St EventEmitter.Listener :=
  fun '(g, functions, ev) =>
    ((g, S functions, ev), Normal (EventEmitter.BoundGlobalListener functions)).

Definition register (instance : nat) : M St unit :=
  modify (fun '(g, fns, ev) =>
    (mk (_brakesInstances g ++ [instance]) (_rawStream_isPaused g)
        (_rawStream g), fns, ev)) ;;
  l <- bind_globalListener ;;
  modify (fun '(g, fns, ev) => (g, fns, EventEmitter.on "snapshot" l ev)).

Definition deregister (instance : nat) : M St unit :=
  idx <- gets (fun '(g, _, _) => indexOf instance (_brakesInstances g)) ;;
  (if idx >? -1
   then modify (fun '(g, fns, ev) =>
          (mk (splice1 idx (_brakesInstances g)) (_rawStream_isPaused g)
              (_rawStream g), fns, ev))
   else ret tt) ;;
  l <- bind_globalListener ;;
  modify (fun '(g, fns, ev) =>
    (g, fns, EventEmitter.removeListener "snapshot" l ev)).

(** The argument emitted with [snapshot] is the envelope, an object: the
    first guard of the source never returns.  The chunk pushed flows to
    the [Transform] at once and leaves the raw stream paused. *)
Definition _globalListener (stats : RawStats.t) : M t unit :=
  modify (fun g =>
    if _rawStream_isPaused g then g
    else mk (_brakesInstances g) true (_rawStream g ++ [stats])).

(** The [drain] of the [Transform]: the pipe lets the raw stream flow
    again. *)
Definition drained : M t unit :=
  modify (fun g => mk (_brakesInstances g) false (_rawStream g)).

End GlobalStats.

(* ================================================================= *)
(** ** Circuit: the object *)

(** User callables (service call, fallback, health check) are opaque:
    they are named, never run.  [promisifyIfFunction] gives back a
    callable for the same user function. *)
Definition Fn := nat.

Inductive JsValue : Type :=
| Undefined
| Number (n : Z)
| Str (s : string).

Module Circuit.

Record t : Type := mk {
  _serviceCall : Fn;
  _fallback : option Fn;
  isFailure : JsError -> bool
}.

(** [defaultOptions.isFailure] *)
Definition default_isFailure : JsError -> bool := fun _ => true.

(** [this._fallback = promisifyIfFunction(func, ...); return this._fallback] *)
Definition fallback (func : Fn) (c : t) : t * Fn :=
  (mk (_serviceCall c) (Some func) (isFailure c), func).

(** [new Circuit(brakes, main, fallback, options)], for a callable [main]
    and a callable or absent [fallback]; of the options, the classifier. *)
Definition new (main : Fn) (fallback_ : option Fn)
  (options_isFailure : option (JsError -> bool)) : t :=
  let c := mk main None
             (match options_isFailure with
              | Some f => f
              | None => default_isFailure
              end) in
  match fallback_ with
  | Some f => fst (fallback f c)
  | None => c
  end.

(** An argument as a caller may pass it in the place of a function:
    nothing, a function, or an object (of options). *)
Inductive Arg (O : Type) : Type :=
| Absent
| Callable (f : Fn)
| AnObject (o : O).
Arguments Absent {O}.
Arguments Callable {O} f.
Arguments AnObject {O} o.

(** An options object, as far as a circuit reads it: its [isFailure]
    property, if it has one. *)
Definition Options : Type := option (JsError -> bool).

(** The constructor with its checks: [brakes_is_emitter] is
    [brakes instanceof EventEmitter]. *)
Definition construct (brakes_is_emitter : bool) (main : Arg Options)
  (fallback_ : Arg Options) (options : option Options) : Completion t :=
  if negb brakes_is_emitter then Throw (Error consts.NO_BRAKES)
  else
    match main with
    | Callable m =>
        match fallback_ with
        | Absent =>
            Normal (new m None
                      (match options with Some o => o | None => None end))
        | Callable f =>
            Normal (new m (Some f)
                      (match options with Some o => o | None => None end))
        | AnObject o =>
            match options with
            | Some _ => Throw (Error consts.NO_FUNCTION)
            | None => Normal (new m None o)
            end
        end
    | Absent | AnObject _ => Throw (Error consts.NO_FUNCTION)
    end.

End Circuit.

(* ================================================================= *)
(** ** Brakes *)

Module Brakes.

(** The options a caller passes (every one optional), and the result of
    [Object.assign({}, defaultOptions, opts)].  The hints [isPromise] and
    [isFunction] only select the adapter of user callables and are left
    out. *)
Record UserOptions : Type := mkUser {
  opt_name : option string;
  opt_group : option string;
  opt_bucketSpan : option Z;
  opt_statInterval : option Z;
  opt_percentiles : option (list Q);
  opt_bucketNum : option Z;
  opt_circuitDuration : option Z;
  opt_waitThreshold : option Z;
  opt_threshold : option Q;
  opt_timeout : option Z;
  opt_isFailure : option (JsError -> bool);
  opt_healthCheckInterval : option Z;
  opt_modifyError : option bool;
  opt_registerGlobal : option bool;
  opt_healthCheck : option Fn;
  opt_fallback : option Fn
}.

Definition no_options : UserOptions :=
  mkUser None None None None None None None None None None None None None
    None None None.

Record ConfigurationOptions : Type := mkOpts {
  opts_name : string;
  opts_group : string;
  circuitDuration : Z;
  waitThreshold : Z;
  threshold : Q;
  timeout : Z;
  healthCheckInterval : Z;
  registerGlobal : bool;
  modifyError : bool;
  opts_healthCheck : option Fn;
  opts_fallback : option Fn
}.

Definition defaultOptions : ConfigurationOptions :=
  mkOpts "defaultBrake" "defaultBrakeGroup" 30000 100 (1 # 2) 15000 5000
    true true None None.

Definition assign_options (o : UserOptions) : ConfigurationOptions :=
  let d := defaultOptions in
  let pick {A} (x : option A) (y : A) := Stats.or_default x y in
  mkOpts (pick (opt_name o) (opts_name d))
         (pick (opt_group o) (opts_group d))
         (pick (opt_circuitDuration o) (circuitDuration d))
         (pick (opt_waitThreshold o) (waitThreshold d))
         (pick (opt_threshold o) (threshold d))
         (pick (opt_timeout o) (timeout d))
         (pick (opt_healthCheckInterval o) (healthCheckInterval d))
         (pick (opt_registerGlobal o) (registerGlobal d))
         (pick (opt_modifyError o) (modifyError d))
         (match opt_healthCheck o with
          | Some f => Some f
          | None => opts_healthCheck d
          end)
         (match opt_fallback o with
          | Some f => Some f
          | None => opts_fallback d
          end).

(** The part of the options that [new Stats(opts)] reads. *)
Definition stats_options (o : UserOptions) : Stats.PartialOpts :=
  Stats.mkPartial (opt_bucketSpan o) (opt_bucketNum o) (opt_percentiles o)
    (opt_statInterval o).

(** [id] is the identity of the object.  [_healthInterval] is [true]
    while the interval is scheduled; [cooldowns] counts the pending
    timeouts of [_resetCircuitTimeout]. *)
Record t : Type := mk {
  id : nat;
  _circuitOpen : bool;
  _opts : ConfigurationOptions;
  _stats : Stats.t;
  _circuitGeneration : Z;
  _fallback : option Fn;
  _healthCheck : option Fn;
  _healthInterval : bool;
  _masterCircuit : option Circuit.t;
  name : string;
  group : string;
  _events : EventEmitter.t;
  cooldowns : nat
}.

Definition set_circuitOpen (v : bool) (b : t) : t :=
  mk (id b) v (_opts b) (_stats b) (_circuitGeneration b) (_fallback b)
     (_healthCheck b) (_healthInterval b) (_masterCircuit b) (name b)
     (group b) (_events b) (cooldowns b).

Definition set_stats (v : Stats.t) (b : t) : t :=
  mk (id b) (_circuitOpen b) (_opts b) v (_circuitGeneration b) (_fallback b)
     (_healthCheck b) (_healthInterval b) (_masterCircuit b) (name b)
     (group b) (_events b) (cooldowns b).

Definition set_circuitGeneration (v : Z) (b : t) : t :=
  mk (id b) (_circuitOpen b) (_opts b) (_stats b) v (_fallback b)
     (_healthCheck b) (_healthInterval b) (_masterCircuit b) (name b)
     (group b) (_events b) (cooldowns b).

Definition set_fallback (v : option Fn) (b : t) : t :=
  mk (id b) (_circuitOpen b) (_opts b) (_stats b) (_circuitGeneration b) v
     (_healthCheck b) (_healthInterval b) (_masterCircuit b) (name b)
     (group b) (_events b) (cooldowns b).

Definition set_healthCheck (v : option Fn) (b : t) : t :=
  mk (id b) (_circuitOpen b) (_opts b) (_stats b) (_circuitGeneration b)
     (_fallback b) v (_healthInterval b) (_masterCircuit b) (name b)
     (group b) (_events b) (cooldowns b).

Definition set_healthInterval (v : bool) (b : t) : t :=
  mk (id b) (_circuitOpen b) (_opts b) (_stats b) (_circuitGeneration b)
     (_fallback b) (_healthCheck b) v (_masterCircuit b) (name b)
     (group b) (_events b) (cooldowns b).

Definition set_masterCircuit (v : option Circuit.t) (b : t) : t :=
  mk (id b) (_circuitOpen b) (_opts b) (_stats b) (_circuitGeneration b)
     (_fallback b) (_healthCheck b) (_healthInterval b) v (name b)
     (group b) (_events b) (cooldowns b).

Definition set_events (v : EventEmitter.t) (b : t) : t :=
  mk (id b) (_circuitOpen b) (_opts b) (_stats b) (_circuitGeneration b)
     (_fallback b) (_healthCheck b) (_healthInterval b) (_masterCircuit b)
     (name b) (group b) v (cooldowns b).

Definition set_cooldowns (v : nat) (b : t) : t :=
  mk (id b) (_circuitOpen b) (_opts b) (_stats b) (_circuitGeneration b)
     (_fallback b) (_healthCheck b) (_healthInterval b) (_masterCircuit b)
     (name b) (group b) (_events b) v.

(** What a breaker and its [Stats] emit, in the order of emission. *)
Inductive Event : Type :=
| Exec
| Success (ms : Z)
| Timeout (ms : Z) (err : JsError) (execGeneration : Z)
| Failure (ms : Z) (err : JsError) (execGeneration : Z)
| CircuitOpen
| CircuitClosed
| HealthCheckFailed (err : JsError)
| Snapshot (envelope : RawStats.t)
| StatsUpdate (d : TotalStats.t)
| StatsSnapshot (d : TotalStats.t).

(** The process around one breaker: the heap of counters, the global
    registry [instance], the function objects allocated so far, the
    clock read by [Date.now()], the breaker, and the events emitted. *)
Record World : Type := mkWorld {
  heap : Heap;
  instance : GlobalStats.t;
  functions : nat;
  clock : Z;
  brakes : t;
  emitted : list Event
}.

Definition set_brakes (b : t) (w : World) : World :=
  mkWorld (heap w) (instance w) (functions w) (clock w) b (emitted w).

Definition set_instance (g : GlobalStats.t) (w : World) : World :=
  mkWorld (heap w) g (functions w) (clock w) (brakes w) (emitted w).

Definition this {A} (m : M t A) : M World A := zoom brakes set_brakes m.

(** The emitter records the event, then calls the listeners. *)
Definition record_event (e : Event) : M World unit :=
  modify (fun w =>
    mkWorld (heap w) (instance w) (functions w) (clock w) (brakes w)
      (emitted w ++ [e])).

(** [this.emit(name)] for the events on which the modelled code attaches
    no listener. *)
Definition emit (e : Event) : M World unit := record_event e.

Fixpoint for_each {A} (f : A -> M World unit) (l : list A) : M World unit :=
  match l with
  | [] => ret tt
  | x :: l' => f x ;; for_each f l'
  end.

Definition _close : M World unit :=
  this (modify (set_circuitOpen false)) ;;
  emit CircuitClosed.

(** Schedules the interval of the health probe. *)
Definition _setHealthInterval : M World unit :=
  this (modify (fun b =>
    if _healthInterval b then b else set_healthInterval true b)).

(** Schedules the timeout that resets the statistics and closes. *)
Definition _resetCircuitTimeout : M World unit :=
  this (modify (fun b => set_cooldowns (S (cooldowns b)) b)).

Definition _open : M World unit :=
  b <- gets brakes ;;
  if _circuitOpen b then ret tt
  else
    emit CircuitOpen ;;
    this (modify (set_circuitOpen true)) ;;
    this (modify (fun b => set_circuitGeneration (_circuitGeneration b + 1) b)) ;;
    match _healthCheck b with
    | Some _ => _setHealthInterval
    | None => _resetCircuitTimeout
    end.

(** [a / b < c] on numbers: [a / 0] is [NaN] or infinite, and then the
    comparison is false for the finite [c] and the [a >= 0] at hand. *)
Definition ratio_below (a b : Z) (c : Q) : bool :=
  if b =? 0 then false
  else negb (Qle_bool c (inject_Z a / inject_Z b)).

Definition _checkStats (stats : TotalStats.t) : M World unit :=
  b <- gets brakes ;;
  let pastThreshold := TotalStats.total stats >? waitThreshold (_opts b) in
  if negb pastThreshold || (TotalStats.total stats =? 0) || _circuitOpen b
  then ret tt
  else if ratio_below (TotalStats.successful stats) (TotalStats.total stats)
            (threshold (_opts b))
  then _open
  else ret tt.

Definition isOpen (b : t) : bool := _circuitOpen b.

(** [this.emit('snapshot', envelope)]: of the modelled listeners only the
    bound global listeners are attached to this event. *)
Definition emit_snapshot (envelope : RawStats.t) : M World unit :=
  record_event (Snapshot envelope) ;;
  ls <- gets (fun w => EventEmitter.listeners "snapshot" (_events (brakes w))) ;;
  for_each
    (fun l =>
       match l with
       | EventEmitter.BoundGlobalListener _ =>
           zoom instance set_instance (GlobalStats._globalListener envelope)
       | _ => ret tt
       end)
    ls.

Definition _snapshotHandler (stats : TotalStats.t) : M World unit :=
  w <- gets (fun w => w) ;;
  let b := brakes w in
  emit_snapshot
    (RawStats.mk (name b) (group b) (clock w) (_circuitOpen b)
       (circuitDuration (_opts b)) (threshold (_opts b))
       (waitThreshold (_opts b)) stats).

(** *** The [Stats] of the breaker

    [_attachListeners] attaches [_checkStats] to its [update] event and
    [_snapshotHandler] to its [snapshot] event; nothing detaches them. *)
Definition stats_view (w : World) : Stats.St := (heap w, _stats (brakes w)).

Definition stats_update (hs : Stats.St) (w : World) : World :=
  mkWorld (fst hs) (instance w) (functions w) (clock w)
    (set_stats (snd hs) (brakes w)) (emitted w).

Definition stats_emit (event : string) (d : TotalStats.t) : M World unit :=
  if String.eqb event "update" then
    record_event (StatsUpdate d) ;; _checkStats d
  else if String.eqb event "snapshot" then
    record_event (StatsSnapshot d) ;; _snapshotHandler d
  else ret tt.

Definition _stats_success := Stats.success stats_view stats_update stats_emit.
Definition _stats_failure := Stats.failure stats_view stats_update stats_emit.
Definition _stats_timeout := Stats.timeout stats_view stats_update stats_emit.
Definition _stats_shortCircuit :=
  Stats.shortCircuit stats_view stats_update stats_emit.
Definition _stats_reset := Stats.reset stats_view stats_update stats_emit.
Definition _stats_snapshot := Stats._snapshot stats_view stats_update stats_emit.
Definition _stats_startSnapshots :=
  Stats.startSnapshots (W := World) stats_view stats_update.

Definition _successHandler (runTime : Z) : M World unit :=
  _stats_success runTime.

Definition _timeoutHandler (runTime execGeneration : Z) : M World unit :=
  b <- gets brakes ;;
  if execGeneration =? _circuitGeneration b
  then _stats_timeout runTime
  else ret tt.

Definition _failureHandler (runTime execGeneration : Z) : M World unit :=
  b <- gets brakes ;;
  if execGeneration =? _circuitGeneration b
  then _stats_failure runTime
  else ret tt.

(** The three outcome events of [Circuit.exec]. *)
Inductive Outcome : Type :=
| OSuccess (ms : Z)
| OTimeout (ms : Z) (err : JsError) (execGeneration : Z)
| OFailure (ms : Z) (err : JsError) (execGeneration : Z).

Definition outcome_name (o : Outcome) : string :=
  match o with
  | OSuccess _ => "success"
  | OTimeout _ _ _ => "timeout"
  | OFailure _ _ _ => "failure"
  end.

Definition outcome_event (o : Outcome) : Event :=
  match o with
  | OSuccess ms => Success ms
  | OTimeout ms e g => Timeout ms e g
  | OFailure ms e g => Failure ms e g
  end.

(** The body of the arrow functions of [_attachListeners]. *)
Definition call_listener (l : EventEmitter.Listener) (o : Outcome)
  : M World unit :=
  match l, o with
  | EventEmitter.SuccessListener, OSuccess d => _successHandler d
  | EventEmitter.TimeoutListener, OTimeout d _ g => _timeoutHandler d g
  | EventEmitter.FailureListener, OFailure d _ g => _failureHandler d g
  | _, _ => ret tt
  end.

(** [this.emit('success' | 'timeout' | 'failure', ...)] *)
Definition emit_outcome (o : Outcome) : M World unit :=
  record_event (outcome_event o) ;;
  ls <- gets (fun w =>
          EventEmitter.listeners (outcome_name o) (_events (brakes w))) ;;
  for_each (fun l => call_listener l o) ls.

Definition _attachListeners : M World unit :=
  this (modify (fun b =>
    set_events
      (EventEmitter.on "failure" EventEmitter.FailureListener
         (EventEmitter.on "timeout" EventEmitter.TimeoutListener
            (EventEmitter.on "success" EventEmitter.SuccessListener
               (_events b)))) b)).

(** [healthCheck(func, ...)] *)
Definition healthCheck (func : Fn) : M World unit :=
  this (modify (set_healthCheck (Some func))).

(** [fallback(func, ...)] *)
Definition fallback (func : Fn) : M World unit :=
  this (modify (fun b =>
    match _masterCircuit b with
    | Some c =>
        let (c', f) := Circuit.fallback func c in
        set_fallback (Some f) (set_masterCircuit (Some c') b)
    | None => set_fallback (Some func) b
    end)).

(** The registry works on the world through these. *)
Definition registry_view (w : World) : GlobalStats.St :=
  (instance w, functions w, _events (brakes w)).

Definition registry_update (s : GlobalStats.St) (w : World) : World :=
  let '(g, fns, ev) := s in
  mkWorld (heap w) g fns (clock w) (set_events ev (brakes w)) (emitted w).

(** [new Brakes(func, opts)], in a process whose heap, registry, function
    objects and clock are given; [func] is a callable or absent. *)
Definition new (object_id : nat) (func : option Fn) (opts : UserOptions)
  (h : Heap) (g : GlobalStats.t) (fns : nat) (now : Z) : World :=
  let _opts := assign_options opts in
  let '(h', stats) := Stats.new (stats_options opts) h in
  let b := mk object_id false _opts stats 1 None None false None
              (opts_name _opts) (opts_group _opts) [] 0 in
  exec_state
    (_attachListeners ;;
     _stats_startSnapshots ;;
     (if registerGlobal _opts
      then zoom registry_view registry_update (GlobalStats.register object_id)
      else ret tt) ;;
     (match opts_healthCheck _opts with
      | Some f => healthCheck f
      | None => ret tt
      end) ;;
     (match func with
      | Some f =>
          this (modify (set_masterCircuit
                  (Some (Circuit.new f None (opt_isFailure opts)))))
      | None => ret tt
      end) ;;
     (match opts_fallback _opts with
      | Some f => fallback f
      | None => ret tt
      end))
    (mkWorld h' g fns now b []).

(** The constructor with the forms of its arguments: [func] may be
    absent, a function, or an object, and [opts] may be absent.  An object
    passed alone is the options.  The circuit is constructed with [opts] in
    the place of its fallback. *)
Definition construct (object_id : nat) (func : Circuit.Arg UserOptions)
  (opts : option UserOptions) (h : Heap) (g : GlobalStats.t) (fns : nat)
  (now : Z) : World * Completion unit :=
  let '(func, opts) :=
    match func, opts with
    | Circuit.AnObject o, None => (Circuit.Absent, Some o)
    | _, _ => (func, opts)
    end in
  let given := match opts with Some o => o | None => no_options end in
  let _opts := assign_options given in
  let '(h', stats) := Stats.new (stats_options given) h in
  let b := mk object_id false _opts stats 1 None None false None
              (opts_name _opts) (opts_group _opts) [] 0 in
  let as_options (a : option UserOptions) : Circuit.Arg Circuit.Options :=
    match a with
    | Some o => Circuit.AnObject (opt_isFailure o)
    | None => Circuit.Absent
    end in
  (_attachListeners ;;
   _stats_startSnapshots ;;
   (if registerGlobal _opts
    then zoom registry_view registry_update (GlobalStats.register object_id)
    else ret tt) ;;
   (match opts_healthCheck _opts with
    | Some f => healthCheck f
    | None => ret tt
    end) ;;
   (match func with
    | Circuit.Absent => ret tt
    | Circuit.Callable f =>
        c <- (fun w =>
                (w, Circuit.construct true (Circuit.Callable f)
                      (as_options opts) None)) ;;
        this (modify (set_masterCircuit (Some c)))
    | Circuit.AnObject o =>
        c <- (fun w =>
                (w, Circuit.construct true
                      (Circuit.AnObject (opt_isFailure o))
                      (as_options opts) None)) ;;
        this (modify (set_masterCircuit (Some c)))
    end) ;;
   (match opts_fallback _opts with
    | Some f => fallback f
    | None => ret tt
    end))
    (mkWorld h' g fns now b []).

Definition destroy : M World unit :=
  b <- gets brakes ;;
  zoom registry_view registry_update (GlobalStats.deregister (id b)) ;;
  eventNames <- gets (fun w => EventEmitter.eventNames (_events (brakes w))) ;;
  for_each
    (fun event =>
       this (modify (fun b =>
         set_events (EventEmitter.removeAllListeners event (_events b)) b)))
    eventNames.

(** The callback of the loop of [destroy]: [this.removeAllListeners(event)]. *)
Definition remove_all (event : string) : M World unit :=
  this (modify (fun b =>
    set_events (EventEmitter.removeAllListeners event (_events b)) b)).

(** [slaveCircuit(service, fallback, options)] *)
Definition slaveCircuit (service : Fn) (fallback_ : option Fn)
  (options_isFailure : option (JsError -> bool)) : Circuit.t :=
  Circuit.new service fallback_ options_isFailure.

(** *** Timers: the bodies of the scheduled callbacks *)

(** The interval of [Stats.startSnapshots]. *)
Definition snapshot_tick : M World unit := _stats_snapshot.

(** The interval of [Stats._startBucketSpinning]. *)
Definition rotation_tick : M World unit :=
  zoom stats_view stats_update Stats.spin.

(** The timeout of [_resetCircuitTimeout]. *)
Definition cooldown_fire : M World unit :=
  this (modify (fun b => set_cooldowns (Nat.pred (cooldowns b)) b)) ;;
  _stats_reset ;;
  _close.

(** The interval of [_setHealthInterval] runs the probe while the circuit
    is open, and clears itself once it is closed.  These are its [else]
    branch and the two continuations of the probe. *)
Definition clear_healthInterval : M World unit :=
  this (modify (set_healthInterval false)).

Definition health_tick_closed : M World unit :=
  b <- gets brakes ;;
  if _circuitOpen b then ret tt else clear_healthInterval.

Definition healthCheck_rejected (err : JsError) : M World unit :=
  emit (HealthCheckFailed err).

Definition healthCheck_resolved : M World unit :=
  try_catch
    (b <- gets brakes ;;
     (if _circuitOpen b then _stats_reset ;; _close else ret tt) ;;
     b <- gets brakes ;;
     if _healthInterval b then clear_healthInterval else ret tt)
    healthCheck_rejected.

End Brakes.

(* ================================================================= *)
(** ** The invocation pipeline: [Circuit.exec] and [Brakes.exec] *)

Module Invocation.

Import Brakes.

(** A call whose service promise is pending: what the closure of [exec]
    holds. *)
Record Call : Type := mkCall {
  execGeneration : Z;
  startTime : Z;
  args : list JsValue
}.

(** What [exec] returns: a rejected promise, the promise of a fallback
    applied to the arguments, or the promise chained on the service
    call. *)
Inductive Returned : Type :=
| Promise_reject (err : JsError)
| Fallback_apply (f : Fn) (arguments : list JsValue)
| Pending (call : Call).

Definition Circuit_exec (c : Circuit.t) (arguments : list JsValue)
  : M World Returned :=
  emit Exec ;;
  b <- gets brakes ;;
  let execGeneration := _circuitGeneration b in
  if _circuitOpen b then
    _stats_shortCircuit ;;
    match Circuit._fallback c with
    | Some f => ret (Fallback_apply f arguments)
    | None =>
        b <- gets brakes ;;
        match _fallback b with
        | Some f => ret (Fallback_apply f arguments)
        | None =>
            ret (Promise_reject
                   (CircuitBrokenError (name b) (Stats._totals (_stats b))
                      (threshold (_opts b))))
        end
    end
  else
    startTime <- gets clock ;;
    ret (Pending (mkCall execGeneration startTime arguments)).

(** How [_execPromise] settles: the service resolved in time, or the
    promise was rejected, by the service or by the timer (with
    [new TimeOutError(consts.TIMEOUT)]). *)
Inductive Settlement : Type :=
| Resolved (result : JsValue)
| Rejected (err : JsError).

Definition timed_out : Settlement := Rejected (TimeOutError consts.TIMEOUT).

(** How the promise returned by [exec] settles. *)
Inductive Final : Type :=
| Fulfilled (result : JsValue)
| Fallback_result (f : Fn) (arguments : list JsValue)
| Rejected_with (err : JsError).

Definition message_truthy (m : list MessagePart) : bool :=
  existsb (fun p => match p with Text s => truthy_string s | _ => true end) m.

(** [err.message = `[Breaker: ${name}] ${err.message}`] *)
Definition prefix_message (breaker : string) (err : JsError) : JsError :=
  mkError (err_class err)
    (Text ("[Breaker: " ++ breaker ++ "] ")%string :: err_message err)
    (err_name err).

(** The handler of [.catch]. *)
Definition on_rejected (c : Circuit.t) (call : Call) (err : JsError)
  : M World Final :=
  now <- gets clock ;;
  let endTime := now - startTime call in
  (if instanceof_TimeOutError err
   then emit_outcome (OTimeout endTime err (execGeneration call))
   else if Circuit.isFailure c err
   then emit_outcome (OFailure endTime err (execGeneration call))
   else ret tt) ;;
  match Circuit._fallback c with
  | Some f => ret (Fallback_result f (args call))
  | None =>
      b <- gets brakes ;;
      match _fallback b with
      | Some f => ret (Fallback_result f (args call))
      | None =>
          if message_truthy (err_message err) && truthy_string (name b)
             && modifyError (_opts b)
          then ret (Rejected_with (prefix_message (name b) err))
          else ret (Rejected_with err)
      end
  end.

(** The chain [.tap(...).catch(...)] run at the settlement of the
    service promise.  An exception thrown by the [tap] callback rejects
    and is handled by the [catch]; one thrown by the [catch] handler
    rejects the promise that [exec] returned. *)
Definition Circuit_settle (c : Circuit.t) (call : Call) (s : Settlement)
  : M World Final :=
  try_catch
    (match s with
     | Resolved result =>
         try_catch
           (now <- gets clock ;;
            emit_outcome (OSuccess (now - startTime call)) ;;
            ret (Fulfilled result))
           (on_rejected c call)
     | Rejected err => on_rejected c call err
     end)
    (fun thrown => ret (Rejected_with thrown)).

Definition Brakes_exec (arguments : list JsValue) : M World Returned :=
  b <- gets brakes ;;
  match _masterCircuit b with
  | Some c => Circuit_exec c arguments
  | None => ret (Promise_reject (Error consts.NO_FUNCTION))
  end.

(** The clock moves between the turns of the event loop. *)
Definition tick_clock (ms : Z) : M World unit :=
  modify (fun w =>
    mkWorld (heap w) (instance w) (functions w) (clock w + ms) (brakes w)
      (emitted w)).

End Invocation.

(* ================================================================= *)
(** ** The life of a breaker *)

Module Process.

Import Brakes Invocation.

(** What can happen to a breaker once it is built: calls of its methods
    and of its circuits, settlements of pending calls, timers, the
    clock, the drain of the Hystrix stream.  What a step throws goes to
    its caller; the state stays. *)
Inductive Action : Type :=
| Call_exec (arguments : list JsValue)
| Call_circuit_exec (c : Circuit.t) (arguments : list JsValue)
| Settle (c : Circuit.t) (call : Call) (s : Settlement)
| Snapshot_tick
| Rotation_tick
| Cooldown_fire
| Health_tick_closed
| HealthCheck_resolved
| HealthCheck_rejected (err : JsError)
| Call_destroy
| Call_fallback (f : Fn)
| Call_healthCheck (f : Fn)
| Call_open
| Call_close
| Call_deregister
| Call_emit (o : Outcome)
| Clock (ms : Z)
| Drain.

Definition discard {A} (m : M World A) : M World unit := m ;; ret tt.

Definition run (a : Action) : M World unit :=
  match a with
  | Call_exec arguments => discard (Brakes_exec arguments)
  | Call_circuit_exec c arguments => discard (Circuit_exec c arguments)
  | Settle c call s => discard (Circuit_settle c call s)
  | Snapshot_tick => snapshot_tick
  | Rotation_tick => rotation_tick
  | Cooldown_fire => cooldown_fire
  | Health_tick_closed => health_tick_closed
  | HealthCheck_resolved => healthCheck_resolved
  | HealthCheck_rejected err => healthCheck_rejected err
  | Call_destroy => destroy
  | Call_fallback f => fallback f
  | Call_healthCheck f => healthCheck f
  | Call_open => _open
  | Call_close => _close
  | Call_deregister =>
      b <- gets brakes ;;
      zoom registry_view registry_update (GlobalStats.deregister (id b))
  | Call_emit o => emit_outcome o
  | Clock ms => tick_clock ms
  | Drain => zoom instance set_instance GlobalStats.drained
  end.

Fixpoint run_all (actions : list Action) (w : World) : World :=
  match actions with
  | [] => w
  | a :: actions' => run_all actions' (exec_state (run a) w)
  end.

(** A method keeps a property of the state, whether it returns or
    throws. *)
Definition preserves {S A} (P : S -> Prop) (m : M S A) : Prop :=
  forall s, P s -> P (fst (m s)).

(** The [Stats] that the constructor builds: no counters object, in the
    [Stats] or in any of its buckets. *)
Definition undefined_counters (s : Stats.t) : Prop :=
  Stats._cumulative s = None /\
  Forall (fun b => Bucket.cumulativeStats b = None) (Stats._buckets s).

Definition stats_as_built (st : Stats.St) : Prop :=
  undefined_counters (snd st).

(** The breaker that the constructor builds, with a master circuit
    ([master = true], a primary function was passed) or without. *)
Definition as_built (master : bool) (b : Brakes.t) : Prop :=
  (if master then _masterCircuit b <> None else _masterCircuit b = None) /\
  undefined_counters (_stats b).

(** The traffic of a breaker: calls, the settlements of their promises,
    outcome events, and the passing of time. *)
Definition traffic (a : Action) : bool :=
  match a with
  | Call_exec _ | Call_circuit_exec _ _ | Settle _ _ _ | Call_emit _
  | Clock _ => true
  | _ => false
  end.

(** The events of calls and of their outcomes. *)
Definition call_event (e : Event) : bool :=
  match e with
  | Exec | Success _ | Timeout _ _ _ | Failure _ _ _ => true
  | _ => false
  end.

(** A breaker that is as it was built, closed, at its first generation,
    and has emitted nothing but events of calls: no [update] of its
    [Stats], no [circuitOpen]. *)
Definition never_opened (master : bool) (w : World) : Prop :=
  as_built master (brakes w) /\
  _circuitOpen (brakes w) = false /\
  _circuitGeneration (brakes w) = 1 /\
  forallb call_event (emitted w) = true.

End Process.

(* ================================================================= *)
(** ** Scenarios of the specification *)

Module Scenario.

Import Brakes Invocation.

(** A process that has just started: every counters object on the heap
    reads as [defaultCumulativeStats], no breaker is registered, no
    function is bound, the clock is at 0. *)
Definition initial_heap : Heap := fun _ => CumulativeStats.defaultCumulativeStats.

Definition service : Fn := 1%nat.

(** [new Brakes(func, opts)] in that process. *)
Definition fresh (func : option Fn) (opts : UserOptions) : World :=
  Brakes.new 0 func opts initial_heap GlobalStats.new 0 0.

(** [{ waitThreshold: 4, threshold: 0.5 }] *)
Definition open_on_threshold : UserOptions :=
  mkUser None None None None None None None (Some 4) (Some (1 # 2)%Q) None
    None None None None None None.

(** [{ waitThreshold: 0 }] *)
Definition zero_waitThreshold : UserOptions :=
  mkUser None None None None None None None (Some 0) None None
    None None None None None None.

(** A window of one bucket holding one failure of 7 ms. *)
Definition one_failure : list Bucket.t := [Bucket.mk 1 0 1 0 0 [7] None].

(** The aggregate that [_update] computes, on a given window. *)
Definition aggregate (window : list Bucket.t) (w : World) : TotalStats.t :=
  Stats._totals
    (snd (exec_state (Stats._generateStats window false) (stats_view w))).

(** An update payload with the given window counts, all failures
    otherwise, as an aggregate without latency or copied counters. *)
Definition payload (total successful : Z) : TotalStats.t :=
  TotalStats.mk (total - successful) 0 total 0 0 successful None []
    None None None None None None None None None None.

(** A breaker with [waitThreshold = 0], and the update of a window that
    holds a first failure alone. *)
Definition zero_world : World := fresh (Some service) zero_waitThreshold.

Definition first_failure_update : TotalStats.t :=
  aggregate one_failure zero_world.

(** A breaker with the default options, on which [exec] is called at
    generation 1 and which is opened while that call is pending: it is
    then at generation 2. *)
Definition default_world : World := fresh (Some service) no_options.

Definition master : Circuit.t := Circuit.new service None None.

Definition stale_call : Call := mkCall 1 0 [].

Definition in_flight : World := exec_state (Brakes_exec []) default_world.

Definition reopened : World := exec_state _open in_flight.

(** The total of the window, as [_generateStats] sums it. *)
Definition window_total (w : World) : Z :=
  TotalStats.total (aggregate (Stats._buckets (_stats (brakes w))) w).


(** Five calls on the master circuit of a breaker with
    [waitThreshold = 4] and [threshold = 0.5]: the first resolves, the
    other four are rejected by the service. *)
Definition boom : JsError := Error "boom".

Definition S_F_F_F_F : list Process.Action :=
  [Process.Call_exec []; Process.Settle master stale_call (Resolved Undefined);
   Process.Call_exec []; Process.Settle master stale_call (Rejected boom);
   Process.Call_exec []; Process.Settle master stale_call (Rejected boom);
   Process.Call_exec []; Process.Settle master stale_call (Rejected boom);
   Process.Call_exec []; Process.Settle master stale_call (Rejected boom)].

Definition after_S_F_F_F_F : World :=
  Process.run_all S_F_F_F_F (fresh (Some service) open_on_threshold).

(** One call that resolves, on a breaker with the default options. *)
Definition after_one_success : World :=
  Process.run_all
    [Process.Call_exec [];
     Process.Settle master stale_call (Resolved Undefined)]
    default_world.

(** A caller that catches what a call throws. *)
Definition attempt {A} (m : M World A) : M World (A + JsError) :=
  try_catch (a <- m ;; ret (inl a)) (fun e => ret (inr e)).

Fixpoint attempts {A} (n : nat) (m : M World A) : M World (list (A + JsError)) :=
  match n with
  | O => ret []
  | S n' => r <- attempt m ;; rs <- attempts n' m ;; ret (r :: rs)
  end.

End Scenario.

(* ================================================================= *)
(** ** What the events emitted say about a breaker *)

Module Trace.

Import Brakes.

(** The number of [circuitOpen] events. *)
Definition opens (es : list Event) : Z :=
  Z.of_nat
    (List.length
       (filter (fun e => match e with CircuitOpen => true | _ => false end)
          es)).

(** The state that the last [circuitOpen] or [circuitClosed] event
    announces: open or not; closed when there is none. *)
Definition announced (es : list Event) : bool :=
  fold_left
    (fun open e =>
       match e with
       | CircuitOpen => true
       | CircuitClosed => false
       | _ => open
       end)
    es false.

Definition circuit_event (e : Event) : bool :=
  match e with CircuitOpen | CircuitClosed => true | _ => false end.

(** A window of [n] buckets whose active bucket is the last one. *)
Definition window_of (n : Z) (s : Stats.t) : Prop :=
  Stats.bucketNum (Stats._opts s) = n /\
  List.length (Stats._buckets s) = Z.to_nat n /\
  Stats._activePosition s = n - 1.

Definition stats_window_of (n : Z) (st : Stats.St) : Prop :=
  window_of n (snd st).

(** The breaker and the events it has emitted agree. *)
Definition coherent (n : Z) (w : World) : Prop :=
  window_of n (_stats (brakes w)) /\
  _circuitGeneration (brakes w) = 1 + opens (emitted w) /\
  _circuitOpen (brakes w) = announced (emitted w).

(** A change of a breaker that leaves its statistics and the state of
    its circuit alone. *)
Definition keeps_circuit (f : Brakes.t -> Brakes.t) : Prop :=
  forall b,
    _stats (f b) = _stats b /\
    _circuitOpen (f b) = _circuitOpen b /\
    _circuitGeneration (f b) = _circuitGeneration b.

(** The number of times the breaker is subscribed to the global feed:
    the bound listeners attached to its [snapshot] event. *)
Definition bound (l : EventEmitter.Listener) : bool :=
  match l with EventEmitter.BoundGlobalListener _ => true | _ => false end.

Definition registrations (ev : EventEmitter.t) : nat :=
  List.length (filter bound (EventEmitter.listeners "snapshot" ev)).

(** Both timers of a [Stats] are scheduled. *)
Definition timers_on (s : Stats.t) : Prop :=
  Stats._spinningInterval s = true /\ Stats._snapshotInterval s = true.

(** What no listener of an outcome changes: the events already emitted,
    the fallback, the name and the options of the breaker. *)
Definition settled_on (w : World) (es : list Event) (x : World) : Prop :=
  (exists rest, emitted x = es ++ rest) /\
  _fallback (brakes x) = _fallback (brakes w) /\
  name (brakes x) = name (brakes w) /\
  _opts (brakes x) = _opts (brakes w).

(** An outcome event that a listener of the breaker records: the
    listener of its kind is attached, and a timeout or a failure carries
    the current generation. *)
Definition recorded (o : Outcome) (w : World) : Prop :=
  match o with
  | OSuccess _ =>
      In EventEmitter.SuccessListener
        (EventEmitter.listeners "success" (_events (brakes w)))
  | OTimeout _ _ g =>
      In EventEmitter.TimeoutListener
        (EventEmitter.listeners "timeout" (_events (brakes w))) /\
      g = _circuitGeneration (brakes w)
  | OFailure _ _ g =>
      In EventEmitter.FailureListener
        (EventEmitter.listeners "failure" (_events (brakes w))) /\
      g = _circuitGeneration (brakes w)
  end.

(** The sum of a counter over the buckets of a window. *)
Definition sum_of (f : Bucket.field) (buckets : list Bucket.t) : Z :=
  fold_right Z.add 0 (map (Bucket.get f) buckets).

End Trace.

(* ================================================================= *)
(** * Properties *)

(** ** Reasoning about methods *)

Lemma bind_normal {S A B} (m : M S A) (k : A -> M S B) s s' a :
  m s = (s', Normal a) -> bind m k s = k a s'.
Proof. unfold bind; intros ->; reflexivity. Qed.

Lemma bind_throw {S A B} (m : M S A) (k : A -> M S B) s s' e :
  m s = (s', Throw e) -> bind m k s = (s', Throw e).
Proof. unfold bind; intros ->; reflexivity. Qed.

Lemma zoom_eq {S T A} (view : S -> T) (update : T -> S -> S) (m : M T A)
  s t' r :
  m (view s) = (t', r) -> zoom view update m s = (update t' s, r).
Proof. unfold zoom; intros ->; reflexivity. Qed.

(** ** Bucket *)

Section BucketFacts.

Variable r : Ref.

(** On a bucket that holds a counters object every operation returns. *)
Lemma apply_returns (o : Bucket.op) (h : Heap) (b : Bucket.t) :
  Bucket.cumulativeStats b = Some r ->
  exists h' b',
    Bucket.apply o (h, b) = ((h', b'), Normal tt) /\
    Bucket.cumulativeStats b' = Some r /\
    (Bucket.invariant b -> Bucket.invariant b').
Proof.
  destruct b as [f s t sc to rts cs]; simpl; intros ->.
  destruct o; cbn; eexists; eexists;
    (split; [reflexivity | split; [reflexivity |]]);
    unfold Bucket.invariant; cbn; rewrite ?length_app; cbn; lia.
Qed.

Lemma apply_all_returns (os : list Bucket.op) :
  forall (h : Heap) (b : Bucket.t),
    Bucket.cumulativeStats b = Some r ->
    Bucket.invariant b ->
    exists h' b',
      Bucket.apply_all os (h, b) = ((h', b'), Normal tt) /\
      Bucket.cumulativeStats b' = Some r /\
      Bucket.invariant b'.
Proof.
  induction os as [|o os IH]; intros h b Hc Hi.
  - exists h, b; repeat split; auto; apply Hi.
  - destruct (apply_returns o h b Hc) as (h1 & b1 & E1 & Hc1 & Hi1).
    destruct (IH h1 b1 Hc1 (Hi1 Hi)) as (h2 & b2 & E2 & Hc2 & Hi2).
    exists h2, b2; repeat split; try apply Hi2; auto.
    cbn [Bucket.apply_all]. rewrite (bind_normal _ _ _ _ _ E1). exact E2.
Qed.

End BucketFacts.

Lemma new_invariant (c : option Ref) : Bucket.invariant (Bucket.new c).
Proof. split; reflexivity. Qed.

(** A bucket built over a counters object, as the signature of the
    constructor asks, keeps [total = successful + failed + timedOut] and
    [len(requestTimes) = successful + failed + timedOut] through every
    sequence of [success], [failure], [timeout] and [shortCircuit], every
    one of which returns; and [shortCircuit] adds one to [shortCircuited],
    to [countShortCircuited] and to [countShortCircuitedDeriv] of that
    object, and changes nothing else: not [total], not [requestTimes],
    not [countTotal]. *)
Lemma bucket_invariants (h : Heap) (r : Ref) :
  (forall os : list Bucket.op,
      let run := Bucket.apply_all os (h, Bucket.new (Some r)) in
      snd run = Normal tt /\ Bucket.invariant (snd (fst run))) /\
  (forall failed successful total shortCircuited timedOut requestTimes,
      let b := Bucket.mk failed successful total shortCircuited timedOut
                 requestTimes (Some r) in
      let run := Bucket.shortCircuit (h, b) in
      snd run = Normal tt /\
      snd (fst run) =
        Bucket.mk failed successful total (shortCircuited + 1) timedOut
          requestTimes (Some r) /\
      forall (r' : Ref) (f : CumulativeStats.field),
        CumulativeStats.get f (fst (fst run) r') =
        CumulativeStats.get f (h r') +
        (if Nat.eqb r' r then
           match f with
           | CumulativeStats.CountShortCircuited
           | CumulativeStats.CountShortCircuitedDeriv => 1
           | _ => 0
           end
         else 0)).
Proof.
  split.
  - intros os run.
    destruct (apply_all_returns r os h (Bucket.new (Some r)) eq_refl
                (new_invariant _)) as (h' & b' & E & _ & Hi).
    subst run; rewrite E; split; [reflexivity | exact Hi].
  - intros f s t sc to rts b run; subst b run; cbn.
    split; [reflexivity | split; [reflexivity |]].
    intros r' fld; unfold heap_update.
    destruct (Nat.eqb r' r); [destruct fld; cbn; lia | lia].
Qed.

(** ** Rounding to a double *)

Section Rounding.

Import Double.
Open Scope Q_scope.

Lemma pow2_pos (e : Z) : 0 < pow2 e.
Proof. apply Qpower_0_lt. reflexivity. Qed.

Lemma pow2_le (a b : Z) : (a <= b)%Z -> pow2 a <= pow2 b.
Proof. intros H. apply Qpower_le_compat_l; [exact H | discriminate]. Qed.

Lemma pow2_lt_inv (a b : Z) : pow2 a < pow2 b -> (a < b)%Z.
Proof. intros H. eapply Qpower_lt_compat_l_inv; [exact H | reflexivity]. Qed.

Lemma pow2_add (a b : Z) : pow2 (a + b) == pow2 a * pow2 b.
Proof. apply Qpower_plus. discriminate. Qed.

Lemma pow2_Z (e : Z) : (0 <= e)%Z -> pow2 e == inject_Z (2 ^ e).
Proof. intros H. symmetry. apply (Zpower_Qpower 2 e H). Qed.

(** *** The nearest integer, ties to even *)

Lemma nearest_even_comp (m m' : Q) : m == m' -> nearest_even m = nearest_even m'.
Proof.
  intros H. unfold nearest_even.
  rewrite (Qfloor_comp _ _ H).
  assert (E : m - inject_Z (Qfloor m') == m' - inject_Z (Qfloor m'))
    by now rewrite H.
  now rewrite E.
Qed.

Lemma nearest_even_bounds (m : Q) :
  (Qfloor m <= nearest_even m <= Qfloor m + 1)%Z.
Proof.
  unfold nearest_even.
  destruct (m - inject_Z (Qfloor m) ?= 1 # 2); [destruct (Z.even _) | |]; lia.
Qed.

Lemma nearest_even_Z (k : Z) : nearest_even (inject_Z k) = k.
Proof.
  unfold nearest_even. rewrite Qfloor_Z.
  assert (H : inject_Z k - inject_Z k < 1 # 2).
  { setoid_replace (inject_Z k - inject_Z k) with 0 by ring. reflexivity. }
  destruct (Qcompare_spec (inject_Z k - inject_Z k) (1 # 2)) as [E|L|G];
    [| reflexivity |]; exfalso.
  - rewrite E in H. discriminate H.
  - apply (Qlt_irrefl (1 # 2)). eapply Qlt_trans; eassumption.
Qed.

Lemma nearest_even_le (m : Q) (k : Z) : m <= inject_Z k -> (nearest_even m <= k)%Z.
Proof.
  intros H. apply Qle_lteq in H. destruct H as [H|H].
  - assert (Qfloor m < k)%Z.
    { rewrite Zlt_Qlt. eapply Qle_lt_trans; [apply Qfloor_le | exact H]. }
    pose proof (nearest_even_bounds m). lia.
  - rewrite (nearest_even_comp _ _ H), nearest_even_Z. lia.
Qed.

Lemma nearest_even_ge (m : Q) (k : Z) : inject_Z k <= m -> (k <= nearest_even m)%Z.
Proof.
  intros H. apply Qfloor_resp_le in H. rewrite Qfloor_Z in H.
  pose proof (nearest_even_bounds m). lia.
Qed.

Lemma nearest_even_mono (m1 m2 : Q) :
  m1 <= m2 -> (nearest_even m1 <= nearest_even m2)%Z.
Proof.
  intros H.
  pose proof (Qfloor_resp_le _ _ H) as Hf.
  pose proof (nearest_even_bounds m1) as B1.
  pose proof (nearest_even_bounds m2) as B2.
  destruct (Z.eq_dec (Qfloor m1) (Qfloor m2)) as [E|Hne]; [| lia].
  unfold nearest_even. rewrite <- E.
  assert (Hr : m1 - inject_Z (Qfloor m1) <= m2 - inject_Z (Qfloor m1)).
  { apply Qplus_le_l. exact H. }
  destruct (Qcompare_spec (m1 - inject_Z (Qfloor m1)) (1 # 2)) as [E1|L1|G1];
    destruct (Qcompare_spec (m2 - inject_Z (Qfloor m1)) (1 # 2)) as [E2|L2|G2];
    try (destruct (Z.even (Qfloor m1))); try lia; exfalso; lra.
Qed.

Lemma nearest_even_opp (m : Q) : nearest_even (- m) = (- nearest_even m)%Z.
Proof.
  pose proof (Qfloor_le m) as Hlo. pose proof (Qlt_floor m) as Hhi.
  rewrite inject_Z_plus in Hhi. change (inject_Z 1) with 1 in Hhi.
  destruct (Qeq_dec m (inject_Z (Qfloor m))) as [Hint|Hfrac].
  - assert (E : - m == inject_Z (- Qfloor m))
      by (rewrite inject_Z_opp; lra).
    rewrite (nearest_even_comp _ _ E), (nearest_even_comp _ _ Hint).
    now rewrite !nearest_even_Z.
  - assert (Hf : Qfloor (- m) = (- Qfloor m - 1)%Z).
    { assert (H1 : (- Qfloor m - 1 <= Qfloor (- m))%Z).
      { rewrite <- (Qfloor_Z (- Qfloor m - 1)). apply Qfloor_resp_le.
        unfold Z.sub. rewrite inject_Z_plus, !inject_Z_opp.
        change (inject_Z 1) with 1. lra. }
      assert (H2 : (Qfloor (- m) < - Qfloor m)%Z).
      { rewrite Zlt_Qlt, inject_Z_opp.
        eapply Qle_lt_trans; [apply Qfloor_le |].
        assert (inject_Z (Qfloor m) < m); [| lra].
        apply Qle_lteq in Hlo. destruct Hlo as [H|H]; [exact H |].
        now elim Hfrac. }
      lia. }
    unfold nearest_even. rewrite Hf.
    assert (Ez : inject_Z (- Qfloor m - 1) == - inject_Z (Qfloor m) - 1).
    { unfold Z.sub. rewrite inject_Z_plus, !inject_Z_opp. reflexivity. }
    assert (Hev : Z.even (- Qfloor m - 1) = negb (Z.even (Qfloor m))).
    { replace (- Qfloor m - 1)%Z with (- (Qfloor m + 1))%Z by lia.
      rewrite Z.even_opp, Z.even_add. now destruct (Z.even (Qfloor m)). }
    rewrite Hev.
    destruct (Qcompare_spec (m - inject_Z (Qfloor m)) (1 # 2)) as [E1|L1|G1];
      destruct (Qcompare_spec (- m - inject_Z (- Qfloor m - 1)) (1 # 2))
        as [E2|L2|G2];
      try (destruct (Z.even (Qfloor m))); cbn [negb]; try lia; exfalso;
      rewrite Ez in *; lra.
Qed.

(** *** The exponent of a number *)

Lemma ilog2_spec (x : Q) :
  ~ x == 0 ->
  pow2 (ilog2 x) <= Qabs x /\ Qabs x < pow2 (ilog2 x + 1).
Proof.
  intros Hx. destruct x as [n d].
  set (a := Z.abs n). set (b := Zpos d).
  assert (Ha : (0 < a)%Z).
  { subst a. assert (n <> 0)%Z; [| lia].
    intros ->. apply Hx. reflexivity. }
  assert (Hb : (0 < b)%Z) by (subst b; lia).
  destruct (Z.log2_spec a Ha) as [Ha1 Ha2].
  destruct (Z.log2_spec b Hb) as [Hb1 Hb2].
  pose proof (Z.log2_nonneg a) as Hla. pose proof (Z.log2_nonneg b) as Hlb.
  set (la := Z.log2 a) in *. set (lb := Z.log2 b) in *.
  assert (Eabs : Qabs (n # d) == inject_Z a / inject_Z b).
  { unfold Qabs. fold a. subst b. apply Qmake_Qdiv. }
  assert (Hbq : 0 < inject_Z b).
  { change (inject_Z 0 < inject_Z b). now rewrite <- Zlt_Qlt. }
  assert (Qa1 : pow2 la <= inject_Z a).
  { rewrite (pow2_Z la Hla). now rewrite <- Zle_Qle. }
  assert (Qa2 : inject_Z a < pow2 (la + 1)).
  { rewrite (pow2_Z (la + 1)) by lia. rewrite <- Zlt_Qlt.
    now replace (la + 1)%Z with (Z.succ la) by lia. }
  assert (Qb1 : pow2 lb <= inject_Z b).
  { rewrite (pow2_Z lb Hlb). now rewrite <- Zle_Qle. }
  assert (Qb2 : inject_Z b < pow2 (lb + 1)).
  { rewrite (pow2_Z (lb + 1)) by lia. rewrite <- Zlt_Qlt.
    now replace (lb + 1)%Z with (Z.succ lb) by lia. }
  assert (Hup : Qabs (n # d) < pow2 (la - lb + 1)).
  { rewrite Eabs. apply Qlt_shift_div_r; [exact Hbq |].
    pose proof (pow2_pos (la - lb + 1)) as Hu.
    assert (E : pow2 (la + 1) == pow2 (la - lb + 1) * pow2 lb).
    { rewrite <- pow2_add. now replace (la - lb + 1 + lb)%Z with (la + 1)%Z by lia. }
    assert (pow2 (la - lb + 1) * pow2 lb <= pow2 (la - lb + 1) * inject_Z b).
    { apply Qmult_le_l; assumption. }
    lra. }
  assert (Hlow : pow2 (la - lb - 1) <= Qabs (n # d)).
  { rewrite Eabs. apply Qle_shift_div_l; [exact Hbq |].
    pose proof (pow2_pos (la - lb - 1)) as Hu.
    assert (E : pow2 la == pow2 (la - lb - 1) * pow2 (lb + 1)).
    { rewrite <- pow2_add. now replace (la - lb - 1 + (lb + 1))%Z with la by lia. }
    assert (pow2 (la - lb - 1) * inject_Z b <= pow2 (la - lb - 1) * pow2 (lb + 1)).
    { apply Qmult_le_l; [assumption | lra]. }
    lra. }
  unfold ilog2. cbn [Qnum Qden]. fold a b la lb.
  destruct (Qle_bool (pow2 (la - lb)) (Qabs (n # d))) eqn:E.
  - apply Qle_bool_iff in E. split; assumption.
  - replace (la - lb - 1 + 1)%Z with (la - lb)%Z by lia.
    split; [exact Hlow |].
    apply Qnot_le_lt. intros H. apply Qle_bool_iff in H. congruence.
Qed.

Lemma ilog2_unique (x : Q) (e : Z) :
  pow2 e <= Qabs x -> Qabs x < pow2 (e + 1) -> ilog2 x = e.
Proof.
  intros H1 H2.
  assert (Hx : ~ x == 0).
  { intros E. rewrite E in H1. pose proof (pow2_pos e).
    change (Qabs 0) with 0 in H1. lra. }
  destruct (ilog2_spec x Hx) as [S1 S2].
  assert (ilog2 x < e + 1)%Z by (apply pow2_lt_inv; lra).
  assert (e < ilog2 x + 1)%Z by (apply pow2_lt_inv; lra).
  lia.
Qed.

Lemma ilog2_mono (x y : Q) :
  ~ x == 0 -> Qabs x <= Qabs y -> (ilog2 x <= ilog2 y)%Z.
Proof.
  intros Hx H.
  assert (Hy : ~ y == 0).
  { intros E. rewrite E in H. change (Qabs 0) with 0 in H.
    apply Hx. apply Qabs_Qle_condition in H. lra. }
  destruct (ilog2_spec x Hx) as [X1 X2].
  destruct (ilog2_spec y Hy) as [Y1 Y2].
  assert (ilog2 x < ilog2 y + 1)%Z by (apply pow2_lt_inv; lra).
  lia.
Qed.

Lemma ilog2_opp (x : Q) : ilog2 (- x) = ilog2 x.
Proof.
  unfold ilog2. destruct x as [n d]. cbn [Qnum Qden Qopp].
  rewrite Z.abs_opp.
  assert (E : Qabs (- n # d) == Qabs (n # d)) by apply (Qabs_opp (n # d)).
  now rewrite E.
Qed.

(** *** Rounding on a grid *)

Lemma on_grid_le (q : Z) (x : Q) (k : Z) :
  x <= inject_Z k * pow2 q -> on_grid q x <= inject_Z k * pow2 q.
Proof.
  intros H. pose proof (pow2_pos q) as Hp. unfold on_grid.
  apply Qmult_le_compat_r; [| lra].
  rewrite <- Zle_Qle. apply nearest_even_le.
  apply Qle_shift_div_r; assumption.
Qed.

Lemma on_grid_ge (q : Z) (x : Q) (k : Z) :
  inject_Z k * pow2 q <= x -> inject_Z k * pow2 q <= on_grid q x.
Proof.
  intros H. pose proof (pow2_pos q) as Hp. unfold on_grid.
  apply Qmult_le_compat_r; [| lra].
  rewrite <- Zle_Qle. apply nearest_even_ge.
  apply Qle_shift_div_l; assumption.
Qed.

Lemma on_grid_fixed (q : Z) (x : Q) (k : Z) :
  x == inject_Z k * pow2 q -> on_grid q x == x.
Proof.
  intros H. apply Qle_antisym.
  - rewrite H at 2. apply on_grid_le. lra.
  - rewrite H at 1. apply on_grid_ge. lra.
Qed.

Lemma on_grid_mono (q : Z) (x y : Q) :
  x <= y -> on_grid q x <= on_grid q y.
Proof.
  intros H. pose proof (pow2_pos q) as Hp. unfold on_grid.
  apply Qmult_le_compat_r; [| lra].
  rewrite <- Zle_Qle. apply nearest_even_mono.
  unfold Qdiv. apply Qmult_le_compat_r; [exact H |].
  apply Qinv_le_0_compat. lra.
Qed.

Lemma on_grid_opp (q : Z) (x : Q) : on_grid q (- x) == - on_grid q x.
Proof.
  unfold on_grid.
  assert (E : - x / pow2 q == - (x / pow2 q)).
  { unfold Qdiv. ring. }
  rewrite (nearest_even_comp _ _ E), nearest_even_opp, inject_Z_opp. ring.
Qed.

(** A power of two lies on every finer grid. *)
Lemma pow2_on_grid (q e : Z) :
  (q <= e)%Z -> pow2 e == inject_Z (2 ^ (e - q)) * pow2 q.
Proof.
  intros H. rewrite <- (pow2_Z (e - q)) by lia. rewrite <- pow2_add.
  now replace (e - q + q)%Z with e by lia.
Qed.

(** *** Rounding to the nearest number of 53 bits *)

Lemma nearest_zero (x : Q) : x == 0 -> nearest x == 0.
Proof.
  intros H. unfold nearest.
  rewrite (on_grid_fixed _ x 0); [exact H |].
  transitivity 0; [exact H | ring].
Qed.

Lemma nearest_nonneg (x : Q) : 0 <= x -> 0 <= nearest x.
Proof.
  intros H. unfold nearest.
  apply Qle_trans with (inject_Z 0 * pow2 (ulp_exponent x)).
  - change (inject_Z 0) with 0. lra.
  - apply on_grid_ge. change (inject_Z 0) with 0. lra.
Qed.

Lemma nearest_nonpos (x : Q) : x <= 0 -> nearest x <= 0.
Proof.
  intros H. unfold nearest.
  apply Qle_trans with (inject_Z 0 * pow2 (ulp_exponent x)).
  - apply on_grid_le. change (inject_Z 0) with 0. lra.
  - change (inject_Z 0) with 0. lra.
Qed.

Lemma nearest_opp (x : Q) : nearest (- x) == - nearest x.
Proof.
  unfold nearest, ulp_exponent. rewrite ilog2_opp. apply on_grid_opp.
Qed.

Lemma nearest_mono_pos (x y : Q) : 0 < x -> x <= y -> nearest x <= nearest y.
Proof.
  intros Hx Hxy.
  assert (Hx0 : ~ x == 0) by lra.
  assert (Hy0 : ~ y == 0) by lra.
  assert (Ax : Qabs x == x) by (apply Qabs_pos; lra).
  assert (Ay : Qabs y == y) by (apply Qabs_pos; lra).
  assert (He : (ilog2 x <= ilog2 y)%Z).
  { apply ilog2_mono; [exact Hx0 | rewrite Ax, Ay; exact Hxy]. }
  destruct (ilog2_spec x Hx0) as [X1 X2].
  destruct (ilog2_spec y Hy0) as [Y1 Y2].
  rewrite Ax in X1, X2. rewrite Ay in Y1, Y2.
  unfold nearest.
  destruct (Z.eq_dec (ulp_exponent x) (ulp_exponent y)) as [E|Hne].
  - rewrite E. now apply on_grid_mono.
  - assert (Hq : (ulp_exponent x < ulp_exponent y)%Z)
      by (unfold ulp_exponent in *; lia).
    assert (Hq' : ulp_exponent y = (ilog2 y - 52)%Z)
      by (unfold ulp_exponent in *; lia).
    assert (Hlt : (ilog2 x < ilog2 y)%Z)
      by (unfold ulp_exponent in *; lia).
    apply Qle_trans with (pow2 (ilog2 y)).
    + rewrite (pow2_on_grid (ulp_exponent x) (ilog2 y)) by lia.
      apply on_grid_le.
      rewrite <- (pow2_on_grid (ulp_exponent x) (ilog2 y)) by lia.
      assert (pow2 (ilog2 x + 1) <= pow2 (ilog2 y)) by (apply pow2_le; lia).
      lra.
    + rewrite (pow2_on_grid (ulp_exponent y) (ilog2 y)) by lia.
      apply on_grid_ge.
      rewrite <- (pow2_on_grid (ulp_exponent y) (ilog2 y)) by lia.
      exact Y1.
Qed.

Lemma nearest_mono (x y : Q) : x <= y -> nearest x <= nearest y.
Proof.
  intros H.
  destruct (Qlt_le_dec 0 x) as [Hx|Hx].
  - now apply nearest_mono_pos.
  - destruct (Qlt_le_dec y 0) as [Hy|Hy].
    + assert (Hn : nearest (- y) <= nearest (- x))
        by (apply nearest_mono_pos; lra).
      rewrite !nearest_opp in Hn. lra.
    + pose proof (nearest_nonpos x Hx). pose proof (nearest_nonneg y Hy). lra.
Qed.

Lemma nearest_comp (x y : Q) : x == y -> nearest x == nearest y.
Proof.
  intros H. apply Qle_antisym; apply nearest_mono; lra.
Qed.

(** *** The numbers that rounding leaves as they are *)

Lemma Qred_inject_Z (z : Z) : Qred (inject_Z z) = inject_Z z.
Proof.
  unfold Qred, inject_Z.
  pose proof (Z.ggcd_gcd z 1) as Hg.
  pose proof (Z.ggcd_correct_divisors z 1) as Hd.
  destruct (Z.ggcd z 1) as [g [r1 r2]]. cbn [fst snd] in *.
  rewrite Z.gcd_1_r in Hg. subst g. destruct Hd as [H1 H2].
  assert (E1 : r1 = z) by lia. assert (E2 : r2 = 1%Z) by lia.
  now rewrite E1, E2.
Qed.

Lemma inject_Z_nonzero (z : Z) : z <> 0%Z -> ~ inject_Z z == 0.
Proof. intros H E. unfold Qeq in E. cbn in E. lia. Qed.

Lemma round_finite (x : Q) :
  Qabs (nearest x) < pow2 1024 -> round x = Finite (Qred (nearest x)).
Proof.
  intros H. unfold round.
  destruct (Qle_bool (pow2 1024) (Qabs (nearest x))) eqn:E; [| reflexivity].
  apply Qle_bool_iff in E. lra.
Qed.

Lemma round_cases (x : Q) :
  (round x = Finite (Qred (nearest x)) /\ Qabs (nearest x) < pow2 1024) \/
  (round x = Infinity false /\ pow2 1024 <= nearest x) \/
  (round x = Infinity true /\ nearest x <= - pow2 1024).
Proof.
  unfold round.
  destruct (Qle_bool (pow2 1024) (Qabs (nearest x))) eqn:E.
  - right. apply Qle_bool_iff in E.
    destruct (Qle_bool 0 (nearest x)) eqn:E0; cbn [negb].
    + left. split; [reflexivity |]. apply Qle_bool_iff in E0.
      now rewrite (Qabs_pos _ E0) in E.
    + right. split; [reflexivity |].
      assert (H0 : nearest x <= 0).
      { apply Qlt_le_weak, Qnot_le_lt. intros H.
        apply Qle_bool_iff in H. congruence. }
      rewrite (Qabs_neg _ H0) in E. lra.
  - left. split; [reflexivity |].
    apply Qnot_le_lt. intros H. apply Qle_bool_iff in H. congruence.
Qed.

Lemma representable_spec (x : Q) :
  representable x = true <-> nearest x == x /\ Qabs x < pow2 1024.
Proof.
  unfold representable. rewrite andb_true_iff, negb_true_iff, Qeq_bool_iff.
  split; intros [H1 H2]; (split; [exact H1 |]).
  - apply Qnot_le_lt. intros H. apply Qle_bool_iff in H. congruence.
  - destruct (Qle_bool (pow2 1024) (Qabs x)) eqn:E; [| reflexivity].
    apply Qle_bool_iff in E. lra.
Qed.

Lemma round_representable (x : Q) :
  representable x = true -> round x = Finite (Qred x).
Proof.
  intros H. apply representable_spec in H. destruct H as [H1 H2].
  rewrite round_finite.
  - f_equal. now apply Qred_complete.
  - assert (E : Qabs (nearest x) == Qabs x) by now rewrite H1.
    now rewrite E.
Qed.

Lemma ilog2_Z_range (z : Z) :
  (0 < Z.abs z < 2 ^ 53)%Z -> (0 <= ilog2 (inject_Z z) <= 52)%Z.
Proof.
  intros [H0 H1].
  assert (Hx : ~ inject_Z z == 0).
  { apply inject_Z_nonzero. lia. }
  destruct (ilog2_spec _ Hx) as [S1 S2].
  assert (Eabs : Qabs (inject_Z z) = inject_Z (Z.abs z)) by reflexivity.
  rewrite Eabs in S1, S2.
  assert (A1 : pow2 0 <= inject_Z (Z.abs z)).
  { change (pow2 0) with (inject_Z 1). rewrite <- Zle_Qle. lia. }
  assert (A2 : inject_Z (Z.abs z) < pow2 53).
  { rewrite (pow2_Z 53) by lia. now rewrite <- Zlt_Qlt. }
  assert (0 < ilog2 (inject_Z z) + 1)%Z by (apply pow2_lt_inv; lra).
  assert (ilog2 (inject_Z z) < 53)%Z by (apply pow2_lt_inv; lra).
  lia.
Qed.

Lemma pow2_inv (q : Z) : pow2 q * pow2 (- q) == 1.
Proof. rewrite <- pow2_add. now replace (q + - q)%Z with 0%Z by lia. Qed.

(** An integer lies on every grid of non-positive exponent. *)
Lemma Z_on_grid (z q : Z) :
  (q <= 0)%Z -> inject_Z z == inject_Z (z * 2 ^ (- q)) * pow2 q.
Proof.
  intros Hq. rewrite inject_Z_mult, <- (pow2_Z (- q)) by lia.
  rewrite <- Qmult_assoc, (Qmult_comm (pow2 (- q))), pow2_inv. ring.
Qed.

Lemma nearest_Z (z : Z) :
  (Z.abs z < 2 ^ 53)%Z -> nearest (inject_Z z) == inject_Z z.
Proof.
  intros H. destruct (Z.eq_dec z 0) as [->|Hz].
  - apply nearest_zero. reflexivity.
  - pose proof (ilog2_Z_range z ltac:(lia)) as He.
    unfold nearest. apply (on_grid_fixed _ _ (z * 2 ^ (- ulp_exponent (inject_Z z)))).
    apply Z_on_grid. unfold ulp_exponent. lia.
Qed.

Lemma representable_Z (z : Z) :
  (Z.abs z < 2 ^ 53)%Z -> representable (inject_Z z) = true.
Proof.
  intros H. apply representable_spec. split; [now apply nearest_Z |].
  change (Qabs (inject_Z z)) with (inject_Z (Z.abs z)).
  apply Qlt_le_trans with (pow2 53).
  - rewrite (pow2_Z 53) by lia. now rewrite <- Zlt_Qlt.
  - apply pow2_le. lia.
Qed.

Lemma round_Z (z : Z) :
  (Z.abs z < 2 ^ 53)%Z -> round (inject_Z z) = Finite (inject_Z z).
Proof.
  intros H. rewrite (round_representable _ (representable_Z z H)).
  now rewrite Qred_inject_Z.
Qed.

(** *** The numbers next to 1 and next to an integer *)

Lemma ilog2_one_le (x : Q) : 1 <= x -> (0 <= ilog2 x)%Z.
Proof.
  intros H. assert (Hx : ~ x == 0) by lra.
  destruct (ilog2_spec x Hx) as [_ S2].
  rewrite (Qabs_pos x) in S2 by lra.
  assert (0 < ilog2 x + 1)%Z; [| lia].
  apply pow2_lt_inv. change (pow2 0) with 1. lra.
Qed.

Lemma representable_above_one (p : Q) :
  representable p = true -> 1 < p -> 1 + pow2 (-52) <= p.
Proof.
  intros Hr Hp. apply representable_spec in Hr. destruct Hr as [Hn _].
  pose proof (ilog2_one_le p ltac:(lra)) as He.
  unfold nearest, on_grid in Hn.
  set (q := ulp_exponent p) in *.
  set (k := nearest_even (p / pow2 q)) in *.
  assert (Hq : (-52 <= q)%Z) by (subst q; unfold ulp_exponent; lia).
  assert (E52 : pow2 q == inject_Z (2 ^ (q + 52)) * pow2 (-52)).
  { rewrite <- (pow2_Z (q + 52)) by lia. rewrite <- pow2_add.
    now replace (q + 52 + -52)%Z with q by lia. }
  assert (Ep : p == inject_Z (k * 2 ^ (q + 52)) * pow2 (-52)).
  { rewrite <- Hn, E52, inject_Z_mult. ring. }
  pose proof (pow2_pos (-52)) as Hu.
  assert (E1 : 1 == inject_Z (2 ^ 52) * pow2 (-52)).
  { rewrite <- (pow2_Z 52) by lia. now rewrite pow2_inv. }
  assert (Hk : (2 ^ 52 < k * 2 ^ (q + 52))%Z).
  { rewrite Zlt_Qlt.
    apply (Qmult_lt_r _ _ (pow2 (-52)) Hu). rewrite <- Ep, <- E1. exact Hp. }
  assert (Hk' : inject_Z (2 ^ 52 + 1) <= inject_Z (k * 2 ^ (q + 52))).
  { rewrite <- Zle_Qle. lia. }
  rewrite Ep.
  apply (Qmult_le_compat_r _ _ (pow2 (-52))) in Hk'; [| lra].
  rewrite inject_Z_plus in Hk'. change (inject_Z 1) with 1 in Hk'.
  rewrite E1 at 1. lra.
Qed.

Lemma nearest_above (n : Z) (x : Q) :
  (1 <= n < 2 ^ 53)%Z ->
  inject_Z n * (1 + pow2 (-52)) <= x ->
  inject_Z n < nearest x.
Proof.
  intros Hn Hx.
  pose proof (ilog2_Z_range n ltac:(lia)) as Hen.
  set (en := ilog2 (inject_Z n)) in *.
  assert (Hn0 : ~ inject_Z n == 0).
  { apply inject_Z_nonzero. lia. }
  destruct (ilog2_spec _ Hn0) as [N1 N2]. fold en in N1, N2.
  assert (Hnq : 1 <= inject_Z n).
  { change 1 with (inject_Z 1). rewrite <- Zle_Qle. lia. }
  rewrite (Qabs_pos (inject_Z n)) in N1, N2 by lra.
  pose proof (pow2_pos (-52)) as Hu.
  assert (Hstep : pow2 (en - 52) <= inject_Z n * pow2 (-52)).
  { replace (en - 52)%Z with (en + -52)%Z by lia. rewrite pow2_add.
    apply Qmult_le_compat_r; [exact N1 | lra]. }
  pose proof (pow2_pos (en - 52)) as Hs.
  assert (Hg : inject_Z n + pow2 (en - 52) <= x) by lra.
  assert (Hxpos : 0 < x) by lra.
  assert (Hx0 : ~ x == 0) by lra.
  destruct (ilog2_spec x Hx0) as [X1 X2].
  rewrite (Qabs_pos x) in X1, X2 by lra.
  assert (Hex : (en <= ilog2 x)%Z).
  { apply ilog2_mono; [exact Hn0 |].
    rewrite (Qabs_pos x), (Qabs_pos (inject_Z n)) by lra. lra. }
  unfold nearest.
  assert (Hq : ulp_exponent x = (ilog2 x - 52)%Z)
    by (unfold ulp_exponent; lia).
  rewrite Hq.
  destruct (Z.eq_dec (ilog2 x) en) as [E|Hne].
  - rewrite E.
    assert (Eg : inject_Z n + pow2 (en - 52)
                 == inject_Z (n * 2 ^ (- (en - 52)) + 1) * pow2 (en - 52)).
    { rewrite inject_Z_plus. change (inject_Z 1) with 1.
      rewrite (Z_on_grid n (en - 52)) at 1 by lia. ring. }
    apply Qlt_le_trans with (inject_Z n + pow2 (en - 52)); [lra |].
    rewrite Eg. apply on_grid_ge. rewrite <- Eg. exact Hg.
  - apply Qlt_le_trans with (pow2 (ilog2 x)).
    + apply Qlt_le_trans with (pow2 (en + 1)); [exact N2 |].
      apply pow2_le. lia.
    + rewrite (pow2_on_grid (ilog2 x - 52) (ilog2 x)) by lia.
      apply on_grid_ge.
      rewrite <- (pow2_on_grid (ilog2 x - 52) (ilog2 x)) by lia.
      exact X1.
Qed.

(** *** Operations on doubles *)

(** The operations agree with those that the standard library specifies
    for binary64 on the numbers of the code: the product of a level and a
    length, for the nine default levels, 0.28, 0.1, 1/3 and 2/3 and the
    lengths 1 to 100, and the percentage [(1 - s / t) * 100] for the
    counts [0 <= s <= t <= 60]. *)
Lemma operations_agree_with_binary64 :
  let int := binary64_of_Z in
  let quotient := SpecFloat.SFdiv 53%Z 1024%Z in
  let product := SpecFloat.SFmul 53%Z 1024%Z in
  let difference := SpecFloat.SFsub 53%Z 1024%Z in
  let upto n := map Z.of_nat (seq 1 n) in
  forallb
    (fun n =>
       forallb
         (fun l : Z * Z =>
            same
              (of_spec_float
                 (product (quotient (int (fst l)) (int (snd l))) (int n)))
              (mul (Finite (literal (fst l # Z.to_pos (snd l)))) (of_Z n)))
         [(0, 1); (1, 4); (1, 2); (3, 4); (9, 10); (95, 100); (99, 100);
          (995, 1000); (1, 1); (28, 100); (1, 10); (1, 3); (2, 3)]%Z)
    (upto 100%nat) = true /\
  forallb
    (fun t =>
       forallb
         (fun s =>
            same
              (of_spec_float
                 (product (difference (int 1%Z) (quotient (int s) (int t)))
                    (int 100%Z)))
              (mul (sub (of_Z 1) (div (of_Z s) (of_Z t))) (of_Z 100)))
         (0%Z :: upto (Z.to_nat t)))
    (upto 60%nat) = true.
Proof. vm_compute. split; reflexivity. Qed.

Lemma round_comp (x y : Q) : x == y -> round x = round y.
Proof.
  intros H. pose proof (nearest_comp x y H) as E. unfold round.
  assert (H1 : Qle_bool (pow2 1024) (Qabs (nearest x))
               = Qle_bool (pow2 1024) (Qabs (nearest y))) by now rewrite E.
  assert (H2 : Qle_bool 0 (nearest x) = Qle_bool 0 (nearest y))
    by now rewrite E.
  rewrite H1, H2, (Qred_complete _ _ E). reflexivity.
Qed.

Lemma round_between (x : Q) (lo hi : Z) :
  (Z.abs lo < 2 ^ 53)%Z -> (Z.abs hi < 2 ^ 53)%Z ->
  inject_Z lo <= x -> x <= inject_Z hi ->
  exists y, round x = Finite y /\ inject_Z lo <= y /\ y <= inject_Z hi.
Proof.
  intros Hlo Hhi H1 H2.
  pose proof (nearest_mono _ _ H1) as N1. rewrite (nearest_Z lo Hlo) in N1.
  pose proof (nearest_mono _ _ H2) as N2. rewrite (nearest_Z hi Hhi) in N2.
  assert (B : Qabs (nearest x) < pow2 1024).
  { apply Qlt_le_trans with (pow2 53); [| apply pow2_le; lia].
    rewrite (pow2_Z 53) by lia.
    assert (L : inject_Z (- 2 ^ 53) < inject_Z lo) by (rewrite <- Zlt_Qlt; lia).
    assert (U : inject_Z hi < inject_Z (2 ^ 53)) by (rewrite <- Zlt_Qlt; lia).
    rewrite inject_Z_opp in L.
    apply Qabs_Qlt_condition. split; lra. }
  exists (Qred (nearest x)). split; [now apply round_finite |].
  rewrite Qred_correct. split; assumption.
Qed.

Lemma index_Z {A} (a : list A) (k : Z) :
  index a (Finite (inject_Z k)) = js_index a k.
Proof.
  unfold index. rewrite Qfloor_Z.
  now rewrite (proj2 (Qeq_bool_iff _ _) (Qeq_refl (inject_Z k))).
Qed.

Lemma sub_one (c : Z) :
  sub (Finite (inject_Z c)) (of_Z 1) = round (inject_Z (c - 1)).
Proof.
  unfold sub, of_Z. apply round_comp.
  unfold Z.sub. rewrite inject_Z_plus, inject_Z_opp. reflexivity.
Qed.

(** An index below 0 or from the length on selects nothing. *)
Lemma index_outside {A} (a : list A) (c : Z) :
  (Z.of_nat (List.length a) < 2 ^ 53)%Z ->
  (c <= 0 \/ Z.of_nat (List.length a) < c)%Z ->
  index a (sub (Finite (inject_Z c)) (of_Z 1)) = None.
Proof.
  intros Hn Hc. rewrite sub_one.
  destruct (round_cases (inject_Z (c - 1))) as [[E B] | [[E _] | [E _]]];
    rewrite E; [| reflexivity | reflexivity].
  unfold index. destruct (Qeq_bool _ _); [| reflexivity].
  rewrite (Qfloor_comp _ _ (Qred_correct _)).
  unfold js_index. destruct Hc as [Hc|Hc].
  - assert (H : nearest (inject_Z (c - 1)) <= inject_Z (-1)).
    { rewrite <- (nearest_Z (-1)) by (cbn; lia).
      apply nearest_mono. rewrite <- Zle_Qle. lia. }
    apply Qfloor_resp_le in H. rewrite Qfloor_Z in H.
    destruct (Z.ltb_spec (Qfloor (nearest (inject_Z (c - 1)))) 0);
      [reflexivity | lia].
  - assert (H : inject_Z (Z.of_nat (List.length a))
                <= nearest (inject_Z (c - 1))).
    { rewrite <- (nearest_Z (Z.of_nat (List.length a))) by lia.
      apply nearest_mono. rewrite <- Zle_Qle. lia. }
    apply Qfloor_resp_le in H. rewrite Qfloor_Z in H.
    destruct (_ <? 0)%Z; [reflexivity |].
    apply nth_error_None. lia.
Qed.

(** An index from 1 to the length selects an element. *)
Lemma index_inside {A} (a : list A) (c : Z) :
  (Z.of_nat (List.length a) < 2 ^ 53)%Z ->
  (1 <= c <= Z.of_nat (List.length a))%Z ->
  index a (sub (Finite (inject_Z c)) (of_Z 1))
  = nth_error a (Z.to_nat (c - 1)).
Proof.
  intros Hn Hc. rewrite sub_one, round_Z by lia. rewrite index_Z.
  unfold js_index. destruct (Z.ltb_spec (c - 1) 0); [lia | reflexivity].
Qed.

End Rounding.

(** ** Aggregation of the latency samples *)

Lemma insert_perm (x : Z) (l : list Z) : Permutation (Stats.insert x l) (x :: l).
Proof.
  induction l as [|y l IH]; cbn; [reflexivity |].
  destruct (x <=? y); [reflexivity |].
  rewrite IH; apply perm_swap.
Qed.

Lemma sort_perm (l : list Z) : Permutation (Stats.sort l) l.
Proof.
  induction l as [|x l IH]; cbn; [constructor |].
  fold (Stats.sort l). rewrite insert_perm. now constructor.
Qed.




Lemma accumulate_samples (buckets : list Bucket.t) :
  forall acc l,
    TotalStats.requestTimes acc = Some l ->
    TotalStats.requestTimes (fold_left (Stats.accumulate true) buckets acc)
    = Some (l ++ Stats.window_samples buckets).
Proof.
  induction buckets as [|b bs IH]; intros acc l Hl; cbn.
  - now rewrite app_nil_r.
  - unfold Stats.window_samples; cbn. rewrite app_assoc.
    apply IH. cbn. now rewrite Hl.
Qed.

Lemma accumulate_percentiles (flag : bool) (buckets : list Bucket.t) :
  forall acc,
    TotalStats.percentiles (fold_left (Stats.accumulate flag) buckets acc)
    = TotalStats.percentiles acc.
Proof.
  induction buckets as [|b bs IH]; intros acc; cbn; [reflexivity |].
  now rewrite IH.
Qed.

Lemma Qeq_bool_trans_l (k p q : Q) :
  Qeq_bool k p = true -> Qeq_bool k q = Qeq_bool p q.
Proof.
  intros H; apply Qeq_bool_iff in H.
  destruct (Qeq_bool p q) eqn:E.
  - apply Qeq_bool_iff in E. apply Qeq_bool_iff. now rewrite H.
  - destruct (Qeq_bool k q) eqn:E'; [| reflexivity].
    apply Qeq_bool_iff in E'. rewrite H in E'.
    apply Qeq_bool_iff in E'. congruence.
Qed.

Lemma get_set (p q : Q) (v : Z) (o : Percentiles) :
  percentiles_get q (percentiles_set p v o) =
  if Qeq_bool p q then Some v else percentiles_get q o.
Proof.
  induction o as [|[k w] o IH]; cbn.
  - reflexivity.
  - destruct (Qeq_bool k p) eqn:Ekp; cbn.
    + rewrite (Qeq_bool_trans_l _ _ _ Ekp).
      destruct (Qeq_bool p q); reflexivity.
    + rewrite IH. destruct (Qeq_bool k q) eqn:Ekq; [| reflexivity].
      destruct (Qeq_bool p q) eqn:Epq; [| reflexivity].
      apply Qeq_bool_iff in Ekq, Epq.
      assert (Qeq_bool k p = true) by (apply Qeq_bool_iff; now rewrite Ekq, Epq).
      congruence.
Qed.

Lemma calculatePercentile_Qeq (p q : Q) (a : list Z) :
  Qeq_bool p q = true ->
  Stats._calculatePercentile p a = Stats._calculatePercentile q a.
Proof.
  intros H. unfold Stats._calculatePercentile.
  rewrite <- (Qeq_bool_trans_l _ _ 0%Q (proj2 (Qeq_bool_iff _ _)
                (Qeq_sym _ _ (proj1 (Qeq_bool_iff _ _) H)))).
  apply Qeq_bool_iff in H.
  destruct (Qeq_bool q 0); [reflexivity |].
  unfold Double.mul, Double.of_Z.
  rewrite (round_comp (p * inject_Z (Z.of_nat (List.length a)))
             (q * inject_Z (Z.of_nat (List.length a)))); [reflexivity |].
  now rewrite H.
Qed.

Lemma fill_get (a : list Z) (q : Q) (ps : list Q) :
  forall o,
    percentiles_get q (Stats.fill_percentiles ps a o) =
    if existsb (fun p => Qeq_bool p q) ps
    then Some (or_zero (Stats._calculatePercentile q a))
    else percentiles_get q o.
Proof.
  unfold Stats.fill_percentiles.
  induction ps as [|p ps IH]; intros o; cbn; [reflexivity |].
  rewrite IH, get_set.
  destruct (Qeq_bool p q) eqn:E; cbn.
  - rewrite (calculatePercentile_Qeq _ _ a E).
    destruct (existsb _ ps); reflexivity.
  - reflexivity.
Qed.

Lemma existsb_Qeq_In (q : Q) (ps : list Q) :
  In q ps -> existsb (fun p => Qeq_bool p q) ps = true.
Proof.
  intros H; apply existsb_exists; exists q; split; [exact H |].
  apply Qeq_bool_iff; reflexivity.
Qed.

(** What [_generateStats(buckets, true)] computes, whatever the state of
    the [Stats]. *)
Lemma generateStats_true (h : Heap) (s : Stats.t) (buckets : list Bucket.t) :
  let a := Stats.sort (Stats.window_samples buckets) in
  let d := Stats._totals
             (snd (exec_state (Stats._generateStats buckets true) (h, s))) in
  completion (Stats._generateStats buckets true) (h, s) = Normal d /\
  TotalStats.latencyMean d = or_zero (Stats._calculateMean a) /\
  TotalStats.percentiles d =
    Stats.fill_percentiles (Stats.percentiles (Stats._opts s)) a [] /\
  TotalStats.requestTimes d = None.
Proof.
  intros a d; subst a d.
  unfold completion, exec_state, Stats._generateStats; cbn.
  unfold Stats.samples, Stats.sort_requestTimes; cbn.
  rewrite (accumulate_samples buckets Stats.initial_totals [] eq_refl).
  rewrite accumulate_percentiles; cbn.
  destruct (Stats._cumulative s); cbn; repeat split; reflexivity.
Qed.



(** ** The copy of the lifetime counters *)

Lemma accumulate_cumulative (flag : bool) (f : CumulativeStats.field)
  (buckets : list Bucket.t) :
  forall acc,
    TotalStats.cumulative f (fold_left (Stats.accumulate flag) buckets acc)
    = TotalStats.cumulative f acc.
Proof.
  induction buckets as [|b bs IH]; intros acc; cbn; [reflexivity |].
  rewrite IH. destruct f; reflexivity.
Qed.

(** The shape of every result of [_generateStats]: [requestTimes] is
    deleted, and the counters copied are those of the object that
    [_cumulative] refers to, if it refers to one. *)
Lemma generateStats_result (h : Heap) (s : Stats.t) (buckets : list Bucket.t)
  (includeLatencyStats : bool) :
  let d := Stats._totals
             (snd (exec_state
                     (Stats._generateStats buckets includeLatencyStats)
                     (h, s))) in
  Stats._generateStats buckets includeLatencyStats (h, s) =
    ((h, Stats.set_totals d s), Normal d) /\
  TotalStats.requestTimes d = None /\
  forall f : CumulativeStats.field,
    TotalStats.cumulative f d =
    option_map (fun r => CumulativeStats.get f (h r)) (Stats._cumulative s).
Proof.
  unfold exec_state, Stats._generateStats; cbn.
  destruct (Stats._cumulative s); cbn;
    (split; [reflexivity | split; [reflexivity |]]);
    intros f; [destruct f; reflexivity |].
  pose proof (accumulate_cumulative includeLatencyStats f buckets
                Stats.initial_totals) as H.
  destruct includeLatencyStats; destruct f; cbn in H |- *; exact H.
Qed.


(** ** The threshold check *)

Section BrakesFacts.

Import Brakes.

Lemma ratio_below_iff (a b : Z) (c : Q) :
  ratio_below a b c = true <-> b <> 0 /\ (inject_Z a / inject_Z b < c)%Q.
Proof.
  unfold ratio_below. destruct (Z.eqb_spec b 0) as [->|Hb].
  - split; [discriminate | intros [H _]; now elim H].
  - rewrite negb_true_iff. split.
    + intros H; split; [exact Hb |].
      apply Qnot_le_lt. intros Hle. apply Qle_bool_iff in Hle. congruence.
    + intros [_ H]. destruct (Qle_bool c _) eqn:E; [| reflexivity].
      apply Qle_bool_iff in E. now apply Qlt_not_le in H.
Qed.

Lemma open_when_open (w : World) :
  _circuitOpen (brakes w) = true -> _open w = (w, Normal tt).
Proof.
  intros H. unfold _open, bind, gets. cbn. now rewrite H.
Qed.

Lemma open_when_closed (w : World) :
  _circuitOpen (brakes w) = false ->
  let w' := exec_state _open w in
  completion _open w = Normal tt /\
  _circuitOpen (brakes w') = true /\
  _circuitGeneration (brakes w') = _circuitGeneration (brakes w) + 1 /\
  emitted w' = emitted w ++ [CircuitOpen] /\
  heap w' = heap w /\
  instance w' = instance w /\
  _stats (brakes w') = _stats (brakes w) /\
  _opts (brakes w') = _opts (brakes w) /\
  _events (brakes w') = _events (brakes w) /\
  _masterCircuit (brakes w') = _masterCircuit (brakes w).
Proof.
  destruct w as [h g fns c b e]; destruct b; cbn; intros ->.
  unfold completion, exec_state, _open, bind, gets; cbn.
  destruct _healthCheck0; cbn; [destruct _healthInterval0 |];
    cbn; repeat split; reflexivity.
Qed.

Lemma checkStats_eq (d : TotalStats.t) (w : World) :
  _checkStats d w =
  if (TotalStats.total d >? waitThreshold (_opts (brakes w)))
     && negb (TotalStats.total d =? 0)
     && negb (_circuitOpen (brakes w))
     && ratio_below (TotalStats.successful d) (TotalStats.total d)
          (threshold (_opts (brakes w)))
  then _open w
  else (w, Normal tt).
Proof.
  unfold _checkStats, bind, gets; cbv beta iota.
  destruct (_ >? _), (_ =? 0), (_circuitOpen (brakes w)), (ratio_below _ _ _);
    reflexivity.
Qed.

End BrakesFacts.

(** ** What the constructors build *)

Lemma Stats_new_eq (opts : Stats.PartialOpts) (h : Heap) :
  fst (Stats.new opts h) = h /\
  Stats._cumulative (snd (Stats.new opts h)) = None /\
  Stats._opts (snd (Stats.new opts h)) = Stats.assign_options opts /\
  Stats._buckets (snd (Stats.new opts h)) =
    repeat (Bucket.new None)
      (Z.to_nat (Stats.bucketNum (Stats.assign_options opts))).
Proof.
  unfold Stats.new, exec_state, bind, Stats._startBucketSpinning, modify,
    Stats.generate_own, Stats._generateStats.
  cbn. repeat split; reflexivity.
Qed.

Section ConstructorFacts.

Import Brakes.

Lemma Brakes_new_fields (object_id : nat) (func : option Fn)
  (opts : UserOptions) (h : Heap) (g : GlobalStats.t) (fns : nat) (now : Z) :
  let w := Brakes.new object_id func opts h g fns now in
  _circuitOpen (brakes w) = false /\
  _circuitGeneration (brakes w) = 1 /\
  _opts (brakes w) = assign_options opts /\
  emitted w = [] /\
  heap w = h /\
  Stats._cumulative (_stats (brakes w)) = None /\
  (func = None -> _masterCircuit (brakes w) = None) /\
  (forall f, func = Some f ->
     exists c, _masterCircuit (brakes w) = Some c /\
               Circuit._fallback c = opts_fallback (assign_options opts)) /\
  _fallback (brakes w) = opts_fallback (assign_options opts) /\
  name (brakes w) = opts_name (assign_options opts) /\
  Stats._buckets (_stats (brakes w)) =
    repeat (Bucket.new None)
      (Z.to_nat (Stats.bucketNum (Stats.assign_options (stats_options opts)))).
Proof.
  unfold Brakes.new.
  destruct (Stats_new_eq (stats_options opts) h) as (Hh & Hc & _ & Hb).
  destruct (Stats.new (stats_options opts) h) as [h' stats]; cbn in Hh, Hc, Hb.
  subst h'.
  destruct opts as [? ? ? ? ? ? ? ? ? ? ? ? ? rg hc fb].
  unfold exec_state, bind, _attachListeners, _stats_startSnapshots,
    Stats.startSnapshots, this, zoom, modify, healthCheck,
    fallback, ret.
  destruct rg as [[|]|], hc, fb, func; cbn;
    repeat split; auto; try discriminate;
    intros f' _; eexists; split; reflexivity.
Qed.

End ConstructorFacts.

Section ThresholdCheck.

Import Brakes.

Lemma update_event_eq (d : TotalStats.t) (w : World) :
  stats_emit "update" d w =
  _checkStats d (exec_state (record_event (StatsUpdate d)) w).
Proof. reflexivity. Qed.

(** What an [update] event does to the breaker. *)
Lemma update_event_spec :
  forall (w : World) (d : TotalStats.t),
      let b := brakes w in
      let w' := exec_state (stats_emit "update" d) w in
      completion (stats_emit "update" d) w = Normal tt /\
      ((_circuitOpen b = false /\ _circuitOpen (brakes w') = true) <->
       (waitThreshold (_opts b) < TotalStats.total d /\
        _circuitOpen b = false /\
        TotalStats.total d <> 0 /\
        (inject_Z (TotalStats.successful d) / inject_Z (TotalStats.total d)
         < threshold (_opts b))%Q)) /\
      (_circuitOpen b = false -> _circuitOpen (brakes w') = true ->
       _circuitGeneration (brakes w') = _circuitGeneration b + 1 /\
       emitted w' = emitted w ++ [StatsUpdate d; CircuitOpen]) /\
      (_circuitOpen (brakes w') = _circuitOpen b ->
       brakes w' = b /\ emitted w' = emitted w ++ [StatsUpdate d]).
Proof.
  intros w d b w'. subst b.
  set (w1 := exec_state (record_event (StatsUpdate d)) w).
  assert (Hb1 : brakes w1 = brakes w) by reflexivity.
  assert (He1 : emitted w1 = emitted w ++ [StatsUpdate d]) by reflexivity.
  assert (E : stats_emit "update" d w =
              if (TotalStats.total d >? waitThreshold (_opts (brakes w)))
                 && negb (TotalStats.total d =? 0)
                 && negb (_circuitOpen (brakes w))
                 && ratio_below (TotalStats.successful d)
                      (TotalStats.total d) (threshold (_opts (brakes w)))
              then _open w1 else (w1, Normal tt)).
  { rewrite update_event_eq, checkStats_eq. reflexivity. }
  unfold w', completion, exec_state. rewrite E. clear E.
  destruct (_ && _) eqn:C.
  + apply andb_true_iff in C; destruct C as [C Hr].
    apply andb_true_iff in C; destruct C as [C Ho].
    apply andb_true_iff in C; destruct C as [Ht Hz].
    apply Z.gtb_lt in Ht. apply negb_true_iff in Hz, Ho.
    apply Z.eqb_neq in Hz. apply ratio_below_iff in Hr.
    assert (Hc1 : _circuitOpen (brakes w1) = false) by (rewrite Hb1; exact Ho).
    destruct (open_when_closed w1 Hc1)
      as (Hn & Hopen & Hgen & Hem & _ & _ & _ & _ & _ & _).
    unfold completion, exec_state in *.
    split; [exact Hn |].
    split; [| split].
    * split; intros _; [| split; assumption].
      repeat split; try assumption; apply Hr.
    * intros _ _. rewrite Hgen, Hem, He1, Hb1, <- app_assoc.
      split; reflexivity.
    * rewrite Hopen, Ho. discriminate.
  + cbn. split; [reflexivity |].
    split; [| split].
    * split.
      -- intros [H1 H2]; congruence.
      -- intros (Ht & Ho & Hz & Hr). exfalso.
         assert (ratio_below (TotalStats.successful d) (TotalStats.total d)
                   (threshold (_opts (brakes w))) = true)
           by (apply ratio_below_iff; split; assumption).
         apply Z.gtb_lt in Ht. apply Z.eqb_neq in Hz.
         rewrite Ht, Hz, Ho, H in C. discriminate.
    * intros H1 H2; congruence.
    * intros _. split; [reflexivity | exact He1].
Qed.

(** On every [update] event of its [Stats] the breaker opens exactly
    when the window total is strictly greater than [waitThreshold], the
    circuit is not already open, and [successful / total] (a number only
    when [total] is not 0) is below [threshold]; opening adds one to
    [circuitGeneration] and emits [circuitOpen], and an update that does
    not open leaves the breaker as it was.  With [waitThreshold = 4] and
    [threshold = 0.5], the updates of S, F, F, F, F (totals 1 to 5,
    always one success) leave the breaker closed after the fourth and
    open it at the fifth: [circuitGeneration] goes from 1 to 2 and
    [circuitClosed] is not emitted. *)
Lemma checkStats_opens_exactly_when :
  (forall (w : World) (d : TotalStats.t),
      let b := brakes w in
      let w' := exec_state (stats_emit "update" d) w in
      completion (stats_emit "update" d) w = Normal tt /\
      ((_circuitOpen b = false /\ _circuitOpen (brakes w') = true) <->
       (waitThreshold (_opts b) < TotalStats.total d /\
        _circuitOpen b = false /\
        TotalStats.total d <> 0 /\
        (inject_Z (TotalStats.successful d) / inject_Z (TotalStats.total d)
         < threshold (_opts b))%Q)) /\
      (_circuitOpen b = false -> _circuitOpen (brakes w') = true ->
       _circuitGeneration (brakes w') = _circuitGeneration b + 1 /\
       emitted w' = emitted w ++ [StatsUpdate d; CircuitOpen]) /\
      (_circuitOpen (brakes w') = _circuitOpen b ->
       brakes w' = b /\ emitted w' = emitted w ++ [StatsUpdate d])) /\
  (forall (func : option Fn) (d1 d2 d3 d4 d5 : TotalStats.t),
      let w0 := Scenario.fresh func Scenario.open_on_threshold in
      let w4 :=
        exec_state
          (stats_emit "update" d1 ;; stats_emit "update" d2 ;;
           stats_emit "update" d3 ;; stats_emit "update" d4) w0 in
      let w5 := exec_state (stats_emit "update" d5) w4 in
      TotalStats.total d1 = 1 /\ TotalStats.successful d1 = 1 ->
      TotalStats.total d2 = 2 /\ TotalStats.successful d2 = 1 ->
      TotalStats.total d3 = 3 /\ TotalStats.successful d3 = 1 ->
      TotalStats.total d4 = 4 /\ TotalStats.successful d4 = 1 ->
      TotalStats.total d5 = 5 /\ TotalStats.successful d5 = 1 ->
      _circuitOpen (brakes w0) = false /\
      _circuitGeneration (brakes w0) = 1 /\
      _circuitOpen (brakes w4) = false /\
      _circuitGeneration (brakes w4) = 1 /\
      _circuitOpen (brakes w5) = true /\
      _circuitGeneration (brakes w5) = 2 /\
      emitted w5 =
        [StatsUpdate d1; StatsUpdate d2; StatsUpdate d3; StatsUpdate d4;
         StatsUpdate d5; CircuitOpen] /\
      ~ In CircuitClosed (emitted w5)).
Proof.
  split.
  - exact update_event_spec.
  - intros func d1 d2 d3 d4 d5 w0 w4 w5.
    destruct d1, d2, d3, d4, d5;
      cbn [TotalStats.total TotalStats.successful].
    intros [-> ->] [-> ->] [-> ->] [-> ->] [-> ->].
    subst w5 w4 w0. destruct func; vm_compute;
      (repeat split; try reflexivity);
      intros H; repeat (destruct H as [H | H]; [discriminate H |]); exact H.
Qed.

End ThresholdCheck.

Section ThresholdCheckZero.

Import Brakes.

(** C7, as the code has it.  With [waitThreshold = 0], the update of a
    first failure alone (window total 1, no success, circuit closed)
    opens the breaker for every threshold above 0: the total 1 is
    strictly greater than 0, and the ratio 0 is below the threshold. *)
Theorem first_failure_opens_at_zero_waitThreshold
  (w : World) (d : TotalStats.t) :
  waitThreshold (_opts (brakes w)) = 0 ->
  _circuitOpen (brakes w) = false ->
  TotalStats.total d = 1 ->
  TotalStats.successful d = 0 ->
  (0 < threshold (_opts (brakes w)))%Q ->
  let w' := exec_state (stats_emit "update" d) w in
  _circuitOpen (brakes w') = true /\
  _circuitGeneration (brakes w') = _circuitGeneration (brakes w) + 1 /\
  emitted w' = emitted w ++ [StatsUpdate d; CircuitOpen].
Proof.
  intros Hw Hc Ht Hs Hth w'.
  destruct (update_event_spec w d) as (_ & Hiff & Heff & _).
  assert (Ho : _circuitOpen (brakes w') = true).
  { apply Hiff. rewrite Hw, Ht, Hs. repeat split; try lia; auto. }
  split; [exact Ho |]. now apply Heff.
Qed.

Lemma first_failure_opens_at_zero_waitThreshold_witness :
  waitThreshold (_opts (brakes Scenario.zero_world)) = 0 /\
  (0 < threshold (_opts (brakes Scenario.zero_world)))%Q /\
  _circuitGeneration
    (brakes
       (exec_state (stats_emit "update" Scenario.first_failure_update)
          Scenario.zero_world)) = 2.
Proof.
  split; [reflexivity | split; [reflexivity |]].
  apply (first_failure_opens_at_zero_waitThreshold Scenario.zero_world
           Scenario.first_failure_update); reflexivity.
Defined.

(** C7, as the specification has it, fails: with [waitThreshold = 0],
    the update of a window that holds a first failure alone reports the
    total 1 and no success to a closed breaker, and opens it. *)
Lemma first_failure_alone_opens :
  waitThreshold (_opts (brakes Scenario.zero_world)) = 0 /\
  _circuitOpen (brakes Scenario.zero_world) = false /\
  TotalStats.total Scenario.first_failure_update = 1 /\
  TotalStats.successful Scenario.first_failure_update = 0 /\
  _circuitOpen
    (brakes
       (exec_state (stats_emit "update" Scenario.first_failure_update)
          Scenario.zero_world)) = true.
Proof. repeat split; reflexivity. Qed.

End ThresholdCheckZero.

(** ** The generation filter *)

Section GenerationFilter.

Import Brakes Invocation.

Lemma stale_handlers_return (w : World) (ms g : Z) :
  g <> _circuitGeneration (brakes w) ->
  _timeoutHandler ms g w = (w, Normal tt) /\
  _failureHandler ms g w = (w, Normal tt).
Proof.
  intros H. apply Z.eqb_neq in H.
  unfold _timeoutHandler, _failureHandler, bind, gets; cbv beta iota.
  rewrite H. split; reflexivity.
Qed.

Lemma stale_listeners_return (o : Outcome) (ls : list EventEmitter.Listener) :
  forall w : World,
    (forall ms err g, o = OTimeout ms err g \/ o = OFailure ms err g ->
                      g <> _circuitGeneration (brakes w)) ->
    (forall ms, o <> OSuccess ms) ->
    for_each (fun l => call_listener l o) ls w = (w, Normal tt).
Proof.
  induction ls as [|l ls IH]; intros w Hg Hs; [reflexivity |].
  cbn [for_each].
  assert (E : call_listener l o w = (w, Normal tt)).
  { destruct l, o; try reflexivity; cbn.
    - now elim (Hs ms).
    - apply stale_handlers_return. eapply Hg; eauto.
    - apply stale_handlers_return. eapply Hg; eauto. }
  rewrite (bind_normal _ _ _ _ _ E). now apply IH.
Qed.

Lemma index_of_update {A} (l : list A) (i : Z) (b b' : A) :
  js_index l i = Some b ->
  js_index (firstn (Z.to_nat i) l ++ b' :: skipn (S (Z.to_nat i)) l) i
  = Some b'.
Proof.
  unfold js_index. destruct (i <? 0); [discriminate |].
  intros H.
  assert (Hlt : (Z.to_nat i < List.length l)%nat)
    by (apply nth_error_Some; congruence).
  rewrite nth_error_app2; rewrite length_firstn; [| lia].
  replace (Z.to_nat i - Nat.min (Z.to_nat i) (List.length l))%nat with O
    by lia.
  reflexivity.
Qed.

Lemma success_counts (ms : Z) (h : Heap) (b : Bucket.t) :
  Bucket.total (snd (fst (Bucket.success ms (h, b)))) = Bucket.total b + 1.
Proof. destruct b as [f s t sc to rts [r|]]; reflexivity. Qed.

(** [_update] leaves the window as it is. *)
Lemma update_keeps_window (w : World) :
  let w' := fst (Stats._update stats_view stats_update stats_emit w) in
  Stats._buckets (_stats (brakes w')) = Stats._buckets (_stats (brakes w)) /\
  Stats._activePosition (_stats (brakes w'))
  = Stats._activePosition (_stats (brakes w)).
Proof.
  unfold Stats._update.
  destruct (generateStats_result (heap w) (_stats (brakes w))
              (Stats._buckets (_stats (brakes w))) false) as (E & _ & _).
  set (d := Stats._totals _) in E.
  assert (E1 : zoom stats_view stats_update (Stats.generate_own false) w
               = (stats_update (heap w, Stats.set_totals d (_stats (brakes w)))
                    w, Normal d)).
  { apply zoom_eq. unfold stats_view, Stats.generate_own. exact E. }
  rewrite (bind_normal _ _ _ _ _ E1).
  set (w1 := stats_update _ w).
  rewrite update_event_eq, checkStats_eq.
  set (w2 := exec_state (record_event (StatsUpdate d)) w1).
  destruct (_ && _) eqn:C; [| split; reflexivity].
  apply andb_true_iff in C; destruct C as [C _].
  apply andb_true_iff in C; destruct C as [_ Ho].
  apply negb_true_iff in Ho.
  destruct (open_when_closed w2 Ho) as (_ & _ & _ & _ & _ & _ & Hs & _).
  unfold exec_state in Hs. cbn zeta. rewrite Hs. split; reflexivity.
Qed.

(** C1, as the code has it.  A [timeout] or a [failure] event whose
    [execGeneration] is not the current [circuitGeneration] is dropped:
    the emission returns, and all it leaves behind is the record of the
    event; heap, breaker, [Stats] and registry are as before.  A
    [success] event carries no generation: on a breaker with the listener
    of [_attachListeners], it runs [Stats.success] whatever the
    generation of its call, and the total of the active bucket goes up
    by one. *)
Theorem stale_timeouts_and_failures_are_dropped
  (w : World) (ms g : Z) (err : JsError) :
  g <> _circuitGeneration (brakes w) ->
  emit_outcome (OTimeout ms err g) w =
    (exec_state (record_event (Timeout ms err g)) w, Normal tt) /\
  emit_outcome (OFailure ms err g) w =
    (exec_state (record_event (Failure ms err g)) w, Normal tt) /\
  (EventEmitter.listeners "success" (_events (brakes w))
   = [EventEmitter.SuccessListener] ->
   emit_outcome (OSuccess ms) w =
     (record_event (Success ms) ;; _stats_success ms) w /\
   forall b : Bucket.t,
     Stats._activeBucket (_stats (brakes w)) = Some b ->
     option_map Bucket.total
       (Stats._activeBucket
          (_stats (brakes (exec_state (emit_outcome (OSuccess ms)) w))))
     = Some (Bucket.total b + 1)).
Proof.
  intros Hg.
  split; [| split].
  - unfold emit_outcome, bind, record_event, modify, gets, exec_state.
    cbv beta iota. cbn [fst]. apply stale_listeners_return.
    + intros ms' err' g' [E | E]; inversion E; subst; exact Hg.
    + discriminate.
  - unfold emit_outcome, bind, record_event, modify, gets, exec_state.
    cbv beta iota. cbn [fst]. apply stale_listeners_return.
    + intros ms' err' g' [E | E]; inversion E; subst; exact Hg.
    + discriminate.
  - intros Hl.
    assert (E : emit_outcome (OSuccess ms) w =
                (record_event (Success ms) ;; _stats_success ms) w).
    { unfold emit_outcome, bind, record_event, modify, gets.
      cbv beta iota. cbn [brakes outcome_name outcome_event]. rewrite Hl.
      cbn [for_each call_listener]. unfold _successHandler, bind, ret.
      destruct (_stats_success ms _) as [w' [[]|e]]; reflexivity. }
    split; [exact E |].
    intros b Hb. unfold exec_state. rewrite E.
    unfold bind at 1. unfold record_event at 1. unfold modify at 1.
    cbv beta iota.
    set (w1 := mkWorld _ _ _ _ _ _).
    assert (Hb1 : Stats._activeBucket (_stats (brakes w1)) = Some b)
      by exact Hb.
    unfold _stats_success, Stats.success, bind.
    unfold zoom at 1. unfold stats_view at 1. unfold Stats.on_activeBucket.
    rewrite Hb1.
    pose proof (success_counts ms (heap w1) b) as Hc.
    destruct (Bucket.success ms (heap w1, b)) as [[h' b'] r]. cbn in Hc.
    set (s' := Stats.set_buckets _ _).
    assert (Ha : Stats._activeBucket s' = Some b').
    { subst s'. unfold Stats._activeBucket. cbn.
      apply (index_of_update _ _ b). exact Hb1. }
    destruct r as [[]|e].
    + destruct (update_keeps_window (stats_update (h', s') w1)) as [H1 H2].
      cbn zeta in H1, H2.
      unfold Stats._activeBucket in *. rewrite H1, H2.
      cbn [stats_update brakes _stats set_stats fst snd].
      cbn in Ha |- *. rewrite Ha. cbn. now rewrite Hc.
    + cbn. unfold Stats._activeBucket in *. cbn in Ha |- *.
      rewrite Ha. cbn. now rewrite Hc.
Qed.

Lemma stale_timeouts_and_failures_are_dropped_witness :
  1 <> _circuitGeneration (brakes Scenario.reopened) /\
  emit_outcome (OFailure 5 (Error "boom") 1) Scenario.reopened =
    (exec_state (record_event (Failure 5 (Error "boom") 1)) Scenario.reopened,
     Normal tt) /\
  EventEmitter.listeners "success" (_events (brakes Scenario.reopened))
  = [EventEmitter.SuccessListener] /\
  Stats._activeBucket (_stats (brakes Scenario.reopened))
  = Some (Bucket.new None) /\
  option_map Bucket.total
    (Stats._activeBucket
       (_stats
          (brakes
             (exec_state (emit_outcome (OSuccess 5)) Scenario.reopened))))
  = Some (Bucket.total (Bucket.new None) + 1).
Proof.
  assert (Hg : 1 <> _circuitGeneration (brakes Scenario.reopened))
    by discriminate.
  destruct (stale_timeouts_and_failures_are_dropped Scenario.reopened 5 1
              (Error "boom") Hg) as (_ & Hf & Hs).
  split; [exact Hg |]. split; [exact Hf |].
  split; [reflexivity |]. split; [reflexivity |].
  exact (proj2 (Hs eq_refl) (Bucket.new None) eq_refl).
Defined.

(** C1, as the specification has it, fails for [success]: a call that
    started at generation 1 and succeeds when the breaker is at
    generation 2 adds one to the total of the window. *)
Lemma stale_success_is_recorded :
  _masterCircuit (brakes Scenario.default_world) = Some Scenario.master /\
  Brakes_exec [] Scenario.default_world
  = (Scenario.in_flight, Normal (Pending Scenario.stale_call)) /\
  execGeneration Scenario.stale_call = 1 /\
  _circuitGeneration (brakes Scenario.reopened) = 2 /\
  Scenario.window_total Scenario.reopened = 0 /\
  Scenario.window_total
    (exec_state
       (Circuit_settle Scenario.master Scenario.stale_call
          (Resolved Undefined))
       Scenario.reopened) = 1.
Proof. repeat split; reflexivity. Qed.

End GenerationFilter.

(** ** The snapshot tick *)

Section SnapshotTick.

Import Brakes.

Lemma snapshot_listeners_return (envelope : RawStats.t)
  (ls : list EventEmitter.Listener) :
  forall w : World,
  exists w',
    for_each
      (fun l =>
         match l with
         | EventEmitter.BoundGlobalListener _ =>
             zoom instance set_instance (GlobalStats._globalListener envelope)
         | _ => ret tt
         end) ls w = (w', Normal tt) /\
    heap w' = heap w /\ brakes w' = brakes w /\ emitted w' = emitted w.
Proof.
  induction ls as [|l ls IH]; intros w.
  - exists w; repeat split; reflexivity.
  - cbn [for_each].
    set (step := match l with
                 | EventEmitter.BoundGlobalListener _ =>
                     zoom instance set_instance
                       (GlobalStats._globalListener envelope)
                 | _ => ret tt
                 end).
    assert (Hs : exists w1, step w = (w1, Normal tt) /\ heap w1 = heap w /\
                            brakes w1 = brakes w /\ emitted w1 = emitted w).
    { subst step; destruct l;
        try (exists w; repeat split; reflexivity).
      eexists; split; [reflexivity | repeat split; reflexivity]. }
    destruct Hs as (w1 & E1 & Hh & Hb & He).
    destruct (IH w1) as (w2 & E2 & Hh2 & Hb2 & He2).
    exists w2. rewrite (bind_normal _ _ _ _ _ E1).
    repeat split; congruence.
Qed.

Lemma emit_snapshot_returns (envelope : RawStats.t) (w : World) :
  exists w',
    emit_snapshot envelope w = (w', Normal tt) /\
    heap w' = heap w /\ brakes w' = brakes w /\
    emitted w' = emitted w ++ [Snapshot envelope].
Proof.
  unfold emit_snapshot, bind, record_event, modify, gets. cbv beta iota.
  match goal with
  | |- context [for_each ?f ?ls ?w0] =>
      destruct (snapshot_listeners_return envelope ls w0)
        as (w' & E & Hh & Hb & He)
  end.
  exists w'. split; [exact E |]. repeat split; assumption.
Qed.

(** A snapshot tick on a [Stats] whose [_cumulative] is undefined. *)
Lemma snapshot_tick_undefined (w : World) :
  Stats._cumulative (_stats (brakes w)) = None ->
  let w' := exec_state snapshot_tick w in
  let d := Stats._totals (_stats (brakes w')) in
  completion snapshot_tick w = Throw (TypeError "countTotalDeriv") /\
  emitted w' =
    emitted w ++
    [StatsSnapshot d;
     Snapshot
       (RawStats.mk (name (brakes w)) (group (brakes w)) (clock w)
          (_circuitOpen (brakes w)) (circuitDuration (_opts (brakes w)))
          (threshold (_opts (brakes w))) (waitThreshold (_opts (brakes w)))
          d)] /\
  heap w' = heap w /\
  (forall f : CumulativeStats.field, TotalStats.cumulative f d = None).
Proof.
  intros Hc w' d'. subst w' d'.
  unfold snapshot_tick, _stats_snapshot, Stats._snapshot.
  destruct (generateStats_result (heap w) (_stats (brakes w))
              (Stats._buckets (_stats (brakes w))) true) as (E & _ & Hf).
  set (d := Stats._totals _) in E, Hf.
  set (w1 := stats_update (heap w, Stats.set_totals d (_stats (brakes w))) w).
  assert (E1 : zoom stats_view stats_update (Stats.generate_own true) w
               = (w1, Normal d)).
  { apply zoom_eq. unfold stats_view, Stats.generate_own. exact E. }
  set (envelope :=
         RawStats.mk (name (brakes w)) (group (brakes w)) (clock w)
           (_circuitOpen (brakes w)) (circuitDuration (_opts (brakes w)))
           (threshold (_opts (brakes w))) (waitThreshold (_opts (brakes w)))
           d).
  set (w2 := exec_state (record_event (StatsSnapshot d)) w1).
  destruct (emit_snapshot_returns envelope w2) as (w3 & E3 & Hh3 & Hb3 & He3).
  assert (E2 : stats_emit "snapshot" d w1 = (w3, Normal tt)).
  { unfold stats_emit. cbn [String.eqb Ascii.eqb Bool.eqb].
    unfold bind, record_event, modify, _snapshotHandler, gets.
    cbv beta iota. exact E3. }
  assert (E4 : zoom stats_view stats_update Stats._resetDerivs w3
               = (stats_update (stats_view w3) w3,
                  Throw (TypeError "countTotalDeriv"))).
  { apply zoom_eq. unfold stats_view, Stats._resetDerivs, bind,
      Stats.cumulative_assign.
    rewrite Hb3. cbn. rewrite Hc. reflexivity. }
  unfold completion, exec_state.
  rewrite (bind_normal _ _ _ _ _ E1), (bind_normal _ _ _ _ _ E2), E4.
  cbn [fst snd stats_update stats_view brakes emitted heap _stats set_stats].
  rewrite Hb3, Hh3, He3. cbn.
  repeat split; try reflexivity.
  - rewrite <- app_assoc. reflexivity.
  - intros f. rewrite Hf, Hc. reflexivity.
Qed.


End SnapshotTick.

(** ** Short circuits *)

Section ShortCircuit.

Import Brakes Invocation.

Lemma shortCircuit_undefined (w : World) :
  Forall (fun b => Bucket.cumulativeStats b = None)
    (Stats._buckets (_stats (brakes w))) ->
  exists prop w',
    _stats_shortCircuit w = (w', Throw (TypeError prop)) /\
    emitted w' = emitted w.
Proof.
  intros Hall.
  unfold _stats_shortCircuit, Stats.shortCircuit, bind, zoom, stats_view,
    Stats.on_activeBucket.
  destruct (Stats._activeBucket (_stats (brakes w))) as [b|] eqn:Eb.
  - assert (Hb : Bucket.cumulativeStats b = None).
    { unfold Stats._activeBucket, js_index in Eb.
      destruct (_ <? 0); [discriminate |].
      apply nth_error_In in Eb.
      rewrite Forall_forall in Hall. now apply Hall. }
    destruct b as [f s t sc to rts cs]. cbn in Hb. subst cs.
    cbn. eexists; eexists; split; reflexivity.
  - eexists; eexists; split; reflexivity.
Qed.

Lemma exec_open_undefined (w : World) (c : Circuit.t)
  (arguments : list JsValue) :
  _circuitOpen (brakes w) = true ->
  _masterCircuit (brakes w) = Some c ->
  Forall (fun b => Bucket.cumulativeStats b = None)
    (Stats._buckets (_stats (brakes w))) ->
  exists prop,
    completion (Brakes_exec arguments) w = Throw (TypeError prop).
Proof.
  intros Ho Hm Hall.
  unfold completion, Brakes_exec, bind, gets. cbv beta iota. rewrite Hm.
  unfold Circuit_exec, bind, emit, record_event, modify, gets.
  cbv beta iota. cbn [brakes]. rewrite Ho.
  match goal with
  | |- context [_stats_shortCircuit ?w0] =>
      destruct (shortCircuit_undefined w0 Hall) as (prop & w' & E & _)
  end.
  rewrite E. exists prop. reflexivity.
Qed.


End ShortCircuit.

(** ** The global registry *)

Section Registry.

Import Brakes.

Lemma indexOf_range (x : nat) (l : list nat) :
  In x l -> 0 <= GlobalStats.indexOf x l < Z.of_nat (List.length l).
Proof.
  induction l as [|y l IH]; [intros [] |].
  intros Hin. cbn [GlobalStats.indexOf List.length].
  rewrite Nat2Z.inj_succ.
  destruct (Nat.eqb_spec y x) as [->|Hne]; [lia |].
  destruct Hin as [->|Hin]; [congruence |].
  specialize (IH Hin).
  destruct (Z.ltb_spec (GlobalStats.indexOf x l) 0); lia.
Qed.

Lemma splice1_length (idx : Z) (l : list nat) :
  0 <= idx < Z.of_nat (List.length l) ->
  List.length (GlobalStats.splice1 idx l) = pred (List.length l).
Proof.
  intros H. unfold GlobalStats.splice1.
  rewrite length_app, length_firstn, length_skipn. lia.
Qed.

Lemma remove_other_keeps (event : string) (fn fn' : nat)
  (ev : EventEmitter.t) :
  fn <> fn' ->
  EventEmitter.removeListener event (EventEmitter.BoundGlobalListener fn')
    (ev ++ [(event, EventEmitter.BoundGlobalListener fn)])
  = EventEmitter.removeListener event (EventEmitter.BoundGlobalListener fn') ev
    ++ [(event, EventEmitter.BoundGlobalListener fn)].
Proof.
  intros Hne. unfold EventEmitter.removeListener.
  rewrite rev_app_distr. cbn [rev app EventEmitter.remove_first].
  rewrite String.eqb_refl. cbn [EventEmitter.same_function andb].
  apply Nat.eqb_neq in Hne. rewrite Hne. cbn [rev]. reflexivity.
Qed.

Lemma listeners_app (event : string) (e1 e2 : EventEmitter.t) :
  EventEmitter.listeners event (e1 ++ e2)
  = EventEmitter.listeners event e1 ++ EventEmitter.listeners event e2.
Proof.
  unfold EventEmitter.listeners. now rewrite filter_app, map_app.
Qed.

(** C8, on the code.  [deregister] after [register] brings
    [instanceCount] back, but the listener that [register] attached
    stays attached: [deregister] asks the emitter to remove a function it
    has just made with [bind], which no emitter holds.  A snapshot of a
    deregistered breaker still lands on the raw feed; it no longer does
    after [destroy], which removes all the listeners itself. *)
Theorem deregister_keeps_the_listener :
  (forall (g : GlobalStats.t) (fns : nat) (ev : EventEmitter.t)
          (instance : nat),
      let s1 := exec_state (GlobalStats.register instance) (g, fns, ev) in
      let s2 := exec_state (GlobalStats.deregister instance) s1 in
      GlobalStats.instanceCount (fst (fst s1))
      = GlobalStats.instanceCount g + 1 /\
      GlobalStats.instanceCount (fst (fst s2)) = GlobalStats.instanceCount g /\
      EventEmitter.listeners "snapshot" (snd s1)
      = EventEmitter.listeners "snapshot" ev
        ++ [EventEmitter.BoundGlobalListener fns] /\
      In (EventEmitter.BoundGlobalListener fns)
        (EventEmitter.listeners "snapshot" (snd s2))) /\
  (let w := Scenario.default_world in
   let deregistered :=
     exec_state
       (zoom registry_view registry_update
          (GlobalStats.deregister (id (brakes w)))) w in
   let destroyed := exec_state destroy w in
   let d := Stats._totals (_stats (brakes w)) in
   GlobalStats.instanceCount (instance w) = 1 /\
   GlobalStats.instanceCount (instance deregistered) = 0 /\
   GlobalStats._rawStream (instance deregistered) = [] /\
   List.length
     (GlobalStats._rawStream
        (instance (exec_state (_snapshotHandler d) deregistered))) = 1%nat /\
   GlobalStats.instanceCount (instance destroyed) = 0 /\
   _events (brakes destroyed) = [] /\
   GlobalStats._rawStream
     (instance (exec_state (_snapshotHandler d) destroyed)) = []).
Proof.
  split.
  - intros g fns ev inst s1 s2.
    destruct g as [l paused raw].
    assert (E1 : s1 =
              (GlobalStats.mk (l ++ [inst]) paused raw, S fns,
               EventEmitter.on "snapshot"
                 (EventEmitter.BoundGlobalListener fns) ev))
      by reflexivity.
    assert (Hr : 0 <= GlobalStats.indexOf inst (l ++ [inst])
                 < Z.of_nat (List.length (l ++ [inst]))).
    { apply indexOf_range, in_or_app. right. now left. }
    assert (E2 : s2 =
              (GlobalStats.mk
                 (GlobalStats.splice1
                    (GlobalStats.indexOf inst (l ++ [inst])) (l ++ [inst]))
                 paused raw, S (S fns),
               EventEmitter.removeListener "snapshot"
                 (EventEmitter.BoundGlobalListener (S fns))
                 (EventEmitter.on "snapshot"
                    (EventEmitter.BoundGlobalListener fns) ev))).
    { subst s2. rewrite E1.
      unfold GlobalStats.deregister, exec_state, bind, gets, modify,
        GlobalStats.bind_globalListener.
      cbv beta iota. cbn [GlobalStats._brakesInstances].
      destruct (Z.gtb_spec (GlobalStats.indexOf inst (l ++ [inst])) (-1));
        [reflexivity | lia]. }
    rewrite E1, E2. cbn [fst snd]. unfold GlobalStats.instanceCount.
    cbn [GlobalStats._brakesInstances].
    rewrite (splice1_length _ _ Hr), length_app. cbn [List.length].
    split; [lia |]. split; [lia |].
    unfold EventEmitter.on.
    rewrite remove_other_keeps by lia.
    rewrite !listeners_app. cbn. split; [reflexivity |].
    apply in_or_app. right. now left.
  - vm_compute. repeat split; reflexivity.
Qed.

End Registry.

(** ** What every step of the life of a breaker preserves *)

Create HintDb frame.

Section Preservation.

Import Brakes Invocation Process.

Lemma preserves_ret {S A} (P : S -> Prop) (a : A) : preserves P (ret a).
Proof. intros s H; exact H. Qed.

Lemma preserves_throw {S A} (P : S -> Prop) (e : JsError) :
  preserves P (throw (A := A) e).
Proof. intros s H; exact H. Qed.

Lemma preserves_gets {S A} (P : S -> Prop) (f : S -> A) :
  preserves P (gets f).
Proof. intros s H; exact H. Qed.

Lemma preserves_modify {S} (P : S -> Prop) (f : S -> S) :
  (forall s, P s -> P (f s)) -> preserves P (modify f).
Proof. intros H s Hs; apply H, Hs. Qed.

Lemma preserves_bind {S A B} (P : S -> Prop) (m : M S A) (k : A -> M S B) :
  preserves P m -> (forall a, preserves P (k a)) -> preserves P (bind m k).
Proof.
  intros Hm Hk s Hs. unfold bind. specialize (Hm s Hs).
  destruct (m s) as [s' [a|e]]; cbn in Hm; [apply Hk, Hm | exact Hm].
Qed.

Lemma preserves_try_catch {S A} (P : S -> Prop) (m : M S A)
  (h : JsError -> M S A) :
  preserves P m -> (forall e, preserves P (h e)) ->
  preserves P (try_catch m h).
Proof.
  intros Hm Hh s Hs. unfold try_catch. specialize (Hm s Hs).
  destruct (m s) as [s' [a|e]]; cbn in Hm; [exact Hm | apply Hh, Hm].
Qed.

Lemma preserves_zoom {S T A} (P : S -> Prop) (Q : T -> Prop)
  (view : S -> T) (update : T -> S -> S) (m : M T A) :
  (forall s, P s -> Q (view s)) ->
  (forall t s, P s -> Q t -> P (update t s)) ->
  preserves Q m -> preserves P (zoom view update m).
Proof.
  intros Hv Hu Hm s Hs. unfold zoom.
  specialize (Hm (view s) (Hv s Hs)).
  destruct (m (view s)) as [t' r]; cbn in *. now apply Hu.
Qed.

Lemma preserves_for_each {A} (P : World -> Prop) (f : A -> M World unit)
  (l : list A) :
  (forall x, preserves P (f x)) -> preserves P (for_each f l).
Proof.
  intros Hf; induction l as [|x l IH]; cbn [for_each].
  - apply preserves_ret.
  - apply preserves_bind; [apply Hf | intros _; exact IH].
Qed.

Lemma preserves_discard {A} (P : World -> Prop) (m : M World A) :
  preserves P m -> preserves P (discard m).
Proof.
  intros H. unfold discard. apply preserves_bind; [exact H |].
  intros _; apply preserves_ret.
Qed.

(** *** The breaker stays as it was built *)

Lemma bucket_op_keeps_reference (o : Bucket.op) (h : Heap) (b : Bucket.t) :
  Bucket.cumulativeStats (snd (fst (Bucket.apply o (h, b))))
  = Bucket.cumulativeStats b.
Proof.
  destruct b as [f s t sc to rts [r|]]; destruct o; reflexivity.
Qed.

Lemma Forall_update {A} (Q : A -> Prop) (l : list A) (n : nat) (x : A) :
  Forall Q l -> Q x -> Forall Q (firstn n l ++ x :: skipn (S n) l).
Proof.
  intros Hl Hx. apply Forall_app. split.
  - rewrite <- (firstn_skipn n l) in Hl. now apply Forall_app in Hl.
  - constructor; [exact Hx |].
    rewrite <- (firstn_skipn (S n) l) in Hl. now apply Forall_app in Hl.
Qed.

Lemma generate_own_as_built (flag : bool) :
  preserves stats_as_built (Stats.generate_own flag).
Proof. intros [h s] H; exact H. Qed.

Lemma resetDerivs_as_built : preserves stats_as_built Stats._resetDerivs.
Proof.
  intros [h s] [Hc Hb]. cbn in Hc, Hb.
  unfold Stats._resetDerivs, bind, Stats.cumulative_assign.
  rewrite Hc. split; assumption.
Qed.

Lemma spin_as_built : preserves stats_as_built Stats.spin.
Proof.
  intros [h s] [Hc Hb]. cbn in Hc, Hb. split; [exact Hc |]. cbn.
  unfold Stats._shiftAndPush. rewrite Hc.
  assert (H : Forall (fun b => Bucket.cumulativeStats b = None)
                (Stats._buckets s ++ [Bucket.new None])).
  { apply Forall_app; split; [exact Hb | repeat constructor]. }
  destruct (Stats._buckets s ++ [Bucket.new None]); [constructor |].
  now inversion H.
Qed.

Lemma repeat_spin_as_built (n : nat) :
  preserves stats_as_built (Stats.repeat_spin n).
Proof.
  induction n as [|n IH]; cbn [Stats.repeat_spin].
  - apply preserves_ret.
  - apply preserves_bind; [apply spin_as_built | intros _; exact IH].
Qed.

Lemma on_activeBucket_as_built (method : string) (o : Bucket.op) :
  preserves stats_as_built (Stats.on_activeBucket method (Bucket.apply o)).
Proof.
  intros [h s] [Hc Hb]. cbn in Hc, Hb. unfold Stats.on_activeBucket.
  destruct (Stats._activeBucket s) as [b|] eqn:Eb; [| split; assumption].
  pose proof (bucket_op_keeps_reference o h b) as Hk.
  destruct (Bucket.apply o (h, b)) as [[h' b'] r]. cbn in Hk |- *.
  split; [exact Hc |]. cbn. apply Forall_update; [exact Hb |].
  rewrite Hk. unfold Stats._activeBucket, js_index in Eb.
  destruct (_ <? 0); [discriminate |].
  apply nth_error_In in Eb. rewrite Forall_forall in Hb. now apply Hb.
Qed.

Lemma set_snapshotInterval_as_built (v : bool) :
  preserves stats_as_built
    (modify (fun '(h, s) => (h, Stats.set_snapshotInterval v s))).
Proof. intros [h s] H; exact H. Qed.

Section Frame.

Variable master : bool.

Let Pb : Brakes.t -> Prop := as_built master.

Let P (w : World) : Prop := Pb (brakes w).

Lemma frame_stats {A} (m : M Stats.St A) :
  preserves stats_as_built m ->
  preserves P (zoom stats_view stats_update m).
Proof.
  intros Hm.
  apply preserves_zoom with (Q := stats_as_built); auto.
  - intros s [_ H]; exact H.
  - intros t s [Hs _] Ht. split; [exact Hs | exact Ht].
Qed.

Lemma frame_registry {A} (m : M GlobalStats.St A) :
  preserves P (zoom registry_view registry_update m).
Proof.
  apply preserves_zoom with (Q := fun _ => True); auto.
  - intros [[g fns] ev] s Hs _. exact Hs.
  - intros s _; exact I.
Qed.

Lemma frame_instance {A} (m : M GlobalStats.t A) :
  preserves P (zoom instance set_instance m).
Proof.
  apply preserves_zoom with (Q := fun _ => True); auto.
  intros s _; exact I.
Qed.

Lemma frame_this_modify (f : Brakes.t -> Brakes.t) :
  (forall b, Pb b -> Pb (f b)) -> preserves P (this (modify f)).
Proof.
  intros H. unfold this.
  apply preserves_zoom with (Q := Pb); auto.
Qed.

Lemma frame_record (e : Event) : preserves P (record_event e).
Proof. apply preserves_modify. intros s H; exact H. Qed.

Lemma Pb_fallback (f : Fn) (b : Brakes.t) :
  Pb b ->
  Pb (match _masterCircuit b with
      | Some c =>
          let (c', f') := Circuit.fallback f c in
          set_fallback (Some f') (set_masterCircuit (Some c') b)
      | None => set_fallback (Some f) b
      end).
Proof.
  intros [Hm Hs]. destruct (_masterCircuit b) as [c|] eqn:E.
  - split; [| exact Hs]. destruct master; [discriminate | discriminate Hm].
  - split; [| exact Hs]. destruct master; [now elim Hm | exact E].
Qed.

Lemma frame_clock (ms : Z) : preserves P (tick_clock ms).
Proof. apply preserves_modify. intros s H; exact H. Qed.

(** The structure of a method, down to its assignments; the methods
    already dealt with are taken from the hints. *)
Ltac frame_step :=
  first
    [ solve [auto with frame nocore]
    | apply preserves_ret
    | apply preserves_throw
    | apply preserves_gets
    | apply frame_stats;
      first [ apply generate_own_as_built
            | apply resetDerivs_as_built
            | apply spin_as_built
            | apply repeat_spin_as_built
            | apply set_snapshotInterval_as_built
            | apply (on_activeBucket_as_built _ (Bucket.Success _))
            | apply (on_activeBucket_as_built _ (Bucket.Failure _))
            | apply (on_activeBucket_as_built _ (Bucket.Timeout _))
            | apply (on_activeBucket_as_built _ Bucket.ShortCircuit) ]
    | apply frame_registry
    | apply frame_instance
    | apply frame_record
    | apply frame_clock
    | apply frame_this_modify; intros; cbv beta;
      repeat match goal with
             | |- Pb (if ?c then _ else _) => destruct c
             end;
      first [ assumption | apply Pb_fallback; assumption ]
    | apply preserves_discard
    | apply preserves_for_each; intros ?
    | apply preserves_try_catch; [| intros ?]
    | apply preserves_bind; [| intros ?]
    | match goal with
      | |- preserves _ (let _ := _ in _) => cbv zeta
      | |- preserves _ (if ?c then _ else _) => destruct c
      | |- preserves _ (match ?x with _ => _ end) => destruct x
      end ].

Ltac frame := repeat frame_step.

Lemma frame_open : preserves P _open.
Proof. unfold _open. frame. Qed.

Lemma frame_close : preserves P _close.
Proof. unfold _close. frame. Qed.

#[local] Hint Resolve frame_open frame_close : frame.

Lemma frame_stats_emit (event : string) (d : TotalStats.t) :
  preserves P (stats_emit event d).
Proof.
  unfold stats_emit, _checkStats, _snapshotHandler, emit_snapshot. frame.
Qed.

#[local] Hint Resolve frame_stats_emit : frame.

Lemma frame_update :
  preserves P (Stats._update stats_view stats_update stats_emit).
Proof. unfold Stats._update. frame. Qed.

#[local] Hint Resolve frame_update : frame.

Lemma frame_success (runTime : Z) : preserves P (_stats_success runTime).
Proof. unfold _stats_success, Stats.success. frame. Qed.

Lemma frame_failure (runTime : Z) : preserves P (_stats_failure runTime).
Proof. unfold _stats_failure, Stats.failure. frame. Qed.

Lemma frame_timeout (runTime : Z) : preserves P (_stats_timeout runTime).
Proof. unfold _stats_timeout, Stats.timeout. frame. Qed.

Lemma frame_shortCircuit : preserves P _stats_shortCircuit.
Proof. unfold _stats_shortCircuit, Stats.shortCircuit. frame. Qed.

Lemma frame_reset : preserves P _stats_reset.
Proof. unfold _stats_reset, Stats.reset. frame. Qed.

Lemma frame_snapshot : preserves P _stats_snapshot.
Proof. unfold _stats_snapshot, Stats._snapshot. frame. Qed.

#[local] Hint Resolve frame_success frame_failure frame_timeout
  frame_shortCircuit frame_reset frame_snapshot : frame.

Lemma frame_call_listener (l : EventEmitter.Listener) (o : Outcome) :
  preserves P (call_listener l o).
Proof.
  unfold call_listener, _successHandler, _timeoutHandler, _failureHandler.
  destruct l, o; frame.
Qed.

#[local] Hint Resolve frame_call_listener : frame.

Lemma frame_emit_outcome (o : Outcome) : preserves P (emit_outcome o).
Proof. unfold emit_outcome. frame. Qed.

#[local] Hint Resolve frame_emit_outcome : frame.

Lemma frame_circuit_exec (c : Circuit.t) (arguments : list JsValue) :
  preserves P (Circuit_exec c arguments).
Proof. unfold Circuit_exec, emit. frame. Qed.

Lemma frame_settle (c : Circuit.t) (call : Call) (s : Settlement) :
  preserves P (Circuit_settle c call s).
Proof. unfold Circuit_settle, on_rejected. destruct s; frame. Qed.

#[local] Hint Resolve frame_circuit_exec frame_settle : frame.

Lemma frame_run (a : Action) : preserves P (run a).
Proof.
  destruct a; cbn [run];
    unfold Brakes_exec, snapshot_tick, rotation_tick, cooldown_fire,
      health_tick_closed, healthCheck_resolved, healthCheck_rejected,
      clear_healthInterval, destroy, fallback, healthCheck, emit;
    frame.
Qed.

Lemma frame_run_all (actions : list Action) :
  forall w, P w -> P (run_all actions w).
Proof.
  induction actions as [|a actions IH]; intros w Hw; [exact Hw |].
  cbn [run_all]. apply IH, frame_run, Hw.
Qed.

End Frame.

End Preservation.

(** ** Every state of a breaker is as the constructor built it *)

Section Reachable.

Import Brakes Invocation Process.

Lemma new_as_built (object_id : nat) (func : option Fn) (opts : UserOptions)
  (h : Heap) (g : GlobalStats.t) (fns : nat) (now : Z) :
  as_built (match func with Some _ => true | None => false end)
    (brakes (Brakes.new object_id func opts h g fns now)).
Proof.
  destruct (Brakes_new_fields object_id func opts h g fns now)
    as (_ & _ & _ & _ & _ & Hc & Hn & Hm & _ & _ & Hb).
  split.
  - destruct func as [f|]; [| now apply Hn].
    destruct (Hm f eq_refl) as (c & -> & _). discriminate.
  - split; [exact Hc |]. rewrite Hb. apply Forall_forall.
    intros b Hin. apply repeat_spec in Hin. now subst b.
Qed.

Lemma reachable_as_built (object_id : nat) (func : option Fn)
  (opts : UserOptions) (h : Heap) (g : GlobalStats.t) (fns : nat) (now : Z)
  (actions : list Action) :
  as_built (match func with Some _ => true | None => false end)
    (brakes (run_all actions (Brakes.new object_id func opts h g fns now))).
Proof. apply frame_run_all, new_as_built. Qed.

(** C10.  A breaker constructed without a primary function has no master
    circuit, then and after whatever happens to it; every call of its
    [exec] returns a promise rejected with an [Error] whose message is
    'This instance of brakes has no master circuit. You must use a slave
    circuit.', and leaves the state as it was: nothing is recorded in the
    statistics and no event is emitted. *)
Theorem exec_without_master_circuit (object_id : nat) (opts : UserOptions)
  (h : Heap) (g : GlobalStats.t) (fns : nat) (now : Z)
  (actions : list Action) (arguments : list JsValue) :
  let w := run_all actions (Brakes.new object_id None opts h g fns now) in
  _masterCircuit (brakes w) = None /\
  Brakes_exec arguments w =
    (w, Normal (Promise_reject (Error consts.NO_FUNCTION))) /\
  err_class (Error consts.NO_FUNCTION) = ErrorC /\
  err_message (Error consts.NO_FUNCTION) =
    [Text "This instance of brakes has no master circuit. You must use a slave circuit."].
Proof.
  intros w.
  destruct (reachable_as_built object_id None opts h g fns now actions)
    as [Hm _].
  fold w in Hm. cbn in Hm.
  split; [exact Hm |]. split; [| split; reflexivity].
  unfold Brakes_exec, bind, gets. cbv beta iota. rewrite Hm. reflexivity.
Qed.

End Reachable.


(** ** The missing counters object *)

Section MissingCounters.

Import Brakes Invocation Process.

(** Recording on a [Stats] without counters object: the bucket takes
    its first increment and the method throws, before [_update]. *)
Lemma recording_undefined (method : string) (o : Bucket.op) (w : World) :
  stats_as_built (stats_view w) ->
  exists prop,
    completion
      (zoom stats_view stats_update
         (Stats.on_activeBucket method (Bucket.apply o))) w
    = Throw (TypeError prop).
Proof.
  intros [_ Hall]. cbn in Hall.
  unfold completion, zoom, stats_view, Stats.on_activeBucket.
  destruct (Stats._activeBucket (_stats (brakes w))) as [b|] eqn:Eb.
  - assert (Hb : Bucket.cumulativeStats b = None).
    { unfold Stats._activeBucket, js_index in Eb.
      destruct (_ <? 0); [discriminate |].
      apply nth_error_In in Eb.
      rewrite Forall_forall in Hall. now apply Hall. }
    destruct b as [f s t sc to rts cs]. cbn in Hb. subst cs.
    destruct o; cbn; eexists; reflexivity.
  - eexists; reflexivity.
Qed.

Lemma recording_throws (object_id : nat) (func : option Fn)
  (opts : UserOptions) (h : Heap) (g : GlobalStats.t) (fns : nat) (now : Z)
  (actions : list Action) (ms : Z) :
  let w := run_all actions (Brakes.new object_id func opts h g fns now) in
  (exists prop, completion (_stats_success ms) w = Throw (TypeError prop)) /\
  (exists prop, completion (_stats_failure ms) w = Throw (TypeError prop)) /\
  (exists prop, completion (_stats_timeout ms) w = Throw (TypeError prop)) /\
  (exists prop, completion _stats_shortCircuit w = Throw (TypeError prop)).
Proof.
  intros w.
  destruct (reachable_as_built object_id func opts h g fns now actions)
    as [_ Hs].
  fold w in Hs.
  assert (H : forall method o (k : unit -> M World unit),
             exists prop,
               completion
                 (bind (zoom stats_view stats_update
                          (Stats.on_activeBucket method (Bucket.apply o))) k)
                 w = Throw (TypeError prop)).
  { intros method o k.
    destruct (recording_undefined method o w Hs) as (prop & E).
    exists prop. unfold completion, bind in *.
    destruct (zoom _ _ _ w) as [w' r]. cbn in E. subst r. reflexivity. }
  repeat split.
  - apply (H "success"%string (Bucket.Success ms)).
  - apply (H "failure"%string (Bucket.Failure ms)).
  - apply (H "timeout"%string (Bucket.Timeout ms)).
  - apply (H "shortCircuit"%string Bucket.ShortCircuit).
Qed.

(** *** No recording reaches the threshold check *)

Lemma never_opened_record (master : bool) (e : Event) :
  call_event e = true -> preserves (never_opened master) (record_event e).
Proof.
  intros He w (Hb & Hc & Hg & Hev).
  split; [exact Hb | split; [exact Hc | split; [exact Hg |]]].
  cbn. rewrite forallb_app, Hev. cbn. now rewrite He.
Qed.

Lemma never_opened_recording (master : bool) (method : string)
  (o : Bucket.op) (k : unit -> M World unit) :
  preserves (never_opened master)
    (bind (zoom stats_view stats_update
             (Stats.on_activeBucket method (Bucket.apply o))) k).
Proof.
  intros w (Hb & Hc & Hg & Hev).
  pose proof (frame_stats master _ (on_activeBucket_as_built method o) w Hb)
    as Hb'.
  destruct (recording_undefined method o w (proj2 Hb)) as (prop & E).
  unfold completion in E. unfold bind.
  destruct (zoom stats_view stats_update
              (Stats.on_activeBucket method (Bucket.apply o)) w)
    as [w' r] eqn:Ez.
  cbn in E, Hb'. subst r. cbn [fst].
  unfold zoom in Ez.
  destruct (Stats.on_activeBucket method (Bucket.apply o) (stats_view w))
    as [st r'].
  injection Ez as <- _.
  split; [exact Hb' | split; [exact Hc | split; [exact Hg | exact Hev]]].
Qed.

Lemma never_opened_call_listener (master : bool)
  (l : EventEmitter.Listener) (o : Outcome) :
  preserves (never_opened master) (call_listener l o).
Proof.
  destruct l, o; cbn [call_listener]; try apply preserves_ret.
  - apply (never_opened_recording master "success" (Bucket.Success ms)).
  - unfold _timeoutHandler.
    apply preserves_bind; [apply preserves_gets | intros b].
    destruct (_ =? _); [| apply preserves_ret].
    apply (never_opened_recording master "timeout" (Bucket.Timeout ms)).
  - unfold _failureHandler.
    apply preserves_bind; [apply preserves_gets | intros b].
    destruct (_ =? _); [| apply preserves_ret].
    apply (never_opened_recording master "failure" (Bucket.Failure ms)).
Qed.

Lemma never_opened_emit_outcome (master : bool) (o : Outcome) :
  preserves (never_opened master) (emit_outcome o).
Proof.
  unfold emit_outcome.
  apply preserves_bind;
    [apply never_opened_record; now destruct o | intros _].
  apply preserves_bind; [apply preserves_gets | intros ls].
  apply preserves_for_each. intros l. apply never_opened_call_listener.
Qed.

(** A closed breaker makes the call: [exec] records nothing. *)
Lemma never_opened_circuit_exec (master : bool) (c : Circuit.t)
  (arguments : list JsValue) :
  preserves (never_opened master) (Circuit_exec c arguments).
Proof.
  intros w HK.
  pose proof (never_opened_record master Exec eq_refl w HK) as HK'.
  unfold Circuit_exec, emit, bind, gets.
  destruct (record_event Exec w) as [w' [[]|e]] eqn:Er;
    [| discriminate Er].
  cbn [fst] in HK'. cbv beta iota.
  destruct HK' as (Hb & Hc & Hg & Hev). rewrite Hc. cbv beta iota.
  split; [exact Hb | split; [exact Hc | split; [exact Hg | exact Hev]]].
Qed.

Lemma never_opened_on_rejected (master : bool) (c : Circuit.t) (call : Call)
  (err : JsError) :
  preserves (never_opened master) (on_rejected c call err).
Proof.
  unfold on_rejected.
  apply preserves_bind; [apply preserves_gets | intros now]. cbv zeta.
  apply preserves_bind.
  - destruct (instanceof_TimeOutError err);
      [apply never_opened_emit_outcome |].
    destruct (Circuit.isFailure c err);
      [apply never_opened_emit_outcome | apply preserves_ret].
  - intros _. destruct (Circuit._fallback c); [apply preserves_ret |].
    apply preserves_bind; [apply preserves_gets | intros b].
    destruct (_fallback b); [apply preserves_ret |].
    destruct (_ && _); apply preserves_ret.
Qed.

Lemma never_opened_settle (master : bool) (c : Circuit.t) (call : Call)
  (s : Settlement) :
  preserves (never_opened master) (Circuit_settle c call s).
Proof.
  unfold Circuit_settle.
  apply preserves_try_catch; [| intros e; apply preserves_ret].
  destruct s as [result | err]; [| apply never_opened_on_rejected].
  apply preserves_try_catch; [| intros e; apply never_opened_on_rejected].
  apply preserves_bind; [apply preserves_gets | intros now].
  apply preserves_bind; [apply never_opened_emit_outcome | intros _].
  apply preserves_ret.
Qed.

Lemma never_opened_run (master : bool) (a : Action) :
  traffic a = true -> preserves (never_opened master) (run a).
Proof.
  destruct a; try discriminate; intros _; cbn [run].
  - apply preserves_discard. unfold Brakes_exec.
    apply preserves_bind; [apply preserves_gets | intros b].
    destruct (_masterCircuit b);
      [apply never_opened_circuit_exec | apply preserves_ret].
  - apply preserves_discard, never_opened_circuit_exec.
  - apply preserves_discard, never_opened_settle.
  - apply never_opened_emit_outcome.
  - apply preserves_modify. intros w H; exact H.
Qed.

Lemma never_opened_run_all (master : bool) (actions : list Action) :
  forall w,
    never_opened master w ->
    never_opened master (run_all (filter traffic actions) w).
Proof.
  induction actions as [|a actions IH]; intros w Hw; [exact Hw |].
  cbn [filter]. destruct (traffic a) eqn:Ea; [| now apply IH].
  cbn [run_all]. apply IH, never_opened_run; assumption.
Qed.

(** C3, on the code.  The threshold check is never given the counts of
    a recorded outcome.  On every breaker, through any traffic of calls,
    settlements and outcome events, the breaker stays closed at
    generation 1 and emits nothing but the events of the calls: no
    [update] of its [Stats] reaches [_checkStats], no [circuitOpen] is
    emitted.  With [waitThreshold = 4] and [threshold = 0.5], after a
    call that resolves and four that fail the breaker is closed, at
    generation 1: the first increment of every recording has brought the
    window total to 6 (the success that threw was handled as a failure),
    with no success and no failure counted, which is past the threshold
    that the check would apply.  The check itself is as the claim says:
    given the update of the fifth recording (total 5, one success) the
    breaker in that state opens, moves to generation 2 and emits no
    [circuitClosed]. *)
Theorem recorded_outcomes_never_open :
  (forall (object_id : nat) (func : option Fn) (opts : UserOptions)
          (h : Heap) (g : GlobalStats.t) (fns : nat) (now : Z)
          (actions : list Action),
      let w := run_all (filter traffic actions)
                 (Brakes.new object_id func opts h g fns now) in
      _circuitOpen (brakes w) = false /\
      _circuitGeneration (brakes w) = 1 /\
      forallb call_event (emitted w) = true) /\
  (let w := Scenario.after_S_F_F_F_F in
   let d := Scenario.aggregate (Stats._buckets (_stats (brakes w))) w in
   filter traffic Scenario.S_F_F_F_F = Scenario.S_F_F_F_F /\
   waitThreshold (_opts (brakes w)) = 4 /\
   threshold (_opts (brakes w)) = (1 # 2)%Q /\
   _circuitOpen (brakes w) = false /\
   _circuitGeneration (brakes w) = 1 /\
   emitted w =
     [Exec; Success 0; Failure 0 (TypeError "countTotal") 1;
      Exec; Failure 0 Scenario.boom 1;
      Exec; Failure 0 Scenario.boom 1;
      Exec; Failure 0 Scenario.boom 1;
      Exec; Failure 0 Scenario.boom 1] /\
   TotalStats.total d = 6 /\
   TotalStats.successful d = 0 /\
   TotalStats.failed d = 0 /\
   ratio_below (TotalStats.successful d) (TotalStats.total d)
     (threshold (_opts (brakes w))) = true /\
   let w' := exec_state (stats_emit "update" (Scenario.payload 5 1)) w in
   _circuitOpen (brakes w') = true /\
   _circuitGeneration (brakes w') = 2 /\
   ~ In CircuitClosed (emitted w')).
Proof.
  split.
  - intros object_id func opts h g fns now actions w.
    assert (H0 : never_opened
                   (match func with Some _ => true | None => false end)
                   (Brakes.new object_id func opts h g fns now)).
    { destruct (Brakes_new_fields object_id func opts h g fns now)
        as (Hc & Hg & _ & He & _).
      split; [apply new_as_built |].
      split; [exact Hc | split; [exact Hg |]].
      rewrite He. reflexivity. }
    destruct (never_opened_run_all _ actions _ H0) as (_ & Hc & Hg & He).
    split; [exact Hc | split; [exact Hg | exact He]].
  - vm_compute. repeat split; try reflexivity.
    intros H. repeat (destruct H as [H | H]; [discriminate H |]). exact H.
Qed.

(** *** The buckets of a breaker *)

(** C9, on the code.  Every bucket that a [Stats] holds is built over
    the [undefined] value, in every state of every breaker.  On such a
    bucket [success], [failure] and [timeout] add one to [total] and
    throw: no outcome counter is incremented and no latency is pushed,
    so that [total] has moved away from [successful + failed + timedOut]
    and from the number of latencies; [shortCircuit] adds one to
    [shortCircuited] and throws, with no lifetime counter to touch.  After
    one call that resolves, on a breaker with the default options, the
    active bucket and the window hold [total = 2] with no success, failure,
    timeout or latency. *)
Theorem built_buckets_break_the_invariants :
  (forall (object_id : nat) (func : option Fn) (opts : UserOptions)
          (h : Heap) (g : GlobalStats.t) (fns : nat) (now : Z)
          (actions : list Action),
      let w := run_all actions (Brakes.new object_id func opts h g fns now) in
      Forall (fun b => Bucket.cumulativeStats b = None)
        (Stats._buckets (_stats (brakes w)))) /\
  (forall (h : Heap) (f s t sc to : Z) (rts : list Z) (ms : Z),
      let b := Bucket.mk f s t sc to rts None in
      let b' := Bucket.mk f s (t + 1) sc to rts None in
      Bucket.success ms (h, b) = ((h, b'), Throw (TypeError "countTotal")) /\
      Bucket.failure ms (h, b) = ((h, b'), Throw (TypeError "countTotal")) /\
      Bucket.timeout ms (h, b) = ((h, b'), Throw (TypeError "countTotal")) /\
      Bucket.shortCircuit (h, b) =
        ((h, Bucket.mk f s t (sc + 1) to rts None),
         Throw (TypeError "countShortCircuited")) /\
      ~ (Bucket.invariant b /\ Bucket.invariant b')) /\
  (let w := Scenario.after_one_success in
   let d := Scenario.aggregate (Stats._buckets (_stats (brakes w))) w in
   Stats._activeBucket (_stats (brakes w)) =
     Some (Bucket.mk 0 0 2 0 0 [] None) /\
   ~ Bucket.invariant (Bucket.mk 0 0 2 0 0 [] None) /\
   TotalStats.total d = 2 /\
   TotalStats.successful d = 0 /\
   TotalStats.failed d = 0 /\
   TotalStats.timedOut d = 0).
Proof.
  split; [| split].
  - intros object_id func opts h g fns now actions w.
    destruct (reachable_as_built object_id func opts h g fns now actions)
      as [_ [_ Hall]].
    exact Hall.
  - intros h f s t sc to rts ms b b'.
    split; [reflexivity |]. split; [reflexivity |].
    split; [reflexivity |]. split; [reflexivity |].
    unfold Bucket.invariant. subst b b'. cbn. lia.
  - vm_compute. repeat split; try reflexivity.
    intros [H _]. discriminate H.
Qed.

(** C2, on the code.  On a [Stats] as its constructor builds it, and on
    the [Stats] of every breaker whatever has happened to it since it was
    built, every call of [_generateStats], with or without latency,
    returns a structure without [requestTimes] and without any of the ten
    counter properties: [_cumulative] is never assigned, and
    [Object.assign] copies nothing from [undefined]. *)
Theorem generateStats_copies_no_counter :
  (forall (opts : Stats.PartialOpts) (h : Heap) (buckets : list Bucket.t)
          (includeLatencyStats : bool),
      let st := Stats.new opts h in
      let d := Stats._totals
                 (snd (exec_state
                         (Stats._generateStats buckets includeLatencyStats)
                         st)) in
      completion (Stats._generateStats buckets includeLatencyStats) st
      = Normal d /\
      TotalStats.requestTimes d = None /\
      forall f : CumulativeStats.field, TotalStats.cumulative f d = None) /\
  (forall (object_id : nat) (func : option Fn) (opts : UserOptions)
          (h : Heap) (g : GlobalStats.t) (fns : nat) (now : Z)
          (actions : list Action) (buckets : list Bucket.t)
          (includeLatencyStats : bool),
      let w := run_all actions (Brakes.new object_id func opts h g fns now) in
      let d := Stats._totals
                 (snd (exec_state
                         (Stats._generateStats buckets includeLatencyStats)
                         (stats_view w))) in
      completion (Stats._generateStats buckets includeLatencyStats)
        (stats_view w) = Normal d /\
      TotalStats.requestTimes d = None /\
      forall f : CumulativeStats.field, TotalStats.cumulative f d = None).
Proof.
  split.
  - intros opts h buckets flag st d. subst d.
    destruct (Stats_new_eq opts h) as (_ & Hc & _).
    fold st in Hc. destruct st as [h' s]. cbn in Hc.
    destruct (generateStats_result h' s buckets flag) as (E & Hr & Hf).
    unfold completion. rewrite E. cbn.
    split; [reflexivity | split; [exact Hr |]].
    intros f. rewrite Hf, Hc. reflexivity.
  - intros object_id func opts h g fns now actions buckets flag w d. subst d.
    destruct (reachable_as_built object_id func opts h g fns now actions)
      as [_ [Hc _]].
    fold w in Hc. unfold stats_view.
    destruct (generateStats_result (heap w) (_stats (brakes w)) buckets flag)
      as (E & Hr & Hf).
    unfold completion. rewrite E. cbn.
    split; [reflexivity | split; [exact Hr |]].
    intros f. rewrite Hf, Hc. reflexivity.
Qed.

(** C5, on the code.  Every snapshot tick of every breaker, the first
    one and any later one, emits the snapshot (of [Stats], then of the
    breaker) and then throws: there is no counters object whose [Deriv]
    fields [_resetDerivs] could reset; the heap is not written, and the
    snapshot emitted carries no counter at all. *)
Theorem snapshot_tick_throws (object_id : nat) (func : option Fn)
  (opts : UserOptions) (h : Heap) (g : GlobalStats.t) (fns : nat) (now : Z)
  (actions : list Action) :
  let w := run_all actions (Brakes.new object_id func opts h g fns now) in
  let w' := exec_state snapshot_tick w in
  let d := Stats._totals (_stats (brakes w')) in
  completion snapshot_tick w = Throw (TypeError "countTotalDeriv") /\
  emitted w' =
    emitted w ++
    [StatsSnapshot d;
     Snapshot
       (RawStats.mk (name (brakes w)) (group (brakes w)) (clock w)
          (_circuitOpen (brakes w)) (circuitDuration (_opts (brakes w)))
          (threshold (_opts (brakes w))) (waitThreshold (_opts (brakes w)))
          d)] /\
  heap w' = heap w /\
  (forall f : CumulativeStats.field, TotalStats.cumulative f d = None).
Proof.
  intros w.
  destruct (reachable_as_built object_id func opts h g fns now actions)
    as [_ [Hc _]].
  fold w in Hc. exact (snapshot_tick_undefined w Hc).
Qed.

(** C6, on the code.  On every breaker built with a primary function,
    whatever has happened to it since, once it is open [exec] throws a
    [TypeError] out of the recording of the short circuit: it returns no
    promise, calls no fallback, and makes no [CircuitBrokenError].  Ten
    calls on an open breaker with the default options and no fallback
    throw ten times, on [countShortCircuited]: the window counter
    [shortCircuited] has gone up by ten, and there is no
    [countShortCircuited] to go up. *)
Theorem exec_while_open_throws :
  (forall (object_id : nat) (f : Fn) (opts : UserOptions) (h : Heap)
          (g : GlobalStats.t) (fns : nat) (now : Z)
          (actions : list Action) (arguments : list JsValue),
      let w := exec_state _open
                 (run_all actions
                    (Brakes.new object_id (Some f) opts h g fns now)) in
      _circuitOpen (brakes w) = true /\
      exists prop,
        completion (Brakes_exec arguments) w = Throw (TypeError prop)) /\
  (let run := Scenario.attempts 10 (Brakes_exec []) Scenario.reopened in
   snd run =
     Normal (repeat (inr (TypeError "countShortCircuited")) 10) /\
   TotalStats.shortCircuited
     (Scenario.aggregate (Stats._buckets (_stats (brakes (fst run))))
        (fst run)) = 10 /\
   TotalStats.countShortCircuited
     (Scenario.aggregate (Stats._buckets (_stats (brakes (fst run))))
        (fst run)) = None /\
   _fallback (brakes Scenario.reopened) = None).
Proof.
  split.
  - intros object_id f opts h g fns now actions arguments w.
    pose proof (reachable_as_built object_id (Some f) opts h g fns now
                  actions) as Hb.
    set (w0 := run_all actions _) in *.
    assert (Hw : as_built true (brakes w)) by (apply (frame_open true), Hb).
    assert (Ho : _circuitOpen (brakes w) = true).
    { subst w. destruct (_circuitOpen (brakes w0)) eqn:E.
      - unfold exec_state. rewrite (open_when_open w0 E). exact E.
      - apply (open_when_closed w0 E). }
    split; [exact Ho |].
    destruct Hw as [Hm [_ Hall]].
    destruct (_masterCircuit (brakes w)) as [c|] eqn:Ec; [| now elim Hm].
    now apply (exec_open_undefined w c arguments Ho Ec).
  - vm_compute. repeat split; reflexivity.
Qed.

End MissingCounters.

(* ================================================================= *)
(** * Further properties of the code *)

(** ** The shares of a bucket *)

Section Percent.

Lemma apply_counted (r : Ref) (o : Bucket.op) (h : Heap) (b : Bucket.t) :
  Bucket.cumulativeStats b = Some r ->
  Bucket.counted b ->
  Bucket.counted (snd (fst (Bucket.apply o (h, b)))).
Proof.
  destruct b as [f s t sc to rts cs]; simpl; intros -> (Hi & H).
  unfold Bucket.counted, Bucket.invariant in *; cbn in *.
  destruct o; cbn; rewrite ?length_app; cbn; lia.
Qed.

Lemma apply_all_counted (r : Ref) (os : list Bucket.op) :
  forall (h : Heap) (b : Bucket.t),
    Bucket.cumulativeStats b = Some r ->
    Bucket.counted b ->
    Bucket.counted (snd (fst (Bucket.apply_all os (h, b)))).
Proof.
  induction os as [|o os IH]; intros h b Hc Hb; [exact Hb |].
  destruct (apply_returns r o h b Hc) as (h1 & b1 & E1 & Hc1 & _).
  pose proof (apply_counted r o h b Hc Hb) as Hb1.
  rewrite E1 in Hb1. cbn in Hb1.
  cbn [Bucket.apply_all]. rewrite (bind_normal _ _ _ _ _ E1).
  now apply IH.
Qed.

Lemma share_bounds (x t : Z) :
  0 <= x <= t -> t <> 0 ->
  (0 <= inject_Z x / inject_Z t)%Q /\ (inject_Z x / inject_Z t <= 1)%Q.
Proof.
  intros Hx Hn.
  assert (Hpos : (0 < inject_Z t)%Q).
  { change (inject_Z 0 < inject_Z t)%Q. rewrite <- Zlt_Qlt. lia. }
  split.
  - apply Qle_shift_div_l; [exact Hpos |].
    rewrite Qmult_0_l. change (inject_Z 0 <= inject_Z x)%Q.
    rewrite <- Zle_Qle. lia.
  - apply Qle_shift_div_r; [exact Hpos |].
    rewrite Qmult_1_l. rewrite <- Zle_Qle. lia.
Qed.

(** X1.  [percent] on a bucket that has recorded any sequence of outcomes:
    a name that is not a property of the bucket throws
    'Attempt to access nonexistent bucket property'; while nothing is
    counted in [total] every property gives 0, there is no division by
    zero; the share of a counter is never negative, those of [failed],
    [successful], [timedOut] and [total] are at most 1, and that of
    [total] is 1 once something is counted. *)
Theorem percent_of_a_bucket (h : Heap) (r : Ref) (os : list Bucket.op) :
  let b := snd (fst (Bucket.apply_all os (h, Bucket.new (Some r)))) in
  (forall name,
      Bucket.own_property name = None ->
      Bucket.percent name b = Throw (Error consts.INVALID_BUCKET_PROP)) /\
  (forall name p,
      Bucket.own_property name = Some p ->
      Bucket.total b = 0 ->
      Bucket.percent name b = Normal (Num 0)) /\
  (forall name f,
      Bucket.own_property name = Some (Bucket.Counter f) ->
      exists q,
        Bucket.percent name b = Normal (Num q) /\
        (0 <= q)%Q /\
        (f <> Bucket.ShortCircuited -> (q <= 1)%Q) /\
        (f = Bucket.Total -> Bucket.total b <> 0 -> (q == 1)%Q)).
Proof.
  intros b.
  assert (Hb : Bucket.counted b).
  { apply (apply_all_counted r); [reflexivity |].
    repeat split; cbn; lia. }
  destruct Hb as ((Ht & _) & Hs & Hf & Hto & Hsc). clearbody b.
  split; [| split].
  - intros name E. unfold Bucket.percent. now rewrite E.
  - intros name p E H0. unfold Bucket.percent. now rewrite E, H0.
  - intros name f E. unfold Bucket.percent. rewrite E.
    destruct (Z.eqb_spec (Bucket.total b) 0) as [E0|Hn].
    + exists 0%Q. split; [reflexivity |]. split; [apply Qle_refl |].
      split; [intros _; discriminate | intros _ H; contradiction].
    + eexists. split; [reflexivity |].
      assert (Hx : f <> Bucket.ShortCircuited ->
                   0 <= Bucket.get f b <= Bucket.total b)
        by (destruct f; cbn [Bucket.get]; intros Hne; try lia; now elim Hne).
      split; [| split].
      * assert (Hpos : (0 < inject_Z (Bucket.total b))%Q).
        { change (inject_Z 0 < inject_Z (Bucket.total b))%Q.
          rewrite <- Zlt_Qlt. lia. }
        apply Qle_shift_div_l; [exact Hpos |].
        rewrite Qmult_0_l. change (inject_Z 0 <= inject_Z (Bucket.get f b))%Q.
        rewrite <- Zle_Qle. destruct f; cbn [Bucket.get]; lia.
      * intros Hne. apply (share_bounds _ _ (Hx Hne) Hn).
      * intros -> _. cbn [Bucket.get]. apply Qmult_inv_r.
        intros H. apply Hn.
        unfold Qeq in H. cbn in H. lia.
Qed.

Lemma percent_of_a_bucket_witness :
  let b := snd (fst (Bucket.apply_all
                       [Bucket.Failure 5; Bucket.Success 3; Bucket.ShortCircuit]
                       (Scenario.initial_heap, Bucket.new (Some 0%nat)))) in
  Bucket.own_property "failed" = Some (Bucket.Counter Bucket.Failed) /\
  Bucket.own_property "percent" = None /\
  Bucket.percent "percent" b = Throw (Error consts.INVALID_BUCKET_PROP) /\
  exists q, Bucket.percent "failed" b = Normal (Num q) /\ (q <= 1)%Q.
Proof.
  intros b.
  destruct (percent_of_a_bucket Scenario.initial_heap 0%nat
              [Bucket.Failure 5; Bucket.Success 3; Bucket.ShortCircuit])
    as (H1 & _ & H3).
  split; [reflexivity |]. split; [reflexivity |].
  split; [apply H1; reflexivity |].
  destruct (H3 "failed"%string Bucket.Failed eq_refl) as (q & E & _ & Hq & _).
  exists q. split; [exact E | apply Hq; discriminate].
Defined.

End Percent.

(** ** The window and its totals *)

Section Window.

Lemma accumulate_counters (flag : bool) (buckets : list Bucket.t) :
  forall acc,
    let d := fold_left (Stats.accumulate flag) buckets acc in
    TotalStats.total d = TotalStats.total acc + Trace.sum_of Bucket.Total buckets /\
    TotalStats.failed d = TotalStats.failed acc + Trace.sum_of Bucket.Failed buckets /\
    TotalStats.timedOut d =
      TotalStats.timedOut acc + Trace.sum_of Bucket.TimedOut buckets /\
    TotalStats.successful d =
      TotalStats.successful acc + Trace.sum_of Bucket.Successful buckets /\
    TotalStats.shortCircuited d =
      TotalStats.shortCircuited acc
      + Trace.sum_of Bucket.ShortCircuited buckets.
Proof.
  unfold Trace.sum_of.
  induction buckets as [|b bs IH]; intros acc; cbn -[Z.add].
  - repeat split; lia.
  - destruct (IH (Stats.accumulate flag acc b)) as (H1 & H2 & H3 & H4 & H5).
    cbn -[Z.add] in H1, H2, H3, H4, H5.
    rewrite H1, H2, H3, H4, H5. repeat split; lia.
Qed.

(** The window counters of every result of [_generateStats]. *)
Lemma generateStats_counters (h : Heap) (s : Stats.t)
  (buckets : list Bucket.t) (flag : bool) :
  let d := Stats._totals
             (snd (exec_state (Stats._generateStats buckets flag) (h, s))) in
  TotalStats.total d = Trace.sum_of Bucket.Total buckets /\
  TotalStats.failed d = Trace.sum_of Bucket.Failed buckets /\
  TotalStats.timedOut d = Trace.sum_of Bucket.TimedOut buckets /\
  TotalStats.successful d = Trace.sum_of Bucket.Successful buckets /\
  TotalStats.shortCircuited d = Trace.sum_of Bucket.ShortCircuited buckets.
Proof.
  destruct (accumulate_counters flag buckets Stats.initial_totals)
    as (H1 & H2 & H3 & H4 & H5).
  cbn -[Z.add fold_left] in H1, H2, H3, H4, H5.
  unfold exec_state, Stats._generateStats. cbn -[fold_left Trace.sum_of].
  destruct flag, (Stats._cumulative s); cbn -[fold_left Trace.sum_of];
    repeat split; assumption.
Qed.

Lemma sum_of_invariant (buckets : list Bucket.t) :
  Forall Bucket.invariant buckets ->
  Trace.sum_of Bucket.Total buckets =
  Trace.sum_of Bucket.Successful buckets + Trace.sum_of Bucket.Failed buckets
  + Trace.sum_of Bucket.TimedOut buckets.
Proof.
  unfold Trace.sum_of.
  induction 1 as [|b bs [Hb _] _ IH]; cbn -[Z.add]; [reflexivity |]. lia.
Qed.

(** X2.  The five window counters that [_generateStats] reports, with or
    without latency, are the sums of the counters of the buckets it is
    given; over buckets that each hold
    [total = successful + failed + timedOut] the totals hold it too, and
    an empty window gives zeros. *)
Theorem generateStats_sums_the_window (h : Heap) (s : Stats.t)
  (buckets : list Bucket.t) (includeLatencyStats : bool) :
  let d := Stats._totals
             (snd (exec_state
                     (Stats._generateStats buckets includeLatencyStats)
                     (h, s))) in
  TotalStats.total d = Trace.sum_of Bucket.Total buckets /\
  TotalStats.failed d = Trace.sum_of Bucket.Failed buckets /\
  TotalStats.timedOut d = Trace.sum_of Bucket.TimedOut buckets /\
  TotalStats.successful d = Trace.sum_of Bucket.Successful buckets /\
  TotalStats.shortCircuited d = Trace.sum_of Bucket.ShortCircuited buckets /\
  (Forall Bucket.invariant buckets ->
   TotalStats.total d =
   TotalStats.successful d + TotalStats.failed d + TotalStats.timedOut d).
Proof.
  intros d.
  destruct (generateStats_counters h s buckets includeLatencyStats)
    as (H1 & H2 & H3 & H4 & H5).
  fold d in H1, H2, H3, H4, H5.
  repeat (split; [assumption |]).
  intros Hall. rewrite H1, H2, H3, H4. now apply sum_of_invariant.
Qed.

Lemma generateStats_sums_the_window_witness :
  let buckets := [Bucket.mk 1 2 4 7 1 [5; 6; 7; 8] None;
                  Bucket.mk 0 1 1 0 0 [9] None] in
  let s := snd (Stats.new (Stats.mkPartial None None None None)
                  Scenario.initial_heap) in
  let d := Stats._totals
             (snd (exec_state (Stats._generateStats buckets false)
                     (Scenario.initial_heap, s))) in
  Forall Bucket.invariant buckets /\
  TotalStats.total d =
  TotalStats.successful d + TotalStats.failed d + TotalStats.timedOut d.
Proof.
  intros buckets s d.
  assert (H : Forall Bucket.invariant buckets)
    by (repeat constructor).
  split; [exact H |].
  exact (proj2 (proj2 (proj2 (proj2 (proj2
           (generateStats_sums_the_window Scenario.initial_heap s buckets
              false))))) H).
Defined.

(** *** Rotation *)

Lemma shiftAndPush_length {A} (arr : list A) (item : A) :
  List.length (Stats._shiftAndPush arr item) = List.length arr.
Proof.
  unfold Stats._shiftAndPush. destruct arr; cbn; [reflexivity |].
  rewrite length_app. cbn. lia.
Qed.

Lemma rotate_once {A} (x : A) (k : nat) (l : list A) :
  skipn k (Stats._shiftAndPush l x)
  ++ repeat x (Nat.min k (List.length (Stats._shiftAndPush l x)))
  = skipn (S k) l ++ repeat x (Nat.min (S k) (List.length l)).
Proof.
  unfold Stats._shiftAndPush.
  destruct l as [|b bs]; cbn [app tl List.length skipn].
  - destruct k; reflexivity.
  - rewrite length_app. cbn [List.length].
    destruct (Nat.le_gt_cases k (List.length bs)) as [Hle|Hgt].
    + rewrite skipn_app.
      replace (k - List.length bs)%nat with 0%nat by lia.
      cbn [skipn].
      replace (Nat.min k (List.length bs + 1)) with k by lia.
      replace (Nat.min (S k) (S (List.length bs))) with (S k) by lia.
      rewrite <- app_assoc. reflexivity.
    + rewrite skipn_all2 by (rewrite length_app; cbn; lia).
      rewrite (skipn_all2 bs) by lia.
      replace (Nat.min k (List.length bs + 1)) with (S (List.length bs))
        by lia.
      replace (Nat.min (S k) (S (List.length bs)))
        with (S (List.length bs)) by lia.
      reflexivity.
Qed.

Lemma repeat_spin_eq (k : nat) :
  forall (h : Heap) (s : Stats.t),
    Stats.repeat_spin k (h, s) =
    ((h, Stats.set_buckets
           (skipn k (Stats._buckets s)
            ++ repeat (Bucket.new (Stats._cumulative s))
                 (Nat.min k (List.length (Stats._buckets s)))) s),
     Normal tt).
Proof.
  induction k as [|k IH]; intros h s.
  - cbn. rewrite app_nil_r. destruct s; reflexivity.
  - cbn [Stats.repeat_spin]. unfold bind, Stats.spin, modify at 1.
    rewrite IH. unfold Stats.set_buckets.
    cbn [Stats._buckets Stats._cumulative Stats._opts Stats._activePosition
           Stats._totals Stats._spinningInterval Stats._snapshotInterval].
    rewrite rotate_once. reflexivity.
Qed.

(** X3.  Rotating the window [k] times, as the rotation interval and
    [reset] do, never fails and never changes the number of buckets: the
    window loses its [k] oldest buckets and ends with as many new, empty
    buckets; after at least as many rotations as it has buckets it holds
    only new buckets, and an empty window stays empty. *)
Theorem rotation_keeps_the_window_size (k : nat) (h : Heap) (s : Stats.t) :
  let run := Stats.repeat_spin k (h, s) in
  let s' := snd (fst run) in
  let fresh := Bucket.new (Stats._cumulative s) in
  snd run = Normal tt /\
  fst (fst run) = h /\
  Stats._buckets s' =
    skipn k (Stats._buckets s)
    ++ repeat fresh (Nat.min k (List.length (Stats._buckets s))) /\
  List.length (Stats._buckets s') = List.length (Stats._buckets s) /\
  ((List.length (Stats._buckets s) <= k)%nat ->
   Stats._buckets s' = repeat fresh (List.length (Stats._buckets s))) /\
  Stats._opts s' = Stats._opts s /\
  Stats._activePosition s' = Stats._activePosition s /\
  Stats._totals s' = Stats._totals s.
Proof.
  intros run s' fresh. subst run s'. rewrite repeat_spin_eq. cbn [fst snd].
  fold fresh.
  split; [reflexivity |]. split; [reflexivity |].
  split; [reflexivity |].
  split.
  { cbn. rewrite length_app, length_skipn, repeat_length. lia. }
  split.
  { intros Hle. cbn. rewrite skipn_all2 by exact Hle.
    now rewrite Nat.min_r by exact Hle. }
  repeat split.
Qed.

Lemma rotation_keeps_the_window_size_witness :
  let s := snd (Stats.new (Stats.mkPartial None (Some 3) None None)
                  Scenario.initial_heap) in
  (List.length (Stats._buckets s) <= 5)%nat /\
  Stats._buckets (snd (fst (Stats.repeat_spin 5 (Scenario.initial_heap, s)))) =
    repeat (Bucket.new (Stats._cumulative s)) (List.length (Stats._buckets s)).
Proof.
  intros s.
  assert (H : (List.length (Stats._buckets s) <= 5)%nat)
    by (vm_compute; lia).
  split; [exact H |].
  exact (proj1 (proj2 (proj2 (proj2 (proj2
           (rotation_keeps_the_window_size 5 Scenario.initial_heap s))))) H).
Defined.

End Window.

(** ** Latency figures *)

Section Latency.

Lemma sorted_nth_le (a : list Z) :
  Sorted Z.le a ->
  forall i j x y,
    (i <= j)%nat -> nth_error a i = Some x -> nth_error a j = Some y ->
    x <= y.
Proof.
  intros Hs. apply Sorted_StronglySorted in Hs; [| intros ? ? ?; lia].
  induction Hs as [|z l Hl IH Hall]; intros i j x y Hij Hi Hj.
  - destruct i; discriminate.
  - destruct i as [|i], j as [|j]; cbn in Hi, Hj.
    + injection Hi as <-. injection Hj as <-. lia.
    + injection Hi as <-. rewrite Forall_forall in Hall.
      apply Hall. eapply nth_error_In; eassumption.
    + lia.
    + apply (IH i j); [lia | assumption | assumption].
Qed.

Lemma inject_Z_pos (n : Z) : 0 < n -> (0 < inject_Z n)%Q.
Proof.
  intros H. change (inject_Z 0 < inject_Z n)%Q. now rewrite <- Zlt_Qlt.
Qed.

(** The index that [_calculatePercentile] reads: the product of the level
    and the length is rounded to a double before its ceiling is taken. *)
Lemma calculatePercentile_index (p : Q) (a : list Z) :
  Double.representable p = true ->
  (0 <= p)%Q -> (p <= 1)%Q -> a <> [] ->
  Z.of_nat (List.length a) < 2 ^ 53 ->
  exists i x,
    Stats._calculatePercentile p a = Some x /\
    nth_error a i = Some x /\
    (i < List.length a)%nat /\
    Z.of_nat i =
      (if Qeq_bool p 0 then 0
       else
         Qceiling
           (Double.nearest (p * inject_Z (Z.of_nat (List.length a)))) - 1).
Proof.
  intros Hr Hp0 Hp1 Ha Hlen.
  assert (Hn : (0 < List.length a)%nat) by (destruct a; [easy | cbn; lia]).
  unfold Stats._calculatePercentile.
  destruct (Qeq_bool p 0) eqn:E.
  - destruct a as [|x a']; [easy |].
    exists 0%nat, x. repeat split; cbn; lia.
  - set (n := Z.of_nat (List.length a)) in *.
    assert (Hpos : (0 < p)%Q).
    { apply Qle_lteq in Hp0. destruct Hp0 as [H|H]; [exact H |].
      symmetry in H. apply Qeq_bool_iff in H. congruence. }
    assert (Hn1 : (1 <= inject_Z n)%Q).
    { change 1%Q with (inject_Z 1). rewrite <- Zle_Qle. subst n. lia. }
    apply representable_spec in Hr. destruct Hr as [Hfix _].
    set (x := (p * inject_Z n)%Q).
    assert (Hlo : (p <= x)%Q).
    { subst x. rewrite <- (Qmult_1_r p) at 1.
      apply Qmult_le_l; assumption. }
    assert (Hhi : (x <= inject_Z n)%Q).
    { subst x. rewrite <- (Qmult_1_l (inject_Z n)) at 2.
      apply Qmult_le_compat_r; [exact Hp1 | lra]. }
    pose proof (nearest_mono _ _ Hlo) as N1. rewrite Hfix in N1.
    pose proof (nearest_mono _ _ Hhi) as N2.
    rewrite (nearest_Z n) in N2 by (subst n; lia).
    assert (B : (Qabs (Double.nearest x) < Double.pow2 1024)%Q).
    { rewrite Qabs_pos by lra.
      apply Qle_lt_trans with (inject_Z n); [exact N2 |].
      apply Qlt_le_trans with (Double.pow2 53); [| apply pow2_le; lia].
      rewrite (pow2_Z 53) by lia. rewrite <- Zlt_Qlt. subst n. lia. }
    unfold Double.mul, Double.of_Z. fold n. fold x.
    rewrite (round_finite x B). cbn [Double.Math_ceil].
    rewrite (Qceiling_comp _ _ (Qred_correct (Double.nearest x))).
    set (c := Qceiling (Double.nearest x)).
    assert (Hc1 : 1 <= c).
    { assert (0 < c); [| lia]. rewrite Zlt_Qlt.
      apply Qlt_le_trans with (Double.nearest x); [| apply Qle_ceiling].
      change (inject_Z 0) with 0%Q. lra. }
    assert (Hc2 : c <= n).
    { subst c. rewrite <- (Qceiling_Z n). now apply Qceiling_resp_le. }
    fold (Double.of_Z 1).
    rewrite (index_inside a c) by (fold n; lia).
    destruct (nth_error a (Z.to_nat (c - 1))) as [v|] eqn:Ev.
    + exists (Z.to_nat (c - 1)), v.
      split; [reflexivity |]. split; [exact Ev |].
      split; [subst n; lia | lia].
    + apply nth_error_None in Ev. subst n. lia.
Qed.

(** X4.  On a non-empty array in ascending order, as [_generateStats]
    passes it, the percentile grows with its level: for levels
    [0 <= p <= q <= 1] both percentiles are samples of the array and
    that of [p] is at most that of [q]; level 0 gives the smallest sample
    and level 1 the largest.  The levels are doubles and the array has
    fewer than 2^53 elements, as every array has (fewer than 2^32). *)
Theorem percentile_grows_with_its_level (a : list Z) (p q : Q) :
  Double.representable p = true -> Double.representable q = true ->
  Z.of_nat (List.length a) < 2 ^ 53 ->
  Sorted Z.le a -> a <> [] ->
  (0 <= p)%Q -> (p <= q)%Q -> (q <= 1)%Q ->
  exists x y lo hi,
    Stats._calculatePercentile p a = Some x /\
    Stats._calculatePercentile q a = Some y /\
    Stats._calculatePercentile 0 a = Some lo /\
    Stats._calculatePercentile 1 a = Some hi /\
    In x a /\ In y a /\
    lo <= x /\ x <= y /\ y <= hi /\
    Forall (fun z => lo <= z <= hi) a.
Proof.
  intros Rp Rq Hlen Hs Ha Hp0 Hpq Hq1.
  assert (Hq0 : (0 <= q)%Q) by (eapply Qle_trans; eassumption).
  assert (Hp1 : (p <= 1)%Q) by (eapply Qle_trans; eassumption).
  set (n := Z.of_nat (List.length a)).
  assert (Hn : 0 < n) by (subst n; destruct a; [easy | cbn; lia]).
  destruct (calculatePercentile_index p a Rp Hp0 Hp1 Ha Hlen)
    as (i & x & Ex & Hi & Hil & Ei).
  destruct (calculatePercentile_index q a Rq Hq0 Hq1 Ha Hlen)
    as (j & y & Ey & Hj & Hjl & Ej).
  destruct (calculatePercentile_index 0 a (representable_Z 0 eq_refl)
              ltac:(apply Qle_refl) ltac:(discriminate) Ha Hlen)
    as (i0 & lo & Elo & Hi0 & _ & Ei0).
  destruct (calculatePercentile_index 1 a (representable_Z 1 eq_refl)
              ltac:(discriminate) ltac:(apply Qle_refl) Ha Hlen)
    as (i1 & hi & Ehi & Hi1 & _ & Ei1).
  fold n in Ei, Ej, Ei1.
  change (Qeq_bool 0 0) with true in Ei0.
  change (Qeq_bool 1 0) with false in Ei1.
  assert (E1 : Qceiling (Double.nearest (1 * inject_Z n)) = n).
  { rewrite (Qceiling_comp _ (inject_Z n)); [apply Qceiling_Z |].
    rewrite (nearest_comp _ (inject_Z n)) by ring.
    apply nearest_Z. subst n. lia. }
  rewrite E1 in Ei1.
  assert (Hij : (i <= j)%nat).
  { destruct (Qeq_bool p 0) eqn:Ep.
    - assert (0 <= Z.of_nat j) by lia. lia.
    - destruct (Qeq_bool q 0) eqn:Eq.
      + apply Qeq_bool_iff in Eq. rewrite Eq in Hpq.
        assert (Hz : (p == 0)%Q) by (apply Qle_antisym; assumption).
        apply Qeq_bool_iff in Hz. congruence.
      + assert (Qceiling (Double.nearest (p * inject_Z n))
                <= Qceiling (Double.nearest (q * inject_Z n))).
        { apply Qceiling_resp_le, nearest_mono.
          apply Qmult_le_compat_r; [exact Hpq |].
          apply Qlt_le_weak, inject_Z_pos, Hn. }
        lia. }
  exists x, y, lo, hi.
  split; [exact Ex |]. split; [exact Ey |].
  split; [exact Elo |]. split; [exact Ehi |].
  split; [eapply nth_error_In; eassumption |].
  split; [eapply nth_error_In; eassumption |].
  split; [apply (sorted_nth_le a Hs i0 i); [lia | assumption | assumption] |].
  split; [apply (sorted_nth_le a Hs i j); assumption |].
  split; [apply (sorted_nth_le a Hs j i1); [subst n; lia | assumption
                                           | assumption] |].
  apply Forall_forall. intros z Hz.
  apply In_nth_error in Hz. destruct Hz as (k & Hk).
  assert (Hkl : (k < List.length a)%nat)
    by (apply nth_error_Some; rewrite Hk; discriminate).
  split.
  - apply (sorted_nth_le a Hs i0 k); [lia | assumption | assumption].
  - apply (sorted_nth_le a Hs k i1); [subst n; lia | assumption | assumption].
Qed.

Lemma percentile_grows_with_its_level_witness :
  Double.representable (1 # 4) = true /\
  Double.representable (Double.literal (9 # 10)) = true /\
  Z.of_nat (List.length [3; 5; 8; 13]) < 2 ^ 53 /\
  Sorted Z.le [3; 5; 8; 13] /\ [3; 5; 8; 13] <> [] /\
  (0 <= 1 # 4)%Q /\ (1 # 4 <= Double.literal (9 # 10))%Q /\
  (Double.literal (9 # 10) <= 1)%Q /\
  exists x y,
    Stats._calculatePercentile (1 # 4) [3; 5; 8; 13] = Some x /\
    Stats._calculatePercentile (Double.literal (9 # 10)) [3; 5; 8; 13]
    = Some y /\
    x <= y.
Proof.
  assert (R1 : Double.representable (1 # 4) = true) by (vm_compute; reflexivity).
  assert (R2 : Double.representable (Double.literal (9 # 10)) = true)
    by (vm_compute; reflexivity).
  assert (Hl : Z.of_nat (List.length [3; 5; 8; 13]) < 2 ^ 53)
    by (vm_compute; reflexivity).
  assert (Hs : Sorted Z.le [3; 5; 8; 13])
    by (repeat constructor; lia).
  assert (Ha : [3; 5; 8; 13] <> []) by discriminate.
  assert (H1 : (0 <= 1 # 4)%Q) by discriminate.
  assert (H2 : (1 # 4 <= Double.literal (9 # 10))%Q)
    by (vm_compute; discriminate).
  assert (H3 : (Double.literal (9 # 10) <= 1)%Q)
    by (vm_compute; discriminate).
  repeat (split; [assumption |]).
  destruct (percentile_grows_with_its_level _ _ _ R1 R2 Hl Hs Ha H1 H2 H3)
    as (x & y & lo & hi & Ex & Ey & _ & _ & _ & _ & _ & Hxy & _).
  exists x, y. repeat split; assumption.
Defined.

(** X5.  A level below 0 or above 1 selects no sample, whatever the
    array: [_calculatePercentile] gives [undefined], and [_generateStats]
    reports 0 for every such level that is configured, it does not reject
    it.  The level is a double and the arrays have fewer than 2^53
    elements, as every array has (fewer than 2^32). *)
Theorem percentile_level_out_of_range (a : list Z) (p : Q) :
  Double.representable p = true ->
  Z.of_nat (List.length a) < 2 ^ 53 ->
  (p < 0 \/ 1 < p)%Q ->
  Stats._calculatePercentile p a = None /\
  forall (h : Heap) (s : Stats.t) (buckets : list Bucket.t),
    Z.of_nat (List.length (Stats.window_samples buckets)) < 2 ^ 53 ->
    In p (Stats.percentiles (Stats._opts s)) ->
    percentiles_get p
      (TotalStats.percentiles
         (Stats._totals
            (snd (exec_state (Stats._generateStats buckets true) (h, s)))))
    = Some 0.
Proof.
  intros Hr Hlen Hp.
  assert (Hnone : forall a,
             Z.of_nat (List.length a) < 2 ^ 53 ->
             Stats._calculatePercentile p a = None).
  { clear a Hlen. intros a Hlen.
    unfold Stats._calculatePercentile.
    set (n := Z.of_nat (List.length a)) in *.
    assert (Hn : 0 <= n) by (subst n; lia).
    destruct (Qeq_bool p 0) eqn:E.
    { apply Qeq_bool_iff in E. rewrite E in Hp.
      destruct Hp as [H|H]; discriminate H. }
    unfold Double.mul, Double.of_Z.
    set (x := (p * inject_Z n)%Q).
    destruct (round_cases x) as [[Ex B] | [[Ex _] | [Ex _]]];
      rewrite Ex; [| reflexivity | reflexivity].
    cbn [Double.Math_ceil].
    rewrite (Qceiling_comp _ _ (Qred_correct (Double.nearest x))).
    fold (Double.of_Z 1).
    apply index_outside; [fold n; lia |]. fold n.
    assert (Hnq : (0 <= inject_Z n)%Q).
    { change 0%Q with (inject_Z 0). now rewrite <- Zle_Qle. }
    destruct Hp as [Hneg|Hbig].
    - left. rewrite <- (Qceiling_Z 0). apply Qceiling_resp_le.
      apply nearest_nonpos. subst x.
      rewrite <- (Qmult_0_l (inject_Z n)).
      apply Qmult_le_compat_r; [now apply Qlt_le_weak | exact Hnq].
    - destruct (Z.eq_dec n 0) as [E0|Hne].
      + left. rewrite <- (Qceiling_Z 0). apply Qceiling_resp_le.
        apply nearest_nonpos. subst x. rewrite E0.
        change (inject_Z 0) with 0%Q. lra.
      + right. rewrite Zlt_Qlt.
        apply Qlt_le_trans with (Double.nearest x); [| apply Qle_ceiling].
        apply nearest_above; [lia |]. subst x.
        pose proof (representable_above_one p Hr Hbig) as H1.
        rewrite (Qmult_comm p).
        apply Qmult_le_l; [| exact H1].
        apply inject_Z_pos. lia. }
  split; [now apply Hnone |].
  intros h s buckets Hw Hin.
  destruct (generateStats_true h s buckets) as (_ & _ & Hps & _).
  rewrite Hps, fill_get, (existsb_Qeq_In _ _ Hin), Hnone; [reflexivity |].
  now rewrite (Permutation_length (sort_perm _)).
Qed.

Lemma percentile_level_out_of_range_witness :
  Double.representable (3 # 2) = true /\
  Z.of_nat (List.length [10; 20; 30]) < 2 ^ 53 /\
  (3 # 2 < 0 \/ 1 < 3 # 2)%Q /\
  Stats._calculatePercentile (3 # 2) [10; 20; 30] = None.
Proof.
  assert (R : Double.representable (3 # 2) = true) by (vm_compute; reflexivity).
  assert (L : Z.of_nat (List.length [10; 20; 30]) < 2 ^ 53)
    by (vm_compute; reflexivity).
  assert (H : (3 # 2 < 0 \/ 1 < 3 # 2)%Q) by (right; reflexivity).
  split; [exact R |]. split; [exact L |]. split; [exact H |].
  exact (proj1 (percentile_level_out_of_range [10; 20; 30] (3 # 2) R L H)).
Defined.

(** *** The mean *)

Lemma fold_add_bounds (lo hi : Z) (a : list Z) :
  Forall (fun x => lo <= x <= hi) a ->
  forall acc,
    acc + Z.of_nat (List.length a) * lo <= fold_left Z.add a acc
    <= acc + Z.of_nat (List.length a) * hi.
Proof.
  induction 1 as [|x l Hx _ IH]; intros acc; cbn [fold_left List.length].
  - lia.
  - specialize (IH (acc + x)). rewrite Nat2Z.inj_succ. lia.
Qed.

Lemma Math_round_bounds (q : Q) (lo hi : Z) :
  (inject_Z lo <= q)%Q -> (q <= inject_Z hi)%Q ->
  lo <= Stats.Math_round q <= hi.
Proof.
  intros Hlo Hhi. unfold Stats.Math_round. split.
  - rewrite <- (Qfloor_Z lo). apply Qfloor_resp_le.
    eapply Qle_trans; [exact Hlo |].
    rewrite <- (Qplus_0_r q) at 1. apply Qplus_le_r. discriminate.
  - assert (H : Qfloor (q + (1 # 2)) < hi + 1); [| lia].
    rewrite Zlt_Qlt.
    eapply Qle_lt_trans; [apply Qfloor_le |].
    rewrite inject_Z_plus.
    eapply Qle_lt_trans; [apply Qplus_le_l; exact Hhi |].
    apply Qplus_lt_r. reflexivity.
Qed.

(** X6.  The mean of a non-empty array of samples is a number between its
    smallest and its largest sample. *)
Theorem mean_lies_between_the_samples (a : list Z) (lo hi : Z) :
  a <> [] ->
  Forall (fun x => lo <= x <= hi) a ->
  exists m, Stats._calculateMean a = Some m /\ lo <= m <= hi.
Proof.
  intros Ha Hall.
  unfold Stats._calculateMean.
  destruct a as [|x a']; [easy |].
  eexists. split; [reflexivity |].
  set (a := x :: a') in *.
  set (n := Z.of_nat (List.length a)).
  assert (Hn : 0 < n) by (subst n a; cbn [List.length]; lia).
  pose proof (fold_add_bounds lo hi a Hall 0) as Hsum. fold n in Hsum.
  apply Math_round_bounds.
  - apply Qle_shift_div_l; [now apply inject_Z_pos |].
    rewrite <- inject_Z_mult, <- Zle_Qle. lia.
  - apply Qle_shift_div_r; [now apply inject_Z_pos |].
    rewrite <- inject_Z_mult, <- Zle_Qle. lia.
Qed.

Lemma mean_lies_between_the_samples_witness :
  [12; 7; 30] <> [] /\
  Forall (fun x => 7 <= x <= 30) [12; 7; 30] /\
  exists m, Stats._calculateMean [12; 7; 30] = Some m /\ 7 <= m <= 30.
Proof.
  assert (Ha : [12; 7; 30] <> []) by discriminate.
  assert (Hall : Forall (fun x => 7 <= x <= 30) [12; 7; 30])
    by (repeat constructor; lia).
  split; [exact Ha |]. split; [exact Hall |].
  exact (mean_lies_between_the_samples [12; 7; 30] 7 30 Ha Hall).
Defined.

(** *** Updates between two snapshots *)

(** X7.  The updates that follow a computation of the latency figures
    carry those figures unchanged: whatever windows the calls of
    [_generateStats] without latency aggregate, each reports the mean and
    the percentiles of the samples of the last call with latency. *)
Theorem updates_carry_the_last_latency_figures (h : Heap) (s : Stats.t)
  (snapshot : list Bucket.t) (updates : list (list Bucket.t)) :
  let a := Stats.sort (Stats.window_samples snapshot) in
  let st :=
    fold_left
      (fun st window => exec_state (Stats._generateStats window false) st)
      updates
      (exec_state (Stats._generateStats snapshot true) (h, s)) in
  TotalStats.latencyMean (Stats._totals (snd st)) =
    or_zero (Stats._calculateMean a) /\
  TotalStats.percentiles (Stats._totals (snd st)) =
    Stats.fill_percentiles (Stats.percentiles (Stats._opts s)) a [] /\
  Stats._opts (snd st) = Stats._opts s.
Proof.
  intros a st.
  destruct (generateStats_true h s snapshot) as (_ & Hm & Hp & _).
  fold a in Hm, Hp.
  assert (Ho : Stats._opts
                 (snd (exec_state (Stats._generateStats snapshot true) (h, s)))
               = Stats._opts s).
  { unfold exec_state, Stats._generateStats. reflexivity. }
  subst st.
  revert Hm Hp Ho.
  generalize (exec_state (Stats._generateStats snapshot true) (h, s)).
  induction updates as [|w ws IH]; intros st0 Hm Hp Ho; cbn [fold_left].
  - repeat split; assumption.
  - apply IH; destruct st0 as [h0 s0]; cbn [snd] in *.
    + rewrite <- Hm. unfold exec_state, Stats._generateStats.
      cbn -[fold_left]. destruct (Stats._cumulative s0); reflexivity.
    + rewrite <- Hp. unfold exec_state, Stats._generateStats.
      cbn -[fold_left]. destruct (Stats._cumulative s0); reflexivity.
    + rewrite <- Ho. reflexivity.
Qed.

End Latency.

(** ** The Hystrix form of a snapshot *)

Section Hystrix.

(** X8.  In the Hystrix form of a snapshot, [requestCount] is the window
    total and [errorCount] the window failures; [errorPercentage] is 0 on
    an empty window, where nothing is divided, is an integer between 0
    and 100 when the successes are a part of the total, is 100 when
    nothing has succeeded and 0 when everything has: a window of timeouts
    alone has an [errorPercentage] of 100 and an [errorCount] of 0.  The
    quotient, the difference and the product are each rounded to a
    double. *)
Theorem hystrix_error_percentage (raw : RawStats.t) :
  let stats := RawStats.stats raw in
  let j := utils.mapToHystrixJson raw in
  utils.get "errorPercentage" j = utils.JNumber (utils.errorPercentage stats) /\
  utils.get "requestCount" j = utils.number (TotalStats.total stats) /\
  utils.get "errorCount" j = utils.number (TotalStats.failed stats) /\
  utils.get "rollingCountTimeout" j = utils.number (TotalStats.timedOut stats) /\
  (TotalStats.total stats = 0 ->
   utils.errorPercentage stats = Double.of_Z 0) /\
  (0 <= TotalStats.successful stats <= TotalStats.total stats ->
   exists e,
     utils.errorPercentage stats = Double.of_Z e /\ 0 <= e <= 100) /\
  (TotalStats.total stats <> 0 ->
   TotalStats.successful stats = 0 ->
   utils.errorPercentage stats = Double.of_Z 100) /\
  (TotalStats.total stats <> 0 ->
   TotalStats.successful stats = TotalStats.total stats ->
   utils.errorPercentage stats = Double.of_Z 0).
Proof.
  intros stats j.
  split; [reflexivity |]. split; [reflexivity |].
  split; [reflexivity |]. split; [reflexivity |].
  unfold utils.errorPercentage.
  set (s := TotalStats.successful stats). set (t := TotalStats.total stats).
  assert (Hne : t <> 0 -> Qeq_bool (inject_Z t) 0 = false).
  { intros Hn. destruct (Qeq_bool (inject_Z t) 0) eqn:E; [| reflexivity].
    apply Qeq_bool_iff in E. now apply inject_Z_nonzero in E. }
  split; [| split; [| split]].
  - intros ->. reflexivity.
  - intros [Hs Ht].
    destruct (Z.eqb_spec t 0) as [|Hn]; [exists 0; split; [reflexivity | lia] |].
    assert (Hpos : (0 < inject_Z t)%Q) by (apply inject_Z_pos; lia).
    assert (H0 : (0 <= inject_Z s / inject_Z t)%Q).
    { apply Qle_shift_div_l; [exact Hpos |].
      rewrite Qmult_0_l. change (inject_Z 0 <= inject_Z s)%Q.
      rewrite <- Zle_Qle. lia. }
    assert (H1 : (inject_Z s / inject_Z t <= 1)%Q).
    { apply Qle_shift_div_r; [exact Hpos |].
      rewrite Qmult_1_l. rewrite <- Zle_Qle. lia. }
    unfold Double.div, Double.of_Z. rewrite (Hne Hn).
    destruct (round_between (inject_Z s / inject_Z t) 0 1)
      as (r1 & E1 & L1 & U1);
      [reflexivity | reflexivity | exact H0 | exact H1 |].
    rewrite E1. unfold Double.sub.
    change (inject_Z 0) with 0%Q in L1. change (inject_Z 1) with 1%Q in *.
    destruct (round_between (1 - r1) 0 1) as (r2 & E2 & L2 & U2);
      [reflexivity | reflexivity | change (inject_Z 0) with 0%Q; lra
       | change (inject_Z 1) with 1%Q; lra |].
    rewrite E2. unfold Double.mul.
    change (inject_Z 0) with 0%Q in L2. change (inject_Z 1) with 1%Q in U2.
    destruct (round_between (r2 * inject_Z 100) 0 100)
      as (r3 & E3 & L3 & U3);
      [reflexivity | reflexivity
       | change (inject_Z 0) with 0%Q; change (inject_Z 100) with 100%Q; lra
       | change (inject_Z 100) with 100%Q; lra |].
    rewrite E3. cbn [Double.Math_round].
    exists (Qfloor (r3 + (1 # 2))). split; [reflexivity |].
    apply (Math_round_bounds r3 0 100); assumption.
  - intros Hn Hs.
    destruct (Z.eqb_spec t 0) as [|_]; [contradiction |].
    rewrite Hs. unfold Double.div, Double.of_Z. rewrite (Hne Hn).
    rewrite (round_comp (inject_Z 0 / inject_Z t) (inject_Z 0))
      by (unfold Qdiv; change (inject_Z 0) with 0%Q; ring).
    rewrite (round_Z 0) by reflexivity.
    vm_compute. reflexivity.
  - intros Hn Hs.
    destruct (Z.eqb_spec t 0) as [|_]; [contradiction |].
    rewrite Hs. unfold Double.div, Double.of_Z. rewrite (Hne Hn).
    rewrite (round_comp (inject_Z t / inject_Z t) (inject_Z 1)).
    + rewrite (round_Z 1) by reflexivity. vm_compute. reflexivity.
    + change (inject_Z 1) with 1%Q. unfold Qdiv. apply Qmult_inv_r.
      apply inject_Z_nonzero. exact Hn.
Qed.

Lemma hystrix_error_percentage_witness :
  let raw :=
    RawStats.mk "a" "b" 0 false 30000 (1 # 2) 100 (Scenario.payload 40 17) in
  0 <= TotalStats.successful (RawStats.stats raw)
    <= TotalStats.total (RawStats.stats raw) /\
  utils.errorPercentage (RawStats.stats raw) = Double.of_Z 57 /\
  exists e,
    utils.errorPercentage (RawStats.stats raw) = Double.of_Z e /\
    0 <= e <= 100.
Proof.
  intros raw.
  assert (H : 0 <= TotalStats.successful (RawStats.stats raw)
              <= TotalStats.total (RawStats.stats raw))
    by (cbn; lia).
  split; [exact H |]. split; [vm_compute; reflexivity |].
  exact (proj1 (proj2 (proj2 (proj2 (proj2 (proj2
           (hystrix_error_percentage raw)))))) H).
Defined.

(** The nine entries of [latencyExecute] and the levels they read. *)
Lemma latency_entries (ps : Percentiles) (key : string) (level : Q) :
  In (key, level)
    [("0", 0); ("25", 1 # 4); ("50", 1 # 2); ("75", 3 # 4);
     ("90", Double.literal (9 # 10)); ("95", Double.literal (95 # 100));
     ("99", Double.literal (99 # 100));
     ("99.5", Double.literal (995 # 1000)); ("100", 1)]%string%Q ->
  utils.get key (utils.latency ps) = utils.read (percentiles_get level ps).
Proof.
  intros H.
  repeat (destruct H as [H|H];
          [pose proof (f_equal fst H) as Ek; pose proof (f_equal snd H) as El;
           cbn [fst snd] in Ek, El; subst key level; reflexivity |]).
  destruct H.
Qed.

(** X9.  The Hystrix form of a snapshot taken with latency: each of the
    nine entries of [latencyExecute] is the percentile that the snapshot
    computed for its level when that level is configured, as all nine are
    by default, and is [undefined] otherwise; [latencyTotal] is the same
    object, [latencyExecute_mean] is the mean of the snapshot and
    [latencyTotal_mean] is 15 whatever the samples.  The level of a key
    such as ['0.9'] is the double that the literal [0.9] denotes. *)
Theorem hystrix_latency_of_a_snapshot (h : Heap) (s : Stats.t)
  (buckets : list Bucket.t) (name group : string) (time : Z) (open : bool)
  (circuitDuration : Z) (threshold : Q) (waitThreshold : Z) :
  let a := Stats.sort (Stats.window_samples buckets) in
  let d := Stats._totals
             (snd (exec_state (Stats._generateStats buckets true) (h, s))) in
  let j := utils.mapToHystrixJson
             (RawStats.mk name group time open circuitDuration threshold
                waitThreshold d) in
  utils.get "latencyTotal" j = utils.get "latencyExecute" j /\
  utils.get "latencyExecute_mean" j =
    utils.number (or_zero (Stats._calculateMean a)) /\
  utils.get "latencyTotal_mean" j = utils.number 15 /\
  (forall key level,
      In (key, level)
        [("0", 0); ("25", 1 # 4); ("50", 1 # 2); ("75", 3 # 4);
         ("90", Double.literal (9 # 10)); ("95", Double.literal (95 # 100));
         ("99", Double.literal (99 # 100));
         ("99.5", Double.literal (995 # 1000)); ("100", 1)]%string%Q ->
      utils.get key (utils.get "latencyExecute" j) =
      if existsb (fun p => Qeq_bool p level)
           (Stats.percentiles (Stats._opts s))
      then utils.number (or_zero (Stats._calculatePercentile level a))
      else utils.JUndefined) /\
  (Stats.percentiles (Stats._opts s) = Stats.percentiles Stats.defaultOptions ->
   forall key level,
      In (key, level)
        [("0", 0); ("25", 1 # 4); ("50", 1 # 2); ("75", 3 # 4);
         ("90", Double.literal (9 # 10)); ("95", Double.literal (95 # 100));
         ("99", Double.literal (99 # 100));
         ("99.5", Double.literal (995 # 1000)); ("100", 1)]%string%Q ->
      utils.get key (utils.get "latencyExecute" j) =
      utils.number (or_zero (Stats._calculatePercentile level a))).
Proof.
  intros a d j.
  destruct (generateStats_true h s buckets) as (_ & Hm & Hp & _).
  fold a in Hm, Hp. fold d in Hm, Hp.
  assert (Hl : utils.get "latencyExecute" j
               = utils.latency (TotalStats.percentiles d)) by reflexivity.
  assert (Hentry : forall key level,
      In (key, level)
        [("0", 0); ("25", 1 # 4); ("50", 1 # 2); ("75", 3 # 4);
         ("90", Double.literal (9 # 10)); ("95", Double.literal (95 # 100));
         ("99", Double.literal (99 # 100));
         ("99.5", Double.literal (995 # 1000)); ("100", 1)]%string%Q ->
      utils.get key (utils.get "latencyExecute" j) =
      if existsb (fun p => Qeq_bool p level)
           (Stats.percentiles (Stats._opts s))
      then utils.number (or_zero (Stats._calculatePercentile level a))
      else utils.JUndefined).
  { intros key level Hin.
    rewrite Hl, (latency_entries _ key level Hin), Hp, fill_get.
    destruct (existsb _ _); reflexivity. }
  split; [reflexivity |].
  split; [change (utils.get "latencyExecute_mean" j)
            with (utils.number (TotalStats.latencyMean d));
          now rewrite Hm |].
  split; [reflexivity |].
  split; [exact Hentry |].
  intros Hdef key level Hin. rewrite (Hentry key level Hin), Hdef.
  assert (E : existsb (fun p => Qeq_bool p level)
                (Stats.percentiles Stats.defaultOptions) = true).
  { repeat (destruct Hin as [Hin|Hin];
            [pose proof (f_equal snd Hin) as El; cbn [snd] in El;
             subst level; vm_compute; reflexivity |]).
    destruct Hin. }
  now rewrite E.
Qed.

Lemma hystrix_latency_of_a_snapshot_witness :
  let s := snd (Stats.new (Stats.mkPartial None None None None)
                  Scenario.initial_heap) in
  let window := [Bucket.mk 0 5 5 0 0 [10; 20; 30; 40; 50] None] in
  let d := Stats._totals
             (snd (exec_state (Stats._generateStats window true)
                     (Scenario.initial_heap, s))) in
  let j := utils.mapToHystrixJson
             (RawStats.mk "a" "b" 0 false 30000 (1 # 2) 100 d) in
  Stats.percentiles (Stats._opts s) = Stats.percentiles Stats.defaultOptions /\
  utils.get "99.5" (utils.get "latencyExecute" j) = utils.number 50.
Proof.
  intros s window d j.
  assert (H : Stats.percentiles (Stats._opts s)
              = Stats.percentiles Stats.defaultOptions) by reflexivity.
  split; [exact H |].
  transitivity
    (utils.number
       (or_zero
          (Stats._calculatePercentile (Double.literal (995 # 1000))
             (Stats.sort (Stats.window_samples window))))).
  - apply (proj2 (proj2 (proj2 (proj2
             (hystrix_latency_of_a_snapshot Scenario.initial_heap s window
                "a" "b" 0 false 30000 (1 # 2) 100)))) H
             "99.5"%string (Double.literal (995 # 1000))).
    do 7 right. left. reflexivity.
  - vm_compute. reflexivity.
Defined.

End Hystrix.

(** ** What holds through the life of a breaker *)

Section Lifetime.

Import Brakes Invocation Process.

(** *** A property kept by every step *)

Section Kept.

Variable P : World -> Prop.
Variable QS : Stats.St -> Prop.

Hypothesis P_stats :
  forall A (m : M Stats.St A),
    preserves QS m -> preserves P (zoom stats_view stats_update m).
Hypothesis QS_generate : forall flag, preserves QS (Stats.generate_own flag).
Hypothesis QS_resetDerivs : preserves QS Stats._resetDerivs.
Hypothesis QS_spin : preserves QS Stats.spin.
Hypothesis QS_recording :
  forall method o,
    preserves QS (Stats.on_activeBucket method (Bucket.apply o)).
Hypothesis P_registry :
  forall A (m : M GlobalStats.St A),
    preserves P (zoom registry_view registry_update m).
Hypothesis P_instance :
  forall A (m : M GlobalStats.t A),
    preserves P (zoom instance set_instance m).
Hypothesis P_modify :
  forall f, Trace.keeps_circuit f -> preserves P (this (modify f)).
Hypothesis P_record :
  forall e, Trace.circuit_event e = false -> preserves P (record_event e).
Hypothesis P_clock : forall ms, preserves P (tick_clock ms).
Hypothesis P_open : preserves P _open.
Hypothesis P_close : preserves P _close.

Lemma QS_repeat_spin (n : nat) : preserves QS (Stats.repeat_spin n).
Proof.
  induction n as [|n IH]; cbn [Stats.repeat_spin].
  - apply preserves_ret.
  - apply preserves_bind; [apply QS_spin | intros _; exact IH].
Qed.

Lemma keeps_circuit_fallback (f : Fn) :
  Trace.keeps_circuit
    (fun b =>
       match _masterCircuit b with
       | Some c =>
           let (c', f') := Circuit.fallback f c in
           set_fallback (Some f') (set_masterCircuit (Some c') b)
       | None => set_fallback (Some f) b
       end).
Proof. intros b. destruct (_masterCircuit b); repeat split. Qed.

Ltac kept_step :=
  first
    [ assumption
    | apply preserves_ret
    | apply preserves_throw
    | apply preserves_gets
    | apply P_open
    | apply P_close
    | apply P_stats;
      first [ apply QS_generate
            | apply QS_resetDerivs
            | apply QS_spin
            | apply QS_repeat_spin
            | apply (QS_recording _ (Bucket.Success _))
            | apply (QS_recording _ (Bucket.Failure _))
            | apply (QS_recording _ (Bucket.Timeout _))
            | apply (QS_recording _ Bucket.ShortCircuit) ]
    | apply P_registry
    | apply P_instance
    | apply P_record; reflexivity
    | apply P_clock
    | apply P_modify;
      first [ apply keeps_circuit_fallback
            | intros ?; repeat split ]
    | apply preserves_discard
    | apply preserves_for_each; intros ?
    | apply preserves_try_catch; [| intros ?]
    | apply preserves_bind; [| intros ?]
    | match goal with
      | |- preserves _ (let _ := _ in _) => cbv zeta
      | |- preserves _ (if ?c then _ else _) => destruct c
      | |- preserves _ (match ?x with _ => _ end) => destruct x
      end ].

Ltac kept := repeat kept_step.

Lemma kept_stats_emit (event : string) (d : TotalStats.t) :
  preserves P (stats_emit event d).
Proof.
  unfold stats_emit, _checkStats, _snapshotHandler, emit_snapshot. kept.
Qed.

Lemma kept_update :
  preserves P (Stats._update stats_view stats_update stats_emit).
Proof.
  unfold Stats._update.
  apply preserves_bind; [kept | intros d; apply kept_stats_emit].
Qed.

Lemma kept_recording (method : string) (o : Bucket.op) :
  preserves P
    (zoom stats_view stats_update
       (Stats.on_activeBucket method (Bucket.apply o)) ;;
     Stats._update stats_view stats_update stats_emit).
Proof.
  apply preserves_bind; [| intros _; apply kept_update].
  apply P_stats, QS_recording.
Qed.

Lemma kept_reset : preserves P _stats_reset.
Proof.
  unfold _stats_reset, Stats.reset.
  apply preserves_bind; [apply preserves_gets | intros n].
  apply preserves_bind; [apply P_stats, QS_repeat_spin | intros _].
  apply kept_update.
Qed.

Lemma kept_snapshot : preserves P _stats_snapshot.
Proof.
  unfold _stats_snapshot, Stats._snapshot.
  apply preserves_bind; [kept | intros d].
  apply preserves_bind; [apply kept_stats_emit | intros _]. kept.
Qed.

Lemma kept_call_listener (l : EventEmitter.Listener) (o : Outcome) :
  preserves P (call_listener l o).
Proof.
  destruct l, o; cbn [call_listener]; try apply preserves_ret.
  - apply (kept_recording "success" (Bucket.Success ms)).
  - unfold _timeoutHandler.
    apply preserves_bind; [apply preserves_gets | intros b].
    destruct (_ =? _); [| apply preserves_ret].
    apply (kept_recording "timeout" (Bucket.Timeout ms)).
  - unfold _failureHandler.
    apply preserves_bind; [apply preserves_gets | intros b].
    destruct (_ =? _); [| apply preserves_ret].
    apply (kept_recording "failure" (Bucket.Failure ms)).
Qed.

Lemma kept_emit_outcome (o : Outcome) : preserves P (emit_outcome o).
Proof.
  unfold emit_outcome.
  apply preserves_bind; [apply P_record; now destruct o | intros _].
  apply preserves_bind; [apply preserves_gets | intros ls].
  apply preserves_for_each. intros l. apply kept_call_listener.
Qed.

Lemma kept_circuit_exec (c : Circuit.t) (arguments : list JsValue) :
  preserves P (Circuit_exec c arguments).
Proof.
  unfold Circuit_exec, emit.
  apply preserves_bind; [apply P_record; reflexivity | intros _].
  apply preserves_bind; [apply preserves_gets | intros b].
  destruct (_circuitOpen b); [| kept].
  apply preserves_bind;
    [apply (kept_recording "shortCircuit" Bucket.ShortCircuit) | intros _].
  kept.
Qed.

Lemma kept_on_rejected (c : Circuit.t) (call : Call) (err : JsError) :
  preserves P (on_rejected c call err).
Proof.
  unfold on_rejected.
  apply preserves_bind; [apply preserves_gets | intros now]. cbv zeta.
  apply preserves_bind.
  - destruct (instanceof_TimeOutError err); [apply kept_emit_outcome |].
    destruct (Circuit.isFailure c err);
      [apply kept_emit_outcome | apply preserves_ret].
  - intros _. kept.
Qed.

Lemma kept_settle (c : Circuit.t) (call : Call) (s : Settlement) :
  preserves P (Circuit_settle c call s).
Proof.
  unfold Circuit_settle.
  apply preserves_try_catch; [| intros e; apply preserves_ret].
  destruct s as [result | err]; [| apply kept_on_rejected].
  apply preserves_try_catch; [| intros e; apply kept_on_rejected].
  apply preserves_bind; [apply preserves_gets | intros now].
  apply preserves_bind; [apply kept_emit_outcome | intros _].
  apply preserves_ret.
Qed.

Lemma kept_run (a : Action) : preserves P (run a).
Proof.
  destruct a; cbn [run].
  - apply preserves_discard. unfold Brakes_exec.
    apply preserves_bind; [apply preserves_gets | intros b].
    destruct (_masterCircuit b);
      [apply kept_circuit_exec | apply preserves_ret].
  - apply preserves_discard, kept_circuit_exec.
  - apply preserves_discard, kept_settle.
  - apply kept_snapshot.
  - unfold rotation_tick. kept.
  - unfold cooldown_fire.
    apply preserves_bind; [kept | intros _].
    apply preserves_bind; [apply kept_reset | intros _]. kept.
  - unfold health_tick_closed, clear_healthInterval. kept.
  - unfold healthCheck_resolved, healthCheck_rejected, clear_healthInterval,
      emit.
    apply preserves_try_catch; [| intros e; kept].
    apply preserves_bind; [apply preserves_gets | intros b].
    apply preserves_bind.
    + destruct (_circuitOpen b); [| apply preserves_ret].
      apply preserves_bind; [apply kept_reset | intros _]. kept.
    + intros _. kept.
  - unfold healthCheck_rejected, emit. kept.
  - unfold destroy. kept.
  - unfold fallback. kept.
  - unfold healthCheck. kept.
  - kept.
  - kept.
  - kept.
  - apply kept_emit_outcome.
  - kept.
  - apply P_instance.
Qed.

Lemma kept_run_all (actions : list Action) :
  forall w, P w -> P (run_all actions w).
Proof.
  induction actions as [|a actions IH]; intros w Hw; [exact Hw |].
  cbn [run_all]. apply IH, kept_run, Hw.
Qed.

End Kept.

End Lifetime.

Section Coherence.

Import Brakes Invocation Process.

Lemma opens_app (es : list Event) (e : Event) :
  Trace.opens (es ++ [e]) =
  Trace.opens es + match e with CircuitOpen => 1 | _ => 0 end.
Proof.
  unfold Trace.opens. rewrite filter_app, length_app.
  destruct e; cbn; lia.
Qed.

Lemma announced_app (es : list Event) (e : Event) :
  Trace.announced (es ++ [e]) =
  match e with
  | CircuitOpen => true
  | CircuitClosed => false
  | _ => Trace.announced es
  end.
Proof. unfold Trace.announced. rewrite fold_left_app. reflexivity. Qed.

(** *** The [Stats] of a new breaker *)

Lemma Stats_new_shape (opts : Stats.PartialOpts) (h : Heap) :
  Stats.new opts h =
  (h, Stats.mk (Stats.assign_options opts)
        (Stats.bucketNum (Stats.assign_options opts) - 1) None
        (repeat (Bucket.new None)
           (Z.to_nat (Stats.bucketNum (Stats.assign_options opts))))
        (Stats._totals (snd (Stats.new opts h))) true false).
Proof. reflexivity. Qed.

Lemma Brakes_new_stats (object_id : nat) (func : option Fn)
  (opts : UserOptions) (h : Heap) (g : GlobalStats.t) (fns : nat) (now : Z) :
  _stats (brakes (Brakes.new object_id func opts h g fns now)) =
  Stats.set_snapshotInterval true (snd (Stats.new (stats_options opts) h)).
Proof.
  unfold Brakes.new.
  destruct (Stats.new (stats_options opts) h) as [h' stats].
  destruct opts as [? ? ? ? ? ? ? ? ? ? ? ? ? rg hc fb].
  unfold exec_state, bind, _attachListeners, _stats_startSnapshots,
    Stats.startSnapshots, this, zoom, modify, healthCheck,
    fallback, ret.
  destruct rg as [[|]|], hc, fb, func; reflexivity.
Qed.

(** *** The window keeps its size *)

Lemma window_generate (n : Z) (flag : bool) :
  preserves (Trace.stats_window_of n) (Stats.generate_own flag).
Proof. intros [h s] H. exact H. Qed.

Lemma assign_keeps (Q : Stats.t -> Prop) (f : CumulativeStats.field)
  (prop : string) (v : Z) :
  preserves (fun st => Q (snd st)) (Stats.cumulative_assign f prop v).
Proof.
  intros [h s] H. unfold Stats.cumulative_assign.
  destruct (Stats._cumulative s); exact H.
Qed.

Lemma resetDerivs_keeps (Q : Stats.t -> Prop) :
  preserves (fun st => Q (snd st)) Stats._resetDerivs.
Proof.
  unfold Stats._resetDerivs.
  repeat (apply preserves_bind; [apply assign_keeps | intros _]).
  apply assign_keeps.
Qed.

Lemma window_resetDerivs (n : Z) :
  preserves (Trace.stats_window_of n) Stats._resetDerivs.
Proof. apply (resetDerivs_keeps (Trace.window_of n)). Qed.

Lemma window_spin (n : Z) : preserves (Trace.stats_window_of n) Stats.spin.
Proof.
  intros [h s] (Ho & Hl & Ha).
  split; [exact Ho |]. split; [| exact Ha].
  cbn [fst snd Stats.set_buckets Stats._buckets Stats.spin modify] in Hl |- *.
  now rewrite shiftAndPush_length.
Qed.

Lemma window_recording (n : Z) (method : string) (o : Bucket.op) :
  preserves (Trace.stats_window_of n)
    (Stats.on_activeBucket method (Bucket.apply o)).
Proof.
  intros [h s] (Ho & Hl & Ha). unfold Stats.on_activeBucket.
  destruct (Stats._activeBucket s) as [b|] eqn:Eb;
    [| repeat split; assumption].
  destruct (Bucket.apply o (h, b)) as [[h' b'] r].
  split; [exact Ho |]. split; [| exact Ha].
  unfold Stats._activeBucket, js_index in Eb.
  destruct (_ <? 0); [discriminate |].
  assert (Hlt : (Z.to_nat (Stats._activePosition s)
                 < List.length (Stats._buckets s))%nat)
    by (apply nth_error_Some; rewrite Eb; discriminate).
  cbn [fst snd Stats.set_buckets Stats._buckets] in Hl |- *.
  rewrite length_app, length_firstn. cbn [List.length].
  rewrite length_skipn. lia.
Qed.

Lemma coherent_kept (n : Z) (actions : list Action) :
  forall w, Trace.coherent n w -> Trace.coherent n (run_all actions w).
Proof.
  apply (kept_run_all (Trace.coherent n) (Trace.stats_window_of n)).
  - intros A m Hm.
    apply preserves_zoom with (Q := Trace.stats_window_of n);
      [| | exact Hm].
    + intros w (Hw & _). exact Hw.
    + intros t w (_ & Hg & Ho) Ht. split; [exact Ht |]. split; assumption.
  - apply window_generate.
  - apply window_resetDerivs.
  - apply window_spin.
  - apply window_recording.
  - intros A m w H. unfold zoom.
    destruct (m (registry_view w)) as [[[g fns] ev] r]. exact H.
  - intros A m w H. unfold zoom.
    destruct (m (instance w)) as [g r]. exact H.
  - intros f Hf w (Hw & Hg & Ho).
    change (Trace.coherent n (set_brakes (f (brakes w)) w)).
    unfold Trace.coherent. cbn [set_brakes brakes emitted].
    destruct (Hf (brakes w)) as (Es & Eo & Eg).
    split; [now rewrite Es |]. split; [now rewrite Eg | now rewrite Eo].
  - intros e He w (Hw & Hg & Ho).
    change (Trace.coherent n
              (mkWorld (heap w) (instance w) (functions w) (clock w)
                 (brakes w) (emitted w ++ [e]))).
    unfold Trace.coherent. cbn [brakes emitted].
    split; [exact Hw |].
    rewrite opens_app, announced_app.
    destruct e; try discriminate He; split; try lia; exact Ho.
  - intros ms w H. exact H.
  - intros w (Hw & Hg & Ho).
    destruct (bool_dec (_circuitOpen (brakes w)) true) as [E|E].
    + rewrite (open_when_open w E). exact (conj Hw (conj Hg Ho)).
    + apply not_true_is_false in E.
      destruct (open_when_closed w E)
        as (_ & Eo & Eg & Ee & _ & _ & Es & _).
      unfold exec_state in *.
      split; [now rewrite Es |].
      rewrite Eg, Ee, Eo, opens_app, announced_app. split; [lia | reflexivity].
  - intros w (Hw & Hg & Ho).
    change (Trace.coherent n
              (mkWorld (heap w) (instance w) (functions w) (clock w)
                 (set_circuitOpen false (brakes w))
                 (emitted w ++ [CircuitClosed]))).
    unfold Trace.coherent. cbn [brakes emitted set_circuitOpen _stats
                                  _circuitGeneration _circuitOpen].
    split; [exact Hw |].
    rewrite opens_app, announced_app. split; [lia | reflexivity].
Qed.

Lemma new_coherent (object_id : nat) (func : option Fn) (opts : UserOptions)
  (h : Heap) (g : GlobalStats.t) (fns : nat) (now : Z) :
  Trace.coherent
    (Stats.bucketNum (Stats.assign_options (stats_options opts)))
    (Brakes.new object_id func opts h g fns now).
Proof.
  destruct (Brakes_new_fields object_id func opts h g fns now)
    as (Hc & Hg & _ & He & _).
  split; [| split].
  - rewrite Brakes_new_stats, Stats_new_shape.
    repeat split. cbn. apply repeat_length.
  - rewrite Hg, He. reflexivity.
  - rewrite Hc, He. reflexivity.
Qed.

Lemma reachable_coherent (object_id : nat) (func : option Fn)
  (opts : UserOptions) (h : Heap) (g : GlobalStats.t) (fns : nat) (now : Z)
  (actions : list Action) :
  Trace.coherent
    (Stats.bucketNum (Stats.assign_options (stats_options opts)))
    (run_all actions (Brakes.new object_id func opts h g fns now)).
Proof. apply coherent_kept, new_coherent. Qed.

(** X10.  Whatever happens to a breaker after its construction (calls,
    settlements, timers, health checks, [destroy], direct calls of
    [_open] and [_close]), the events it has emitted tell the state of
    its circuit: [circuitGeneration] is 1 plus the number of
    [circuitOpen] events, and the circuit is open exactly when the last
    of its [circuitOpen] and [circuitClosed] events is a [circuitOpen]. *)
Theorem events_tell_the_state_of_the_circuit (object_id : nat)
  (func : option Fn) (opts : UserOptions) (h : Heap) (g : GlobalStats.t)
  (fns : nat) (now : Z) (actions : list Action) :
  let w := run_all actions (Brakes.new object_id func opts h g fns now) in
  _circuitGeneration (brakes w) = 1 + Trace.opens (emitted w) /\
  _circuitOpen (brakes w) = Trace.announced (emitted w) /\
  1 <= _circuitGeneration (brakes w).
Proof.
  intros w.
  destruct (reachable_coherent object_id func opts h g fns now actions)
    as (_ & Hg & Ho).
  fold w in Hg, Ho.
  split; [exact Hg |]. split; [exact Ho |].
  rewrite Hg. unfold Trace.opens. lia.
Qed.

(** X11.  Through recordings, rotations, resets and everything else that
    happens to a breaker, the window of its [Stats] holds the configured
    number of buckets ([bucketNum], 60 by default) and its active bucket
    is the last one; with a [bucketNum] of 0 or less there is no bucket
    and no active bucket. *)
Theorem window_keeps_its_buckets (object_id : nat) (func : option Fn)
  (opts : UserOptions) (h : Heap) (g : GlobalStats.t) (fns : nat) (now : Z)
  (actions : list Action) :
  let w := run_all actions (Brakes.new object_id func opts h g fns now) in
  let s := _stats (brakes w) in
  let n := match Brakes.opt_bucketNum opts with Some k => k | None => 60 end in
  Stats.bucketNum (Stats._opts s) = n /\
  List.length (Stats._buckets s) = Z.to_nat n /\
  Stats._activeBucket s =
    (if 0 <? n then nth_error (Stats._buckets s) (Nat.pred (Z.to_nat n))
     else None) /\
  (if 0 <? n then Stats._activeBucket s <> None
   else Stats._buckets s = []).
Proof.
  intros w s n.
  destruct (reachable_coherent object_id func opts h g fns now actions)
    as ((Ho & Hl & Ha) & _).
  fold w in Ho, Hl, Ha. fold s in Ho, Hl, Ha.
  assert (En : Stats.bucketNum (Stats.assign_options (stats_options opts)) = n)
    by (subst n; destruct opts as [? ? ? ? ? [k|]]; reflexivity).
  rewrite En in Ho, Hl, Ha.
  split; [exact Ho |]. split; [exact Hl |].
  assert (Eact : Stats._activeBucket s =
                 (if 0 <? n
                  then nth_error (Stats._buckets s) (Nat.pred (Z.to_nat n))
                  else None)).
  { unfold Stats._activeBucket, js_index. rewrite Ha.
    destruct (Z.ltb_spec 0 n) as [Hn|Hn].
    - destruct (Z.ltb_spec (n - 1) 0); [lia |].
      f_equal. lia.
    - destruct (Z.ltb_spec (n - 1) 0); [reflexivity | lia]. }
  split; [exact Eact |].
  rewrite Eact.
  destruct (Z.ltb_spec 0 n) as [Hn|Hn].
  - intros H. apply nth_error_None in H. lia.
  - destruct (Stats._buckets s); [reflexivity | cbn in Hl; lia].
Qed.

(** *** The timers *)

Lemma timers_kept (actions : list Action) :
  forall w,
    Trace.timers_on (_stats (brakes w)) ->
    Trace.timers_on (_stats (brakes (run_all actions w))).
Proof.
  apply (kept_run_all (fun w => Trace.timers_on (_stats (brakes w)))
           (fun st => Trace.timers_on (snd st))).
  - intros A m Hm.
    apply preserves_zoom with (Q := fun st => Trace.timers_on (snd st));
      [| | exact Hm].
    + intros w H. exact H.
    + intros t w _ Ht. exact Ht.
  - intros flag [h s] H. exact H.
  - apply (resetDerivs_keeps Trace.timers_on).
  - intros [h s] H. exact H.
  - intros method o [h s] H. unfold Stats.on_activeBucket.
    destruct (Stats._activeBucket s) as [b|]; [| exact H].
    destruct (Bucket.apply o (h, b)) as [[h' b'] r]. exact H.
  - intros A m w H. unfold zoom.
    destruct (m (registry_view w)) as [[[g fns] ev] r]. exact H.
  - intros A m w H. unfold zoom.
    destruct (m (instance w)) as [g r]. exact H.
  - intros f Hf w H.
    change (Trace.timers_on (_stats (f (brakes w)))).
    destruct (Hf (brakes w)) as (Es & _). now rewrite Es.
  - intros e _ w H. exact H.
  - intros ms w H. exact H.
  - intros w H.
    destruct (_circuitOpen (brakes w)) eqn:E.
    + now rewrite (open_when_open w E).
    + destruct (open_when_closed w E) as (_ & _ & _ & _ & _ & _ & Es & _).
      unfold exec_state in Es. now rewrite Es.
  - intros w H. exact H.
Qed.

(** X12.  The two timers of the [Stats] of a breaker, the bucket rotation
    and the snapshots, are scheduled by the construction and stay
    scheduled through everything that happens to the breaker, [destroy]
    included: no method of the breaker stops them.  On such a [Stats],
    [stopSnapshots] and [_stopBucketSpinning] return [true] and clear the
    timer, and return [false] when called again. *)
Theorem timers_outlive_the_breaker (object_id : nat) (func : option Fn)
  (opts : UserOptions) (h : Heap) (g : GlobalStats.t) (fns : nat) (now : Z)
  (actions : list Action) :
  let w := run_all actions (Brakes.new object_id func opts h g fns now) in
  let st := stats_view w in
  Stats._spinningInterval (snd st) = true /\
  Stats._snapshotInterval (snd st) = true /\
  completion Stats.stopSnapshots st = Normal true /\
  completion Stats.stopSnapshots (exec_state Stats.stopSnapshots st)
  = Normal false /\
  completion Stats._stopBucketSpinning st = Normal true /\
  completion Stats._stopBucketSpinning
    (exec_state Stats._stopBucketSpinning st) = Normal false.
Proof.
  intros w st.
  assert (H : Trace.timers_on (_stats (brakes w))).
  { apply timers_kept. rewrite Brakes_new_stats, Stats_new_shape.
    split; reflexivity. }
  destruct H as [H1 H2]. subst st. unfold stats_view. cbn [snd].
  split; [exact H1 |]. split; [exact H2 |].
  unfold completion, exec_state, Stats.stopSnapshots,
    Stats._stopBucketSpinning.
  rewrite H1, H2. cbn. repeat split; reflexivity.
Qed.

End Coherence.

Section Recovery.

Import Brakes Invocation Process.

Lemma sum_of_repeat (f : Bucket.field) (c : option Ref) (n : nat) :
  Trace.sum_of f (repeat (Bucket.new c) n) = 0.
Proof.
  unfold Trace.sum_of. induction n as [|n IH]; cbn -[Z.add]; [reflexivity |].
  rewrite IH. destruct f; reflexivity.
Qed.

Lemma generateStats_false_latency (h : Heap) (s : Stats.t)
  (buckets : list Bucket.t) :
  let d := Stats._totals
             (snd (exec_state (Stats._generateStats buckets false) (h, s))) in
  TotalStats.latencyMean d = TotalStats.latencyMean (Stats._totals s) /\
  TotalStats.percentiles d = TotalStats.percentiles (Stats._totals s).
Proof.
  unfold exec_state, Stats._generateStats. cbn -[fold_left].
  destruct (Stats._cumulative s); split; reflexivity.
Qed.

(** The state after [reset] on a full window. *)
Lemma reset_eq (n : Z) (w : World) :
  Trace.window_of n (_stats (brakes w)) ->
  let s := _stats (brakes w) in
  let fresh := repeat (Bucket.new (Stats._cumulative s)) (Z.to_nat n) in
  let s1 := Stats.set_buckets fresh s in
  let d := Stats._totals
             (snd (exec_state (Stats._generateStats fresh false)
                     (heap w, s1))) in
  _stats_reset w =
    (mkWorld (heap w) (instance w) (functions w) (clock w)
       (set_stats (Stats.set_totals d s1) (brakes w))
       (emitted w ++ [StatsUpdate d]),
     Normal tt) /\
  TotalStats.total d = 0 /\ TotalStats.successful d = 0 /\
  TotalStats.failed d = 0 /\ TotalStats.timedOut d = 0 /\
  TotalStats.shortCircuited d = 0 /\
  TotalStats.latencyMean d = TotalStats.latencyMean (Stats._totals s) /\
  TotalStats.percentiles d = TotalStats.percentiles (Stats._totals s).
Proof.
  intros (Ho & Hl & Ha) s fresh s1 d.
  destruct (generateStats_counters (heap w) s1 fresh false)
    as (H1 & H2 & H3 & H4 & H5).
  fold d in H1, H2, H3, H4, H5.
  unfold fresh in H1, H2, H3, H4, H5.
  rewrite sum_of_repeat in H1, H2, H3, H4, H5.
  split.
  - unfold _stats_reset, Stats.reset.
    unfold bind at 1. unfold gets at 1. cbv beta iota.
    change (snd (stats_view w)) with s.
    assert (Ho' : Stats.bucketNum (Stats._opts s) = n) by exact Ho.
    assert (Hl' : List.length (Stats._buckets s) = Z.to_nat n) by exact Hl.
    rewrite Ho'.
    assert (E1 : zoom stats_view stats_update
                   (Stats.repeat_spin (Z.to_nat n)) w
                 = (stats_update (heap w, s1) w, Normal tt)).
    { apply zoom_eq. unfold stats_view. fold s. rewrite repeat_spin_eq.
      rewrite Hl', Nat.min_id, skipn_all2 by lia.
      reflexivity. }
    rewrite (bind_normal _ _ _ _ _ E1).
    unfold Stats._update.
    destruct (generateStats_result (heap w) s1 fresh false) as (E2 & _).
    fold d in E2.
    assert (E3 : zoom stats_view stats_update (Stats.generate_own false)
                   (stats_update (heap w, s1) w)
                 = (stats_update (heap w, Stats.set_totals d s1)
                      (stats_update (heap w, s1) w), Normal d)).
    { apply zoom_eq. exact E2. }
    rewrite (bind_normal _ _ _ _ _ E3).
    rewrite update_event_eq, checkStats_eq, H1. cbn [Z.eqb negb andb].
    rewrite andb_false_r. cbn [andb].
    destruct w as [h g fns c b e]; destruct b; reflexivity.
  - repeat (split; [assumption |]).
    exact (generateStats_false_latency (heap w) s1 fresh).
Qed.

(** X13.  [reset] on the [Stats] of a breaker, in whatever state the
    breaker is: every bucket of the window is replaced by a new, empty
    one; one [update] is emitted whose five window counters are 0 and
    whose latency figures are those of the last snapshot; the update
    never opens the circuit, and the call returns. *)
Theorem reset_empties_the_window (object_id : nat) (func : option Fn)
  (opts : UserOptions) (h : Heap) (g : GlobalStats.t) (fns : nat) (now : Z)
  (actions : list Action) :
  let w := run_all actions (Brakes.new object_id func opts h g fns now) in
  let w' := exec_state _stats_reset w in
  let d := Stats._totals (_stats (brakes w')) in
  completion _stats_reset w = Normal tt /\
  emitted w' = emitted w ++ [StatsUpdate d] /\
  TotalStats.total d = 0 /\ TotalStats.successful d = 0 /\
  TotalStats.failed d = 0 /\ TotalStats.timedOut d = 0 /\
  TotalStats.shortCircuited d = 0 /\
  TotalStats.latencyMean d =
    TotalStats.latencyMean (Stats._totals (_stats (brakes w))) /\
  TotalStats.percentiles d =
    TotalStats.percentiles (Stats._totals (_stats (brakes w))) /\
  Stats._buckets (_stats (brakes w')) =
    repeat (Bucket.new (Stats._cumulative (_stats (brakes w))))
      (List.length (Stats._buckets (_stats (brakes w)))) /\
  _circuitOpen (brakes w') = _circuitOpen (brakes w) /\
  _circuitGeneration (brakes w') = _circuitGeneration (brakes w).
Proof.
  intros w w' d.
  destruct (reachable_coherent object_id func opts h g fns now actions)
    as (Hw & _).
  fold w in Hw.
  destruct (reset_eq _ w Hw) as (E & H1 & H2 & H3 & H4 & H5 & H6 & H7).
  destruct Hw as (_ & Hl & _).
  subst d w'. unfold completion, exec_state. rewrite E. cbn [fst snd].
  cbn [brakes emitted set_stats _stats _circuitOpen _circuitGeneration
         Stats.set_totals Stats._totals Stats._buckets Stats.set_buckets].
  rewrite Hl.
  repeat (split; [first [reflexivity | assumption] |]). reflexivity.
Qed.

Lemma close_eq (w : World) :
  _close w =
  (mkWorld (heap w) (instance w) (functions w) (clock w)
     (set_circuitOpen false (brakes w)) (emitted w ++ [CircuitClosed]),
   Normal tt).
Proof. reflexivity. Qed.

(** X14.  When the timeout set by the opening of a breaker fires, in
    whatever state the breaker is then, the window is emptied as by
    [reset], the breaker is closed and stays at its generation, and it
    has emitted an [update] with counters at 0 followed by
    [circuitClosed], and nothing else. *)
Theorem cooldown_closes_the_breaker (object_id : nat) (func : option Fn)
  (opts : UserOptions) (h : Heap) (g : GlobalStats.t) (fns : nat) (now : Z)
  (actions : list Action) :
  let w := run_all actions (Brakes.new object_id func opts h g fns now) in
  let w' := exec_state cooldown_fire w in
  let d := Stats._totals (_stats (brakes w')) in
  completion cooldown_fire w = Normal tt /\
  _circuitOpen (brakes w') = false /\
  _circuitGeneration (brakes w') = _circuitGeneration (brakes w) /\
  emitted w' = emitted w ++ [StatsUpdate d; CircuitClosed] /\
  TotalStats.total d = 0 /\ TotalStats.successful d = 0 /\
  Forall (fun b => b = Bucket.new (Stats._cumulative (_stats (brakes w))))
    (Stats._buckets (_stats (brakes w'))).
Proof.
  intros w w' d.
  destruct (reachable_coherent object_id func opts h g fns now actions)
    as (Hw & _).
  fold w in Hw.
  set (w1 := set_brakes (set_cooldowns (Nat.pred (cooldowns (brakes w)))
                           (brakes w)) w).
  assert (Hw1 : Trace.window_of
                  (Stats.bucketNum (Stats.assign_options (stats_options opts)))
                  (_stats (brakes w1))) by exact Hw.
  destruct (reset_eq _ w1 Hw1) as (E & H1 & H2 & _).
  assert (E0 : this (modify (fun b =>
                 set_cooldowns (Nat.pred (cooldowns b)) b)) w
               = (w1, Normal tt)) by reflexivity.
  subst d w'. unfold completion, exec_state, cooldown_fire.
  rewrite (bind_normal _ _ _ _ _ E0), (bind_normal _ _ _ _ _ E).
  rewrite close_eq. unfold w1.
  cbn [fst snd brakes emitted set_brakes set_circuitOpen set_stats
         _stats _circuitOpen _circuitGeneration set_cooldowns
         Stats.set_totals Stats._totals Stats._buckets Stats.set_buckets
         heap instance functions clock].
  split; [reflexivity |]. split; [reflexivity |]. split; [reflexivity |].
  split; [now rewrite <- app_assoc |].
  split; [exact H1 |]. split; [exact H2 |].
  apply Forall_forall. intros b Hb. now apply repeat_spec in Hb.
Qed.

End Recovery.

Section OpenClose.

Import Brakes Invocation Process.

(** X15.  [_open] is guarded and [_close] is not.  On a closed breaker
    [_open] emits [circuitOpen], opens, adds one to the generation and
    schedules one way back: the health interval when a health check is
    set (and no timeout), one more timeout otherwise.  On an open breaker
    it changes and emits nothing, so that opening twice is opening once.
    [_close] closes and emits [circuitClosed] every time, also on a
    closed breaker, and leaves the generation alone. *)
Theorem open_is_guarded_and_close_is_not (w : World) :
  let w1 := exec_state _open w in
  let w2 := exec_state _close w in
  completion _open w = Normal tt /\
  _circuitOpen (brakes w1) = true /\
  _open w1 = (w1, Normal tt) /\
  _circuitGeneration (brakes w1) =
    _circuitGeneration (brakes w) + (if _circuitOpen (brakes w) then 0 else 1) /\
  emitted w1 =
    emitted w ++ (if _circuitOpen (brakes w) then [] else [CircuitOpen]) /\
  (if _circuitOpen (brakes w) then w1 = w
   else
     match _healthCheck (brakes w) with
     | Some _ =>
         _healthInterval (brakes w1) = true /\
         cooldowns (brakes w1) = cooldowns (brakes w)
     | None =>
         cooldowns (brakes w1) = S (cooldowns (brakes w)) /\
         _healthInterval (brakes w1) = _healthInterval (brakes w)
     end) /\
  completion _close w = Normal tt /\
  _circuitOpen (brakes w2) = false /\
  _circuitGeneration (brakes w2) = _circuitGeneration (brakes w) /\
  emitted w2 = emitted w ++ [CircuitClosed].
Proof.
  intros w1 w2.
  assert (Hclose : completion _close w = Normal tt /\
                   _circuitOpen (brakes w2) = false /\
                   _circuitGeneration (brakes w2) = _circuitGeneration (brakes w) /\
                   emitted w2 = emitted w ++ [CircuitClosed]).
  { subst w2. unfold completion, exec_state. rewrite close_eq.
    repeat split. }
  destruct (bool_dec (_circuitOpen (brakes w)) true) as [E|E].
  - assert (E1 : w1 = w) by (subst w1; unfold exec_state;
                              now rewrite (open_when_open w E)).
    unfold completion. rewrite E1, (open_when_open w E), E, app_nil_r.
    cbn [fst snd].
    split; [reflexivity |]. split; [reflexivity |]. split; [reflexivity |].
    split; [lia |]. split; [reflexivity |]. split; [reflexivity |].
    exact Hclose.
  - apply not_true_is_false in E.
    destruct (open_when_closed w E) as (Hn & Ho & Hg & He & _).
    fold w1 in Ho, Hg, He.
    split; [exact Hn |]. split; [exact Ho |].
    split; [apply (open_when_open w1 Ho) |].
    rewrite E. split; [exact Hg |]. split; [exact He |].
    split; [| exact Hclose].
    subst w1. clear Hn Ho Hg He Hclose w2.
    destruct w as [h g fns c b e]; destruct b. cbn in E |- *.
    unfold exec_state, _open, bind, gets. cbn.
    destruct _circuitOpen0; [discriminate E |]. cbn.
    destruct _healthCheck0; cbn; [destruct _healthInterval0 |]; cbn;
      split; reflexivity.
Qed.

Lemma healthCheck_resolved_eq (n : Z) (w : World) :
  Trace.window_of n (_stats (brakes w)) ->
  let mid :=
    if _circuitOpen (brakes w)
    then fst (_close (fst (_stats_reset w)))
    else w in
  healthCheck_resolved w =
  ((if _healthInterval (brakes w)
    then set_brakes (set_healthInterval false (brakes mid)) mid
    else mid),
   Normal tt).
Proof.
  intros Hw mid.
  destruct (reset_eq _ w Hw) as (E & _).
  assert (Hbody :
    (b <- gets brakes ;;
     (if _circuitOpen b then _stats_reset ;; _close else ret tt) ;;
     b <- gets brakes ;;
     if _healthInterval b then clear_healthInterval else ret tt) w
    = ((if _healthInterval (brakes w)
        then set_brakes (set_healthInterval false (brakes mid)) mid
        else mid),
       Normal tt)).
  { unfold bind at 1. unfold gets at 1. cbv beta iota.
    assert (Emid :
      (if _circuitOpen (brakes w) then _stats_reset ;; _close else ret tt) w
      = (mid, Normal tt)).
    { subst mid. destruct (_circuitOpen (brakes w)); [| reflexivity].
      rewrite (bind_normal _ _ _ _ _ E). rewrite E. cbn [fst].
      rewrite close_eq. reflexivity. }
    rewrite (bind_normal _ _ _ _ _ Emid).
    unfold bind, gets. cbv beta iota.
    assert (Eh : _healthInterval (brakes mid) = _healthInterval (brakes w)).
    { subst mid. destruct (_circuitOpen (brakes w)); [| reflexivity].
      rewrite E. cbn [fst]. rewrite close_eq. reflexivity. }
    rewrite Eh. destruct (_healthInterval (brakes w)); reflexivity. }
  unfold healthCheck_resolved, try_catch. rewrite Hbody. reflexivity.
Qed.

(** X16.  A health check that resolves, in whatever state the breaker is
    then: if the breaker is open its window is emptied as by [reset] and
    it is closed, with an [update] with counters at 0 and a
    [circuitClosed]; if it is closed nothing is emitted and the
    statistics are not touched; in both cases the health interval is
    cleared and the generation stays.  A health check that rejects only
    emits [healthCheckFailed] with the error: the breaker stays as it is,
    open if it was open. *)
Theorem health_check_outcomes (object_id : nat) (func : option Fn)
  (opts : UserOptions) (h : Heap) (g : GlobalStats.t) (fns : nat) (now : Z)
  (actions : list Action) (err : JsError) :
  let w := run_all actions (Brakes.new object_id func opts h g fns now) in
  let w' := exec_state healthCheck_resolved w in
  let d := Stats._totals (_stats (brakes w')) in
  completion healthCheck_resolved w = Normal tt /\
  _circuitOpen (brakes w') = false /\
  _healthInterval (brakes w') = false /\
  _circuitGeneration (brakes w') = _circuitGeneration (brakes w) /\
  (if _circuitOpen (brakes w)
   then emitted w' = emitted w ++ [StatsUpdate d; CircuitClosed] /\
        TotalStats.total d = 0 /\
        Forall
          (fun b => b = Bucket.new (Stats._cumulative (_stats (brakes w))))
          (Stats._buckets (_stats (brakes w')))
   else emitted w' = emitted w /\ _stats (brakes w') = _stats (brakes w)) /\
  healthCheck_rejected err w =
    (mkWorld (heap w) (instance w) (functions w) (clock w) (brakes w)
       (emitted w ++ [HealthCheckFailed err]),
     Normal tt).
Proof.
  intros w w' d.
  destruct (reachable_coherent object_id func opts h g fns now actions)
    as (Hw & _).
  fold w in Hw.
  pose proof (healthCheck_resolved_eq _ w Hw) as E. cbv zeta in E.
  destruct (reset_eq _ w Hw) as (Er & H1 & _).
  subst d w'. unfold completion, exec_state. rewrite E. cbn [fst snd].
  clear E.
  destruct (_circuitOpen (brakes w)) eqn:Eo.
  - rewrite Er. cbn [fst]. rewrite close_eq. cbn [fst].
    destruct (_healthInterval (brakes w)) eqn:Eh;
      cbn [fst snd brakes emitted set_brakes set_circuitOpen set_stats
             set_healthInterval _stats _circuitOpen _circuitGeneration
             _healthInterval Stats.set_totals Stats._totals Stats._buckets
             Stats.set_buckets heap instance functions clock];
      (split; [reflexivity |]); (split; [reflexivity |]);
      (split; [first [reflexivity | exact Eh] |]);
      (split; [reflexivity |]);
      (split; [| reflexivity]);
      (split; [now rewrite <- app_assoc |]);
      (split; [exact H1 |]);
      apply Forall_forall; intros b Hb; now apply repeat_spec in Hb.
  - destruct (_healthInterval (brakes w)) eqn:Eh;
      cbn [fst snd brakes emitted set_brakes set_healthInterval _stats
             _circuitOpen _circuitGeneration _healthInterval];
      (split; [reflexivity |]); (split; [exact Eo |]);
      (split; [first [reflexivity | exact Eh] |]);
      (split; [reflexivity |]);
      (split; [| reflexivity]); split; reflexivity.
Qed.

End OpenClose.

Section Registrations.

Import Brakes Invocation Process.

Lemma indexOf_absent (x : nat) (l : list nat) :
  ~ In x l -> GlobalStats.indexOf x l = -1.
Proof.
  induction l as [|y l IH]; intros Hn; cbn [GlobalStats.indexOf];
    [reflexivity |].
  destruct (Nat.eqb_spec y x) as [->|Hne]; [elim Hn; now left |].
  rewrite IH by (intros H; apply Hn; now right). reflexivity.
Qed.

Lemma indexOf_first (x : nat) (l1 l2 : list nat) :
  ~ In x l1 ->
  GlobalStats.indexOf x (l1 ++ x :: l2) = Z.of_nat (List.length l1).
Proof.
  induction l1 as [|y l1 IH]; intros Hn; cbn [app GlobalStats.indexOf].
  - now rewrite Nat.eqb_refl.
  - destruct (Nat.eqb_spec y x) as [->|Hne]; [elim Hn; now left |].
    rewrite IH by (intros H; apply Hn; now right).
    destruct (Z.ltb_spec (Z.of_nat (List.length l1)) 0); [lia |].
    cbn [List.length]. lia.
Qed.

Lemma splice1_first (x : nat) (l1 l2 : list nat) :
  GlobalStats.splice1 (Z.of_nat (List.length l1)) (l1 ++ x :: l2) = l1 ++ l2.
Proof.
  unfold GlobalStats.splice1. rewrite Nat2Z.id.
  rewrite firstn_app, Nat.sub_diag, firstn_all. cbn [firstn].
  rewrite app_nil_r.
  rewrite skipn_app, skipn_all2 by lia.
  replace (S (List.length l1) - List.length l1)%nat with 1%nat by lia.
  reflexivity.
Qed.

Lemma existsb_eqb_In (x : nat) (l : list nat) :
  existsb (Nat.eqb x) l = true <-> In x l.
Proof.
  rewrite existsb_exists. split.
  - intros (y & Hy & E). apply Nat.eqb_eq in E. now subst y.
  - intros H. exists x. split; [exact H | apply Nat.eqb_refl].
Qed.

(** [deregister] returns, and what it does to the number of instances. *)
Lemma deregister_count (g : GlobalStats.t) (fns : nat) (ev : EventEmitter.t)
  (instance : nat) :
  let run := GlobalStats.deregister instance (g, fns, ev) in
  snd run = Normal tt /\
  GlobalStats.instanceCount (fst (fst (fst run))) =
    GlobalStats.instanceCount g
    - (if existsb (Nat.eqb instance) (GlobalStats._brakesInstances g)
       then 1 else 0).
Proof.
  intros run. subst run. destruct g as [l paused raw].
  unfold GlobalStats.deregister, bind, gets, modify,
    GlobalStats.bind_globalListener, GlobalStats.instanceCount.
  cbv beta iota. cbn [GlobalStats._brakesInstances].
  destruct (existsb (Nat.eqb instance) l) eqn:E.
  - apply existsb_eqb_In in E.
    pose proof (indexOf_range instance l E) as Hr.
    destruct (Z.gtb_spec (GlobalStats.indexOf instance l) (-1)); [| lia].
    cbn [fst snd GlobalStats._brakesInstances].
    split; [reflexivity |].
    rewrite (splice1_length _ _ Hr).
    destruct l; [destruct E | cbn [List.length Nat.pred]; lia].
  - assert (Hn : ~ In instance l).
    { intros H. apply existsb_eqb_In in H. congruence. }
    rewrite (indexOf_absent _ _ Hn). split; [reflexivity |]. cbn. lia.
Qed.

(** X17.  [deregister] takes the first registration of the instance out
    of the list of instances and leaves the others where they are; for an
    instance that is not registered the list is unchanged.  In both cases
    it returns, and the raw stream and its paused flag are not touched. *)
Theorem deregister_removes_the_first_registration (g : GlobalStats.t)
  (fns : nat) (ev : EventEmitter.t) (instance : nat) :
  let l := GlobalStats._brakesInstances g in
  let run := GlobalStats.deregister instance (g, fns, ev) in
  let g' := fst (fst (fst run)) in
  snd run = Normal tt /\
  GlobalStats._rawStream g' = GlobalStats._rawStream g /\
  GlobalStats._rawStream_isPaused g' = GlobalStats._rawStream_isPaused g /\
  (~ In instance l -> GlobalStats._brakesInstances g' = l) /\
  (forall l1 l2,
      l = l1 ++ instance :: l2 -> ~ In instance l1 ->
      GlobalStats._brakesInstances g' = l1 ++ l2) /\
  GlobalStats.instanceCount g' =
    GlobalStats.instanceCount g
    - (if existsb (Nat.eqb instance) l then 1 else 0).
Proof.
  intros l run g'.
  destruct (deregister_count g fns ev instance) as (Hret & Hcount).
  fold run in Hret, Hcount. fold g' in Hcount. fold l in Hcount.
  split; [exact Hret |].
  assert (Hlist :
    GlobalStats._rawStream g' = GlobalStats._rawStream g /\
    GlobalStats._rawStream_isPaused g' = GlobalStats._rawStream_isPaused g /\
    GlobalStats._brakesInstances g' =
      (if GlobalStats.indexOf instance l >? -1
       then GlobalStats.splice1 (GlobalStats.indexOf instance l) l
       else l)).
  { subst g' run l. destruct g as [l paused raw].
    unfold GlobalStats.deregister, bind, gets, modify,
      GlobalStats.bind_globalListener.
    cbv beta iota. cbn [GlobalStats._brakesInstances].
    destruct (GlobalStats.indexOf instance l >? -1); repeat split. }
  destruct Hlist as (Hraw & Hpaused & Hl).
  split; [exact Hraw |]. split; [exact Hpaused |].
  split; [| split; [| exact Hcount]].
  - intros Hn. rewrite Hl, (indexOf_absent _ _ Hn). reflexivity.
  - intros l1 l2 El Hn1. rewrite Hl, El, (indexOf_first _ _ _ Hn1).
    destruct (Z.gtb_spec (Z.of_nat (List.length l1)) (-1)); [| lia].
    apply splice1_first.
Qed.

Lemma deregister_removes_the_first_registration_witness :
  let g := GlobalStats.mk [4; 7; 4]%nat false [] in
  ~ In 9%nat (GlobalStats._brakesInstances g) /\
  GlobalStats._brakesInstances g = [4%nat] ++ 7%nat :: [4%nat] /\
  ~ In 7%nat [4%nat] /\
  GlobalStats._brakesInstances
    (fst (fst (fst (GlobalStats.deregister 9%nat (g, 0%nat, []))))) =
  [4; 7; 4]%nat /\
  GlobalStats._brakesInstances
    (fst (fst (fst (GlobalStats.deregister 7%nat (g, 0%nat, []))))) =
  [4; 4]%nat.
Proof.
  intros g.
  assert (H9 : ~ In 9%nat (GlobalStats._brakesInstances g))
    by (cbn; intros [H|[H|[H|[]]]]; discriminate H).
  assert (H7 : ~ In 7%nat [4%nat])
    by (cbn; intros [H|[]]; discriminate H).
  split; [exact H9 |]. split; [reflexivity |]. split; [exact H7 |].
  split.
  - exact (proj1 (proj2 (proj2 (proj2
             (deregister_removes_the_first_registration g 0%nat [] 9%nat))))
             H9).
  - exact (proj1 (proj2 (proj2 (proj2 (proj2
             (deregister_removes_the_first_registration g 0%nat [] 7%nat)))))
             [4%nat] [4%nat] eq_refl H7).
Defined.

End Registrations.

Section Destroy.

Import Brakes Invocation Process.

Lemma strip_filter (names : list string) :
  forall ev : EventEmitter.t,
    fold_left (fun e n => EventEmitter.removeAllListeners n e) names ev
    = filter (fun p => negb (existsb (String.eqb (fst p)) names)) ev.
Proof.
  induction names as [|n names IH]; intros ev; cbn [fold_left existsb].
  - induction ev as [|p ev IHev]; cbn; [reflexivity | now f_equal].
  - rewrite IH. unfold EventEmitter.removeAllListeners.
    induction ev as [|p ev IHev]; cbn [filter]; [reflexivity |].
    destruct (String.eqb (fst p) n) eqn:E; cbn [negb orb].
    + exact IHev.
    + cbn [filter]. destruct (existsb _ names); cbn [negb];
        [exact IHev | now rewrite IHev].
Qed.

Lemma strip_eventNames (ev : EventEmitter.t) :
  fold_left (fun e n => EventEmitter.removeAllListeners n e)
    (EventEmitter.eventNames ev) ev = [].
Proof.
  rewrite strip_filter.
  assert (H : forall p, In p ev ->
            negb (existsb (String.eqb (fst p)) (EventEmitter.eventNames ev))
            = false).
  { intros p Hp. apply negb_false_iff, existsb_exists.
    exists (fst p). split; [| apply String.eqb_refl].
    unfold EventEmitter.eventNames. apply nodup_In. now apply in_map. }
  revert H. generalize (EventEmitter.eventNames ev). intros names.
  induction ev as [|p ev IH]; intros H; cbn [filter]; [reflexivity |].
  rewrite (H p (or_introl eq_refl)).
  apply IH. intros q Hq. apply H. now right.
Qed.

Lemma for_each_remove_all (names : list string) :
  forall w,
    snd (for_each remove_all names w) = Normal tt /\
    _events (brakes (fst (for_each remove_all names w))) =
      fold_left (fun e n => EventEmitter.removeAllListeners n e) names
        (_events (brakes w)).
Proof.
  induction names as [|n names IH]; intros w; [split; reflexivity |].
  change (for_each remove_all (n :: names) w)
    with (for_each remove_all names
            (set_brakes
               (set_events
                  (EventEmitter.removeAllListeners n (_events (brakes w)))
                  (brakes w)) w)).
  apply IH.
Qed.

(** [destroy] touches the registry, the function counter and the
    listeners of the breaker, and nothing else. *)
Lemma destroy_keeps (P : World -> Prop) :
  (forall w g fns ev,
      P w ->
      P (mkWorld (heap w) g fns (clock w) (set_events ev (brakes w))
           (emitted w))) ->
  preserves P destroy.
Proof.
  intros H. unfold destroy.
  apply preserves_bind; [apply preserves_gets | intros b].
  apply preserves_bind.
  { intros w Hw. unfold zoom.
    destruct (GlobalStats.deregister (id b) (registry_view w))
      as [[[g fns] ev] r].
    apply (H w g fns ev Hw). }
  intros _.
  apply preserves_bind; [apply preserves_gets | intros names].
  apply preserves_for_each. intros event w Hw.
  apply (H w (instance w) (functions w)
           (EventEmitter.removeAllListeners event (_events (brakes w))) Hw).
Qed.

Lemma destroy_eq (w : World) :
  let w1 :=
    fst (zoom registry_view registry_update
           (GlobalStats.deregister (id (brakes w))) w) in
  destroy w =
  for_each remove_all (EventEmitter.eventNames (_events (brakes w1))) w1.
Proof.
  intros w1. unfold destroy.
  unfold bind at 1. unfold gets at 1. cbv beta iota.
  assert (E : zoom registry_view registry_update
                (GlobalStats.deregister (id (brakes w))) w
              = (w1, Normal tt)).
  { subst w1. unfold zoom.
    pose proof (proj1 (deregister_count
                         (instance w) (functions w) (_events (brakes w))
                         (id (brakes w)))) as Hn.
    cbv zeta in Hn. unfold registry_view.
    destruct (GlobalStats.deregister (id (brakes w))
                (instance w, functions w, _events (brakes w)))
      as [[[g fns] ev] r].
    cbn [snd] in Hn. rewrite Hn. reflexivity. }
  rewrite (bind_normal _ _ _ _ _ E). reflexivity.
Qed.

Lemma emit_outcome_unheard (o : Outcome) (w : World) :
  EventEmitter.listeners (outcome_name o) (_events (brakes w)) = [] ->
  emit_outcome o w =
  (mkWorld (heap w) (instance w) (functions w) (clock w) (brakes w)
     (emitted w ++ [outcome_event o]),
   Normal tt).
Proof.
  intros H. unfold emit_outcome, bind, record_event, modify, gets.
  cbv beta iota. cbn [brakes]. rewrite H. reflexivity.
Qed.

Lemma settle_resolved_unheard (c : Circuit.t) (call : Call)
  (result : JsValue) (w : World) :
  EventEmitter.listeners "success" (_events (brakes w)) = [] ->
  Circuit_settle c call (Resolved result) w =
  (mkWorld (heap w) (instance w) (functions w) (clock w) (brakes w)
     (emitted w ++ [Success (clock w - startTime call)]),
   Normal (Fulfilled result)).
Proof.
  intros H. unfold Circuit_settle, try_catch, bind, gets. cbv beta iota.
  rewrite (emit_outcome_unheard (OSuccess _) w H). reflexivity.
Qed.

(** X18.  [destroy], on a breaker in any state, returns and leaves the
    breaker without any listener, whatever was attached to it and under
    whatever event name; it takes one registration of the breaker out of
    the global list; it does not touch the statistics, the state of the
    circuit, the fallback or the events emitted so far.  From then on an
    outcome event is emitted and heard by no one: nothing is recorded, and
    a call whose service resolves is fulfilled with its result.  A second
    [destroy] leaves the breaker as the first left it. *)
Theorem destroy_detaches_every_listener (w : World) :
  let w' := exec_state destroy w in
  completion destroy w = Normal tt /\
  _events (brakes w') = [] /\
  _stats (brakes w') = _stats (brakes w) /\
  _circuitOpen (brakes w') = _circuitOpen (brakes w) /\
  _circuitGeneration (brakes w') = _circuitGeneration (brakes w) /\
  _fallback (brakes w') = _fallback (brakes w) /\
  _masterCircuit (brakes w') = _masterCircuit (brakes w) /\
  emitted w' = emitted w /\
  heap w' = heap w /\
  GlobalStats.instanceCount (instance w') =
    GlobalStats.instanceCount (instance w)
    - (if existsb (Nat.eqb (id (brakes w)))
            (GlobalStats._brakesInstances (instance w))
       then 1 else 0) /\
  (forall o : Outcome,
      emit_outcome o w' =
      (mkWorld (heap w') (instance w') (functions w') (clock w') (brakes w')
         (emitted w' ++ [outcome_event o]),
       Normal tt)) /\
  (forall (c : Circuit.t) (call : Call) (result : JsValue),
      let settled := Circuit_settle c call (Resolved result) w' in
      snd settled = Normal (Fulfilled result) /\
      _stats (brakes (fst settled)) = _stats (brakes w)) /\
  completion destroy w' = Normal tt /\
  brakes (exec_state destroy w') = brakes w' /\
  emitted (exec_state destroy w') = emitted w'.
Proof.
  intros w'.
  pose proof (destroy_eq w) as E. cbv zeta in E.
  set (w1 := fst (zoom registry_view registry_update
                    (GlobalStats.deregister (id (brakes w))) w)) in E.
  destruct (for_each_remove_all
              (EventEmitter.eventNames (_events (brakes w1))) w1)
    as (Hn & Hev).
  rewrite strip_eventNames in Hev.
  assert (Hcompl : completion destroy w = Normal tt)
    by (unfold completion; rewrite E; exact Hn).
  assert (Hevents : _events (brakes w') = [])
    by (subst w'; unfold exec_state; rewrite E; exact Hev).
  assert (Hkeep :
    _stats (brakes w') = _stats (brakes w) /\
    _circuitOpen (brakes w') = _circuitOpen (brakes w) /\
    _circuitGeneration (brakes w') = _circuitGeneration (brakes w) /\
    _fallback (brakes w') = _fallback (brakes w) /\
    _masterCircuit (brakes w') = _masterCircuit (brakes w) /\
    emitted w' = emitted w /\
    heap w' = heap w).
  { apply (destroy_keeps
             (fun x =>
                _stats (brakes x) = _stats (brakes w) /\
                _circuitOpen (brakes x) = _circuitOpen (brakes w) /\
                _circuitGeneration (brakes x) = _circuitGeneration (brakes w) /\
                _fallback (brakes x) = _fallback (brakes w) /\
                _masterCircuit (brakes x) = _masterCircuit (brakes w) /\
                emitted x = emitted w /\
                heap x = heap w)).
    - intros x g fns ev H. exact H.
    - repeat split. }
  assert (Hinst : instance w' = instance w1).
  { subst w'. unfold exec_state. rewrite E.
    apply (preserves_for_each (fun x => instance x = instance w1)).
    - intros event x Hx. exact Hx.
    - reflexivity. }
  assert (Hcount :
    GlobalStats.instanceCount (instance w') =
    GlobalStats.instanceCount (instance w)
    - (if existsb (Nat.eqb (id (brakes w)))
            (GlobalStats._brakesInstances (instance w))
       then 1 else 0)).
  { rewrite Hinst. subst w1. unfold zoom, registry_view.
    pose proof (proj2 (deregister_count
                         (instance w) (functions w) (_events (brakes w))
                         (id (brakes w)))) as Hc.
    cbv zeta in Hc.
    destruct (GlobalStats.deregister (id (brakes w))
                (instance w, functions w, _events (brakes w)))
      as [[[g fns] ev] r].
    exact Hc. }
  assert (Hquiet : forall o : Outcome,
      emit_outcome o w' =
      (mkWorld (heap w') (instance w') (functions w') (clock w') (brakes w')
         (emitted w' ++ [outcome_event o]),
       Normal tt)).
  { intros o. apply emit_outcome_unheard. now rewrite Hevents. }
  split; [exact Hcompl |]. split; [exact Hevents |].
  destruct Hkeep as (K1 & K2 & K3 & K4 & K5 & K6 & K7).
  repeat (split; [assumption |]).
  split.
  { intros c call result settled. subst settled.
    rewrite settle_resolved_unheard by now rewrite Hevents.
    split; [reflexivity | exact K1]. }
  clearbody w'.
  pose proof (destroy_eq w') as E'. cbv zeta in E'.
  assert (Ew1 : fst (zoom registry_view registry_update
                       (GlobalStats.deregister (id (brakes w'))) w')
                = registry_update
                    (fst (GlobalStats.deregister (id (brakes w'))
                            (registry_view w'))) w').
  { unfold zoom. destruct (GlobalStats.deregister _ _). reflexivity. }
  rewrite Ew1 in E'.
  destruct (GlobalStats.deregister (id (brakes w')) (registry_view w'))
    as [[[g fns] ev] r] eqn:Ed.
  assert (Eev : ev = []).
  { pose proof (f_equal (fun x => snd (fst x)) Ed) as H.
    cbn [fst snd] in H. rewrite <- H.
    unfold GlobalStats.deregister, registry_view, bind, gets, modify,
      GlobalStats.bind_globalListener.
    rewrite Hevents.
    destruct (_ >? -1); reflexivity. }
  subst ev. cbn [fst registry_update brakes set_events _events] in E'.
  unfold completion, exec_state. rewrite E'.
  cbn [EventEmitter.eventNames map nodup for_each ret fst snd brakes emitted].
  split; [reflexivity |]. split; [| reflexivity].
  destruct (brakes w'); cbn in Hevents |- *. now subst.
Qed.

End Destroy.

Section Rejection.

Import Brakes Invocation Process.

Lemma open_keeps_the_configuration (w : World) :
  let w1 := fst (_open w) in
  _fallback (brakes w1) = _fallback (brakes w) /\
  name (brakes w1) = name (brakes w) /\
  _opts (brakes w1) = _opts (brakes w) /\
  exists rest, emitted w1 = emitted w ++ rest.
Proof.
  destruct w as [h g fns c b e]; destruct b.
  unfold _open, bind, gets. cbn.
  destruct _circuitOpen0; cbn.
  - repeat split. exists []. now rewrite app_nil_r.
  - destruct _healthCheck0; cbn; [destruct _healthInterval0 |]; cbn;
      repeat split; eexists; reflexivity.
Qed.

Lemma settled_on_listener (w : World) (es : list Event)
  (l : EventEmitter.Listener) (o : Outcome) :
  preserves (Trace.settled_on w es) (call_listener l o).
Proof.
  apply (kept_call_listener (Trace.settled_on w es) (fun _ => True)).
  - intros A m _ x H. unfold zoom.
    destruct (m (stats_view x)) as [st r]. exact H.
  - intros flag st _. exact I.
  - intros method o' st _. exact I.
  - intros A m x H. unfold zoom.
    destruct (m (instance x)) as [g r]. exact H.
  - intros e _ x ((rest & Hr) & H).
    split; [| exact H]. exists (rest ++ [e]).
    change (emitted x ++ [e] = es ++ rest ++ [e]).
    now rewrite Hr, app_assoc.
  - intros x ((rest & Hr) & Hf & Hn & Ho).
    destruct (open_keeps_the_configuration x) as (Hf' & Hn' & Ho' & rest' & Hr').
    split; [| split; [| split]].
    + exists (rest ++ rest'). rewrite Hr', Hr. now rewrite app_assoc.
    + now rewrite Hf'.
    + now rewrite Hn'.
    + now rewrite Ho'.
Qed.

Lemma emit_outcome_settled (o : Outcome) (w : World) :
  Trace.settled_on w (emitted w ++ [outcome_event o]) (fst (emit_outcome o w)).
Proof.
  unfold emit_outcome, bind, record_event, modify, gets. cbv beta iota.
  set (w1 := mkWorld (heap w) (instance w) (functions w) (clock w) (brakes w)
               (emitted w ++ [outcome_event o])).
  apply (preserves_for_each (Trace.settled_on w (emitted w ++ [outcome_event o]))).
  - intros l. apply settled_on_listener.
  - split; [exists []; subst w1; cbn; now rewrite app_nil_r |].
    repeat split.
Qed.

(** X19.  The handler of a rejected call, on a breaker in any state.  It
    first emits [timeout] for a [TimeOutError], whatever [isFailure]
    says of it, [failure] for another error that [isFailure] accepts, and
    nothing for an error that [isFailure] refuses: such an error is not
    recorded and leaves the breaker as it was.  Then, unless a listener
    has thrown, the call ends with the fallback of the circuit if it has
    one, else with the fallback of the breaker if it has one, and is
    otherwise rejected with the error itself, whose message is prefixed
    with the name of the breaker exactly when the message and the name
    are not empty and [modifyError] is set.  It is never fulfilled. *)
Theorem rejection_goes_to_the_nearest_fallback (w : World) (c : Circuit.t)
  (call : Call) (err : JsError) :
  let run := on_rejected c call err w in
  let elapsed := clock w - startTime call in
  let b := brakes w in
  (exists rest,
      emitted (fst run) =
      emitted w
      ++ (if instanceof_TimeOutError err
          then [Timeout elapsed err (execGeneration call)]
          else if Circuit.isFailure c err
          then [Failure elapsed err (execGeneration call)]
          else [])
      ++ rest) /\
  (instanceof_TimeOutError err = false ->
   Circuit.isFailure c err = false ->
   fst run = w /\ returns (snd run) = true) /\
  (forall r,
      snd run = Normal r ->
      match Circuit._fallback c, _fallback b with
      | Some f, _ => r = Fallback_result f (args call)
      | None, Some f => r = Fallback_result f (args call)
      | None, None =>
          r = Rejected_with
                (if message_truthy (err_message err)
                    && truthy_string (name b) && modifyError (_opts b)
                 then prefix_message (name b) err
                 else err)
      end).
Proof.
  intros run elapsed b.
  set (step :=
         if instanceof_TimeOutError err
         then emit_outcome (OTimeout elapsed err (execGeneration call))
         else if Circuit.isFailure c err
         then emit_outcome (OFailure elapsed err (execGeneration call))
         else ret tt).
  set (es := if instanceof_TimeOutError err
             then [Timeout elapsed err (execGeneration call)]
             else if Circuit.isFailure c err
             then [Failure elapsed err (execGeneration call)]
             else []).
  assert (Hstep : Trace.settled_on w (emitted w ++ es) (fst (step w))).
  { subst step es.
    destruct (instanceof_TimeOutError err);
      [apply (emit_outcome_settled (OTimeout _ _ _)) |].
    destruct (Circuit.isFailure c err);
      [apply (emit_outcome_settled (OFailure _ _ _)) |].
    split; [exists []; cbn; now rewrite !app_nil_r | repeat split]. }
  assert (Erun : run =
            match step w with
            | (w1, Normal _) =>
                (w1,
                 Normal
                   match Circuit._fallback c with
                   | Some f => Fallback_result f (args call)
                   | None =>
                       match _fallback (brakes w1) with
                       | Some f => Fallback_result f (args call)
                       | None =>
                           Rejected_with
                             (if message_truthy (err_message err)
                                 && truthy_string (name (brakes w1))
                                 && modifyError (_opts (brakes w1))
                              then prefix_message (name (brakes w1)) err
                              else err)
                       end
                   end)
            | (w1, Throw e) => (w1, Throw e)
            end).
  { subst run step. unfold on_rejected.
    unfold bind at 1. unfold gets at 1. cbv beta iota zeta. fold elapsed.
    unfold bind at 1.
    destruct ((if instanceof_TimeOutError err
               then emit_outcome (OTimeout elapsed err (execGeneration call))
               else if Circuit.isFailure c err
               then emit_outcome (OFailure elapsed err (execGeneration call))
               else ret tt) w) as [w1 [[]|e]]; [| reflexivity].
    destruct (Circuit._fallback c); [reflexivity |].
    unfold bind, gets. cbv beta iota.
    destruct (_fallback (brakes w1)); [reflexivity |].
    destruct (_ && _); reflexivity. }
  split; [| split].
  - destruct Hstep as ((rest & Hr) & _).
    exists rest. rewrite Erun.
    destruct (step w) as [w1 [[]|e]]; cbn [fst] in Hr |- *;
      now rewrite Hr, app_assoc.
  - intros Ht Hf. rewrite Erun. subst step. rewrite Ht, Hf.
    cbn [ret]. split; reflexivity.
  - intros r Hr. rewrite Erun in Hr.
    destruct Hstep as (_ & Hfb & Hnm & Hop).
    destruct (step w) as [w1 [[]|e]]; [| discriminate Hr].
    cbn [fst snd] in Hfb, Hnm, Hop, Hr. injection Hr as <-.
    subst b. rewrite Hfb, Hnm, Hop.
    destruct (Circuit._fallback c); [reflexivity |].
    destruct (_fallback (brakes w)); reflexivity.
Qed.

Lemma rejection_goes_to_the_nearest_fallback_witness :
  let c := Circuit.new Scenario.service (Some 2%nat) (Some (fun _ => false)) in
  let run := on_rejected c Scenario.stale_call Scenario.boom
               Scenario.default_world in
  instanceof_TimeOutError Scenario.boom = false /\
  Circuit.isFailure c Scenario.boom = false /\
  snd run = Normal (Fallback_result 2%nat []) /\
  fst run = Scenario.default_world.
Proof.
  intros c run.
  assert (H1 : instanceof_TimeOutError Scenario.boom = false) by reflexivity.
  assert (H2 : Circuit.isFailure c Scenario.boom = false) by reflexivity.
  assert (H3 : snd run = Normal (Fallback_result 2%nat [])) by reflexivity.
  split; [exact H1 |]. split; [exact H2 |]. split; [exact H3 |].
  destruct (rejection_goes_to_the_nearest_fallback Scenario.default_world c
              Scenario.stale_call Scenario.boom) as (_ & Hq & Hr).
  pose proof (Hr _ H3) as Hres.
  exact (proj1 (Hq H1 H2)).
Defined.

End Rejection.

Section Feed.

Import Brakes Invocation Process.

Lemma snapshot_listeners_feed (envelope : RawStats.t)
  (ls : list EventEmitter.Listener) :
  forall w : World,
    let w' :=
      fst (for_each
             (fun l =>
                match l with
                | EventEmitter.BoundGlobalListener _ =>
                    zoom instance set_instance
                      (GlobalStats._globalListener envelope)
                | _ => ret tt
                end) ls w) in
    GlobalStats._rawStream (instance w') =
      GlobalStats._rawStream (instance w)
      ++ (if GlobalStats._rawStream_isPaused (instance w) then []
          else if (0 <? List.length (filter Trace.bound ls))%nat
               then [envelope] else []) /\
    GlobalStats._rawStream_isPaused (instance w') =
      (GlobalStats._rawStream_isPaused (instance w)
       || (0 <? List.length (filter Trace.bound ls))%nat) /\
    GlobalStats._brakesInstances (instance w') =
      GlobalStats._brakesInstances (instance w).
Proof.
  induction ls as [|l ls IH]; intros w.
  - cbn. destruct (GlobalStats._rawStream_isPaused (instance w));
      rewrite app_nil_r; repeat split.
  - destruct l as [| | |fn];
      try (exact (IH w)).
    set (f := fun l : EventEmitter.Listener =>
                match l with
                | EventEmitter.BoundGlobalListener _ =>
                    zoom instance set_instance
                      (GlobalStats._globalListener envelope)
                | _ => ret tt
                end).
    set (w1 := set_instance
                 (if GlobalStats._rawStream_isPaused (instance w)
                  then instance w
                  else GlobalStats.mk
                         (GlobalStats._brakesInstances (instance w)) true
                         (GlobalStats._rawStream (instance w) ++ [envelope]))
                 w).
    assert (Estep : for_each f (EventEmitter.BoundGlobalListener fn :: ls) w
                    = for_each f ls w1) by reflexivity.
    rewrite Estep. destruct (IH w1) as (H1 & H2 & H3).
    fold f in H1, H2, H3. cbv zeta in H1, H2, H3 |- *.
    rewrite H1, H2, H3. subst w1.
    cbn [instance set_instance filter Trace.bound List.length Nat.ltb Nat.leb].
    destruct (GlobalStats._rawStream_isPaused (instance w)) eqn:Ep;
      cbn [GlobalStats._rawStream GlobalStats._rawStream_isPaused
             GlobalStats._brakesInstances orb].
    + rewrite Ep. repeat split.
    + rewrite app_nil_r. repeat split.
Qed.

(** X20.  A snapshot tick of a breaker, in any state, pushes the envelope
    of the snapshot (name, group, time, state of the circuit, thresholds
    and totals) onto the raw stream of the global statistics when the
    stream flows and the breaker is subscribed to it; the chunk leaves
    the stream paused, so that it is pushed once however many times the
    breaker is subscribed, and a snapshot that comes before the drain of
    the Hystrix stream is not pushed at all.  The drain lets the stream
    flow again.  Neither touches the list of instances.  A new breaker is
    subscribed once, and listed once, unless it was built with
    [registerGlobal: false]: then it is neither. *)
Theorem snapshot_reaches_the_raw_stream :
  (forall w : World,
      let w' := exec_state snapshot_tick w in
      let d := Stats._totals (_stats (brakes w')) in
      let envelope :=
        RawStats.mk (name (brakes w)) (group (brakes w)) (clock w)
          (_circuitOpen (brakes w)) (circuitDuration (_opts (brakes w)))
          (threshold (_opts (brakes w))) (waitThreshold (_opts (brakes w)))
          d in
      let subscribed := (0 <? Trace.registrations (_events (brakes w)))%nat in
      GlobalStats._rawStream (instance w') =
        GlobalStats._rawStream (instance w)
        ++ (if GlobalStats._rawStream_isPaused (instance w) then []
            else if subscribed then [envelope] else []) /\
      GlobalStats._rawStream_isPaused (instance w') =
        (GlobalStats._rawStream_isPaused (instance w) || subscribed) /\
      GlobalStats._brakesInstances (instance w') =
        GlobalStats._brakesInstances (instance w)) /\
  (forall w : World,
      let w' := exec_state (Process.run Process.Drain) w in
      GlobalStats._rawStream_isPaused (instance w') = false /\
      GlobalStats._rawStream (instance w') = GlobalStats._rawStream (instance w) /\
      GlobalStats._brakesInstances (instance w') =
        GlobalStats._brakesInstances (instance w) /\
      brakes w' = brakes w) /\
  (forall (object_id : nat) (func : option Fn) (opts : UserOptions)
          (h : Heap) (g : GlobalStats.t) (fns : nat) (now : Z),
      let w := Brakes.new object_id func opts h g fns now in
      let registered :=
        match opt_registerGlobal opts with Some v => v | None => true end in
      Trace.registrations (_events (brakes w)) =
        (if registered then 1 else 0)%nat /\
      GlobalStats._brakesInstances (instance w) =
        GlobalStats._brakesInstances g
        ++ (if registered then [object_id] else []) /\
      GlobalStats._rawStream (instance w) = GlobalStats._rawStream g /\
      GlobalStats._rawStream_isPaused (instance w) =
        GlobalStats._rawStream_isPaused g).
Proof.
  split; [| split].
  - intros w.
    destruct (generateStats_result (heap w) (_stats (brakes w))
                (Stats._buckets (_stats (brakes w))) true) as (E & _).
    set (d0 := Stats._totals _) in E.
    set (w1 := stats_update (heap w, Stats.set_totals d0 (_stats (brakes w))) w).
    assert (E1 : zoom stats_view stats_update (Stats.generate_own true) w
                 = (w1, Normal d0)).
    { apply zoom_eq. unfold stats_view, Stats.generate_own. exact E. }
    set (envelope0 :=
           RawStats.mk (name (brakes w)) (group (brakes w)) (clock w)
             (_circuitOpen (brakes w)) (circuitDuration (_opts (brakes w)))
             (threshold (_opts (brakes w))) (waitThreshold (_opts (brakes w)))
             d0).
    set (f := fun l : EventEmitter.Listener =>
                match l with
                | EventEmitter.BoundGlobalListener _ =>
                    zoom instance set_instance
                      (GlobalStats._globalListener envelope0)
                | _ => ret tt
                end).
    set (ls := EventEmitter.listeners "snapshot" (_events (brakes w))).
    set (w3 := exec_state (record_event (Snapshot envelope0))
                 (exec_state (record_event (StatsSnapshot d0)) w1)).
    destruct (snapshot_listeners_return envelope0 ls w3)
      as (w4 & E4 & _ & Hb4 & _).
    fold f in E4.
    assert (E2 : stats_emit "snapshot" d0 w1 = (w4, Normal tt)).
    { rewrite <- E4. reflexivity. }
    destruct (snapshot_listeners_feed envelope0 ls w3) as (F1 & F2 & F3).
    fold f in F1, F2, F3. rewrite E4 in F1, F2, F3.
    cbn [fst] in F1, F2, F3.
    assert (E5 : snapshot_tick w =
                 zoom stats_view stats_update Stats._resetDerivs w4).
    { unfold snapshot_tick, _stats_snapshot, Stats._snapshot.
      rewrite (bind_normal _ _ _ _ _ E1), (bind_normal _ _ _ _ _ E2).
      reflexivity. }
    assert (Hd : Stats._totals (_stats (brakes w4)) = d0)
      by (rewrite Hb4; reflexivity).
    assert (Hfin :
      instance (exec_state snapshot_tick w) = instance w4 /\
      Stats._totals (_stats (brakes (exec_state snapshot_tick w))) = d0).
    { unfold exec_state. rewrite E5. unfold zoom.
      pose proof (resetDerivs_keeps (fun s => Stats._totals s = d0)
                    (stats_view w4) Hd) as Hk.
      destruct (Stats._resetDerivs (stats_view w4)) as [[h5 s5] r5].
      cbn [fst snd] in Hk |- *. split; [reflexivity | exact Hk]. }
    destruct Hfin as [Hi Ht].
    cbv zeta. rewrite Hi, Ht. fold envelope0.
    exact (conj F1 (conj F2 F3)).
  - intros w. repeat split.
  - intros object_id func opts h g fns now w registered. subst w registered.
    unfold Brakes.new.
    destruct (Stats.new (stats_options opts) h) as [h' stats].
    destruct opts as [? ? ? ? ? ? ? ? ? ? ? ? ? rg hc fb].
    destruct g as [l paused raw].
    unfold exec_state, bind, _attachListeners, _stats_startSnapshots,
      Stats.startSnapshots, this, zoom, modify, healthCheck,
      fallback, ret.
    destruct rg as [[|]|], hc, fb, func; cbn;
      rewrite ?app_nil_r; repeat split; reflexivity.
Qed.

End Feed.

Section Constructors.

Import Brakes Invocation Process.

Lemma construct_callable (object_id : nat) (f : Fn)
  (opts : option UserOptions) (h : Heap) (g : GlobalStats.t) (fns : nat)
  (now : Z) :
  Brakes.construct object_id (Circuit.Callable f) opts h g fns now =
  (Brakes.new object_id (Some f)
     (match opts with Some o => o | None => no_options end) h g fns now,
   Normal tt).
Proof.
  unfold Brakes.construct, Brakes.new.
  destruct opts as [opts|]; cbv beta iota zeta.
  - destruct (Stats.new (stats_options opts) h) as [h' stats].
    destruct opts as [? ? ? ? ? ? ? ? ? ? isf ? ? rg hc fb].
    unfold exec_state, bind, _attachListeners, _stats_startSnapshots,
      Stats.startSnapshots, this, zoom, modify, healthCheck,
      fallback, ret, Circuit.construct.
    destruct rg as [[|]|], hc, fb; reflexivity.
  - destruct (Stats.new (stats_options no_options) h) as [h' stats].
    reflexivity.
Qed.

Lemma construct_without_function (object_id : nat)
  (opts : option UserOptions) (h : Heap) (g : GlobalStats.t) (fns : nat)
  (now : Z) :
  Brakes.construct object_id Circuit.Absent opts h g fns now =
  (Brakes.new object_id None
     (match opts with Some o => o | None => no_options end) h g fns now,
   Normal tt).
Proof.
  unfold Brakes.construct, Brakes.new.
  destruct opts as [opts|]; cbv beta iota zeta.
  - destruct (Stats.new (stats_options opts) h) as [h' stats].
    destruct opts as [? ? ? ? ? ? ? ? ? ? isf ? ? rg hc fb].
    unfold exec_state, bind, _attachListeners, _stats_startSnapshots,
      Stats.startSnapshots, this, zoom, modify, healthCheck,
      fallback, ret.
    destruct rg as [[|]|], hc, fb; reflexivity.
  - destruct (Stats.new (stats_options no_options) h) as [h' stats].
    reflexivity.
Qed.

(** X21.  The forms of the arguments of the two constructors.  An object
    passed alone to [new Brakes] is the options: the breaker is the one
    built from no function and these options, and has no master circuit.
    With a function, the master circuit is built with the options in the
    place of its fallback, which the constructor of [Circuit] takes for
    its options: the circuit classifies failures with [isFailure] of the
    options, and with the function that accepts every error when there is
    none.  An object passed as the function together with options makes
    the constructor throw 'This instance of brakes has no master circuit
    ...', after the breaker has been registered with the global
    statistics.  [new Circuit] throws 'Circuit must be passed a Brakes
    instance' before anything else when the breaker is not an emitter,
    and the other message when [main] is not a function or when an object
    in the place of the fallback comes with options. *)
Theorem constructor_argument_forms :
  (forall (object_id : nat) (o : UserOptions) (h : Heap) (g : GlobalStats.t)
          (fns : nat) (now : Z),
      Brakes.construct object_id (Circuit.AnObject o) None h g fns now =
      Brakes.construct object_id Circuit.Absent (Some o) h g fns now /\
      Brakes.construct object_id Circuit.Absent (Some o) h g fns now =
      (Brakes.new object_id None o h g fns now, Normal tt) /\
      _masterCircuit (brakes (Brakes.new object_id None o h g fns now))
      = None) /\
  (forall (object_id : nat) (f : Fn) (opts : option UserOptions) (h : Heap)
          (g : GlobalStats.t) (fns : nat) (now : Z),
      let given := match opts with Some o => o | None => no_options end in
      let w := Brakes.new object_id (Some f) given h g fns now in
      Brakes.construct object_id (Circuit.Callable f) opts h g fns now =
      (w, Normal tt) /\
      exists c,
        _masterCircuit (brakes w) = Some c /\
        Circuit._serviceCall c = f /\
        Circuit._fallback c = opt_fallback given /\
        _fallback (brakes w) = opt_fallback given /\
        forall err,
          Circuit.isFailure c err =
          match opt_isFailure given with
          | Some accepts => accepts err
          | None => true
          end) /\
  (forall (object_id : nat) (o opts : UserOptions) (h : Heap)
          (g : GlobalStats.t) (fns : nat) (now : Z),
      let run :=
        Brakes.construct object_id (Circuit.AnObject o) (Some opts) h g fns
          now in
      snd run = Throw (Error consts.NO_FUNCTION) /\
      _masterCircuit (brakes (fst run)) = None /\
      GlobalStats._brakesInstances (instance (fst run)) =
        GlobalStats._brakesInstances g
        ++ (if match opt_registerGlobal opts with
               | Some v => v
               | None => true
               end
            then [object_id] else [])) /\
  (forall (main fallback_ : Circuit.Arg Circuit.Options)
          (options : option Circuit.Options),
      Circuit.construct false main fallback_ options =
      Throw (Error consts.NO_BRAKES)) /\
  (forall (fallback_ : Circuit.Arg Circuit.Options)
          (options : option Circuit.Options) (o : Circuit.Options),
      Circuit.construct true Circuit.Absent fallback_ options =
      Throw (Error consts.NO_FUNCTION) /\
      Circuit.construct true (Circuit.AnObject o) fallback_ options =
      Throw (Error consts.NO_FUNCTION)) /\
  (forall (m : Fn) (o o' : Circuit.Options),
      Circuit.construct true (Circuit.Callable m) (Circuit.AnObject o) None =
      Circuit.construct true (Circuit.Callable m) Circuit.Absent (Some o) /\
      Circuit.construct true (Circuit.Callable m) (Circuit.AnObject o)
        (Some o') = Throw (Error consts.NO_FUNCTION)).
Proof.
  split; [| split; [| split; [| split; [| split]]]].
  - intros object_id o h g fns now.
    split; [reflexivity |].
    split; [apply (construct_without_function object_id (Some o)) |].
    destruct (Brakes_new_fields object_id None o h g fns now)
      as (_ & _ & _ & _ & _ & _ & Hn & _).
    now apply Hn.
  - intros object_id f opts h g fns now given w.
    split; [apply construct_callable |].
    subst w. unfold Brakes.new.
    destruct (Stats.new (stats_options given) h) as [h' stats].
    clearbody given.
    destruct given as [? ? ? ? ? ? ? ? ? ? isf ? ? rg hc fb].
    unfold exec_state, bind, _attachListeners, _stats_startSnapshots,
      Stats.startSnapshots, this, zoom, modify, healthCheck,
      fallback, ret.
    destruct rg as [[|]|], hc, fb, isf; cbn;
      eexists; repeat split; reflexivity.
  - intros object_id o opts h g fns now run. subst run.
    unfold Brakes.construct.
    destruct (Stats.new (stats_options opts) h) as [h' stats].
    destruct opts as [? ? ? ? ? ? ? ? ? ? isf ? ? rg hc fb].
    destruct g as [l paused raw].
    unfold exec_state, bind, _attachListeners, _stats_startSnapshots,
      Stats.startSnapshots, this, zoom, modify, healthCheck,
      fallback, ret, Circuit.construct.
    destruct rg as [[|]|], hc; cbn; rewrite ?app_nil_r;
      repeat split; reflexivity.
  - intros main fallback_ options. reflexivity.
  - intros fallback_ options o. split; reflexivity.
  - intros m o o'. split; reflexivity.
Qed.

End Constructors.


(** ** Recorded outcomes and the promise of the call *)

Section Bypass.

Import Brakes Invocation Process.

Lemma recording_bind_throws (method : string) (o : Bucket.op)
  (k : unit -> M World unit) (w : World) :
  stats_as_built (stats_view w) ->
  exists prop,
    snd (bind (zoom stats_view stats_update
                 (Stats.on_activeBucket method (Bucket.apply o))) k w)
    = Throw (TypeError prop).
Proof.
  intros Hs.
  destruct (recording_undefined method o w Hs) as (prop & E).
  exists prop. unfold completion, bind in *.
  destruct (zoom _ _ _ w) as [w' r]. cbn in E. subst r. reflexivity.
Qed.

Lemma listeners_of_a_recorded_outcome (o : Outcome) (w : World)
  (ls : list EventEmitter.Listener) :
  stats_as_built (stats_view w) ->
  (exists l, In l ls /\
     match l, o with
     | EventEmitter.SuccessListener, OSuccess _ => True
     | EventEmitter.TimeoutListener, OTimeout _ _ g
     | EventEmitter.FailureListener, OFailure _ _ g =>
         g = _circuitGeneration (brakes w)
     | _, _ => False
     end) ->
  exists prop,
    snd (for_each (fun l => call_listener l o) ls w) = Throw (TypeError prop).
Proof.
  intros Hs (lk & Hin & Hk).
  induction ls as [|l ls IH]; [destruct Hin |].
  cbn [for_each].
  assert (Hcase :
    (exists prop, snd (call_listener l o w) = Throw (TypeError prop)) \/
    (call_listener l o w = (w, Normal tt) /\ l <> lk)).
  { destruct l, o as [ms | ms e g | ms e g]; cbn [call_listener];
      try (right; split; [reflexivity |];
           intros <-; exact Hk).
    - left. apply (recording_bind_throws "success" (Bucket.Success ms) _ w Hs).
    - unfold _timeoutHandler, bind, gets. cbv beta iota.
      destruct (g =? _circuitGeneration (brakes w))%Z eqn:E.
      + left.
        apply (recording_bind_throws "timeout" (Bucket.Timeout ms) _ w Hs).
      + right. split; [reflexivity |]. intros <-. cbn in Hk. lia.
    - unfold _failureHandler, bind, gets. cbv beta iota.
      destruct (g =? _circuitGeneration (brakes w))%Z eqn:E.
      + left.
        apply (recording_bind_throws "failure" (Bucket.Failure ms) _ w Hs).
      + right. split; [reflexivity |]. intros <-. cbn in Hk. lia. }
  destruct Hcase as [(prop & E) | (E & Hne)].
  - exists prop. unfold bind.
    destruct (call_listener l o w) as [w' r]. cbn in E. now subst r.
  - unfold bind. rewrite E.
    apply IH. destruct Hin as [-> |]; [now elim Hne | assumption].
Qed.

Lemma emit_recorded_throws (master : bool) (o : Outcome) (w : World) :
  as_built master (brakes w) ->
  Trace.recorded o w ->
  exists prop, snd (emit_outcome o w) = Throw (TypeError prop).
Proof.
  intros [_ Hs] Hr.
  unfold emit_outcome, bind, record_event, modify, gets. cbv beta iota.
  apply listeners_of_a_recorded_outcome; [exact Hs |].
  cbn [brakes].
  destruct o; cbn [Trace.recorded outcome_name] in Hr |- *.
  - now exists EventEmitter.SuccessListener.
  - now exists EventEmitter.TimeoutListener.
  - now exists EventEmitter.FailureListener.
Qed.

Lemma on_rejected_not_fulfilled (c : Circuit.t) (call : Call) (err : JsError)
  (w : World) (result : JsValue) :
  snd (on_rejected c call err w) <> Normal (Fulfilled result).
Proof.
  unfold on_rejected.
  unfold bind at 1. unfold gets at 1. cbv beta iota zeta.
  unfold bind at 1.
  destruct ((if instanceof_TimeOutError err
             then emit_outcome _
             else if Circuit.isFailure c err
             then emit_outcome _
             else ret tt) w) as [w1 [[]|e]]; [| discriminate].
  destruct (Circuit._fallback c); [discriminate |].
  unfold bind, gets. cbv beta iota.
  destruct (_fallback (brakes w1)); [discriminate |].
  destruct (_ && _); discriminate.
Qed.

(** X22.  On a breaker as the constructor builds it, in whatever state
    it has reached, an outcome event that a listener records makes
    [emit] throw a [TypeError]: a [success] while its listener is
    attached, a [timeout] or a [failure] of the current generation while
    its listener is attached.  So a call whose service promise resolves
    is never fulfilled: the promise that [exec] returned takes a
    fallback or is rejected.  And a call that times out, or that fails
    with an error that [isFailure] accepts, is rejected with that
    [TypeError]: no fallback is called and the error of the service is
    lost. *)
Theorem a_recorded_outcome_rejects_the_call (master : bool) (w : World)
  (c : Circuit.t) (call : Call) :
  as_built master (brakes w) ->
  let elapsed := clock w - startTime call in
  (forall o,
      Trace.recorded o w ->
      exists prop, snd (emit_outcome o w) = Throw (TypeError prop)) /\
  (forall result,
      Trace.recorded (OSuccess elapsed) w ->
      exists r,
        snd (Circuit_settle c call (Resolved result) w) = Normal r /\
        forall v, r <> Fulfilled v) /\
  (forall err,
      Trace.recorded
        (if instanceof_TimeOutError err
         then OTimeout elapsed err (execGeneration call)
         else OFailure elapsed err (execGeneration call)) w ->
      instanceof_TimeOutError err || Circuit.isFailure c err = true ->
      exists prop,
        snd (Circuit_settle c call (Rejected err) w)
        = Normal (Rejected_with (TypeError prop))).
Proof.
  intros Hb elapsed.
  split; [intros o; apply (emit_recorded_throws master o w Hb) |].
  split.
  - intros result Hr.
    destruct (emit_recorded_throws master _ w Hb Hr) as (prop & E).
    unfold Circuit_settle, try_catch.
    unfold bind at 1. unfold gets at 1. cbv beta iota. fold elapsed.
    unfold bind at 1.
    destruct (emit_outcome (OSuccess elapsed) w) as [w1 r1].
    cbn [snd] in E. subst r1.
    pose proof (fun v => on_rejected_not_fulfilled c call (TypeError prop) w1 v)
      as Hn.
    destruct (on_rejected c call (TypeError prop) w1) as [w2 [r|e]];
      cbn [snd] in Hn |- *.
    + exists r. split; [reflexivity |].
      intros v ->. now apply (Hn v).
    + exists (Rejected_with e). split; [reflexivity | discriminate].
  - intros err Hr Hf.
    unfold Circuit_settle, try_catch, on_rejected.
    unfold bind at 1. unfold gets at 1. cbv beta iota zeta. fold elapsed.
    unfold bind at 1.
    destruct (instanceof_TimeOutError err).
    + destruct (emit_recorded_throws master _ w Hb Hr) as (prop & E).
      destruct (emit_outcome _ w) as [w1 r1]. cbn [snd] in E. subst r1.
      now exists prop.
    + cbn [orb] in Hf. rewrite Hf.
      destruct (emit_recorded_throws master _ w Hb Hr) as (prop & E).
      destruct (emit_outcome _ w) as [w1 r1]. cbn [snd] in E. subst r1.
      now exists prop.
Qed.

Lemma a_recorded_outcome_rejects_the_call_witness :
  let w := Scenario.default_world in
  as_built true (brakes w) /\
  Trace.recorded (OFailure (clock w - startTime Scenario.stale_call)
                    Scenario.boom (execGeneration Scenario.stale_call)) w /\
  exists prop,
    snd (Circuit_settle Scenario.master Scenario.stale_call
           (Rejected Scenario.boom) w)
    = Normal (Rejected_with (TypeError prop)).
Proof.
  intros w.
  assert (Hb : as_built true (brakes w)).
  { split; [discriminate |].
    split; [reflexivity | vm_compute; repeat constructor]. }
  assert (Hr : Trace.recorded
                 (OFailure (clock w - startTime Scenario.stale_call)
                    Scenario.boom (execGeneration Scenario.stale_call)) w).
  { split; [vm_compute; tauto | reflexivity]. }
  split; [exact Hb |]. split; [exact Hr |].
  exact (proj2 (proj2 (a_recorded_outcome_rejects_the_call true w
                         Scenario.master Scenario.stale_call Hb))
           Scenario.boom Hr eq_refl).
Defined.

End Bypass.
